(** * T3C pyserver: the four-stage LLM pipeline, embedded in Rocq

    A shallow embedding of [pyserver/main.py], [pyserver/utils.py] and
    [json_response_parser.py], and the verification of the pipeline's
    specification against it.

    - Exceptions are an explicit error monad, [result], with the Python
      exception raised.
    - Python dictionaries whose iteration order is observable are
      association lists in insertion order ([dict_get], [dict_set]);
      dictionaries and sets that are only looked up are [gmap]s and [gset]s.
    - Decoded LLM answers are [json] values; [json.loads], [json.dumps] and
      the part of [re] the extractor uses are modelled here, over text made
      of the code points below 256.
    - The LLM is an oracle from prompts to response texts.  Stage 3 runs it
      per subtopic; Stages 2 and 4 are modelled from the point where the
      per-item answers have been collected.
    - Token counting, cost and W&B logging do not influence any returned
      [data] and are left out. *)

From Stdlib Require Import String Ascii List ZArith QArith Lqa Lia Bool Sorted.
From Stdlib Require Import DecimalString DecimalNat DecimalFacts DecimalPos.
From Stdlib Require OrderedTypeEx.
From stdpp Require Import base option list gmap strings.

Close Scope Q_scope.
Open Scope string_scope.
Open Scope list_scope.
Open Scope nat_scope.

(** ** Python exceptions and the error monad *)

Inductive exn : Type :=
| IndexError
| ValueError
| KeyError
| TypeError
| AttributeError
| UnboundLocalError
| APIError.

Inductive result (A : Type) : Type :=
| Ok (a : A)
| Raise (e : exn).
Arguments Ok {A} a.
Arguments Raise {A} e.

#[global] Instance result_ret : MRet result := fun _ a => Ok a.
#[global] Instance result_bind : MBind result := fun _ _ f r =>
  match r with
  | Ok a => f a
  | Raise e => Raise e
  end.
#[global] Instance result_fmap : FMap result := fun _ _ f r =>
  match r with
  | Ok a => Ok (f a)
  | Raise e => Raise e
  end.

(** [o ?! e]: the value of a lookup, or exception [e] when it is absent. *)
Definition or_raise {A} (o : option A) (e : exn) : result A :=
  match o with
  | Some a => Ok a
  | None => Raise e
  end.
Infix "?!" := or_raise (at level 50).

(** [for i, x in enumerate(l, start): s = body(i, x, s)] with exceptions. *)
Fixpoint for_enumerate {A St} (body : nat -> A -> St -> result St)
    (start : nat) (l : list A) (s : St) : result St :=
  match l with
  | [] => Ok s
  | x :: rest => s' ← body start x s; for_enumerate body (S start) rest s'
  end.

(** [for x in l: s = body(s, x)] with exceptions. *)
Definition for_each {A St} (body : St -> A -> result St) (l : list A) (s : St)
    : result St :=
  for_enumerate (fun _ x s => body s x) 0 l s.

(** [[f(x) for x in l]] where [f] may raise. *)
Fixpoint comprehension {A B} (f : A -> result B) (l : list A) : result (list B) :=
  match l with
  | [] => Ok []
  | x :: rest => y ← f x; ys ← comprehension f rest; Ok (y :: ys)
  end.

(** ** Python string primitives *)

(** [s.startswith(p)] *)
Fixpoint startswith (p s : string) : bool :=
  match p, s with
  | "", _ => true
  | String a p', String b s' => Ascii.eqb a b && startswith p' s'
  | _, _ => false
  end.

(** [s.split(sep)] for a non-empty separator: non-overlapping occurrences,
    leftmost first.  [skip] counts the characters of a separator still to
    be passed over. *)
Fixpoint split_from (sep : string) (skip : nat) (acc : string) (s : string)
    : list string :=
  match s with
  | "" => [acc]
  | String c rest =>
      match skip with
      | S k => split_from sep k acc rest
      | 0 =>
          if startswith sep s
          then acc :: split_from sep (String.length sep - 1) "" rest
          else split_from sep 0 (acc +:+ String c "") rest
      end
  end.

Definition split (sep s : string) : list string := split_from sep 0 "" s.

(** [str(i)] for a list index. *)
Definition str_of_nat (i : nat) : string := NilZero.string_of_uint (Nat.to_uint i).

(** Characters.  Text is modelled over the code points below 256. *)
Definition code (c : ascii) : nat := nat_of_ascii c.

Definition LF : ascii := "010"%char.
Definition DQUOTE : ascii := "034"%char.
Definition BACKSLASH : ascii := "\"%char.

(** [str.isspace] and the regular-expression class [\s]. *)
Definition is_space (c : ascii) : bool :=
  let n := code c in
  ((9 <=? n) && (n <=? 13)) || ((28 <=? n) && (n <=? 32)) || (n =? 133) || (n =? 160).

Definition is_digit (c : ascii) : bool :=
  let n := code c in (48 <=? n) && (n <=? 57).

(** [c.lower()] *)
Definition lower_char (c : ascii) : ascii :=
  let n := code c in
  if ((65 <=? n) && (n <=? 90)) || ((192 <=? n) && (n <=? 222) && negb (n =? 215))
  then ascii_of_nat (n + 32) else c.

Fixpoint lower (s : string) : string :=
  match s with
  | "" => ""
  | String c rest => String (lower_char c) (lower rest)
  end.

(** Texts with double quotes are written with apostrophes: [dq] puts the
    double quotes in. *)
Fixpoint dq (s : string) : string :=
  match s with
  | "" => ""
  | String c rest => String (if Ascii.eqb c "'" then DQUOTE else c) (dq rest)
  end.

(** [s.lstrip()], [s.rstrip()], [s.strip()] *)
Fixpoint lstrip (s : string) : string :=
  match s with
  | String c rest => if is_space c then lstrip rest else s
  | "" => ""
  end.

Fixpoint rstrip (s : string) : string :=
  match s with
  | "" => ""
  | String c rest =>
      match rstrip rest with
      | "" => if is_space c then "" else String c ""
      | kept => String c kept
      end
  end.

Definition strip (s : string) : string := rstrip (lstrip s).

(** [s[n:]] and [s[:n]] for a non-negative [n]. *)
Fixpoint str_drop (n : nat) (s : string) : string :=
  match n, s with
  | S k, String _ rest => str_drop k rest
  | _, _ => s
  end.

Fixpoint str_take (n : nat) (s : string) : string :=
  match n, s with
  | S k, String c rest => String c (str_take k rest)
  | _, _ => ""
  end.

(** [sep.join(parts)] *)
Fixpoint join (sep : string) (parts : list string) : string :=
  match parts with
  | [] => ""
  | [x] => x
  | x :: rest => x +:+ sep +:+ join sep rest
  end.

(** ** Python dictionaries with observable order

    An association list in insertion order; assigning to an existing key
    keeps its position. *)
Fixpoint dict_get {K V} `{EqDecision K} (k : K) (d : list (K * V)) : option V :=
  match d with
  | [] => None
  | (k', v) :: rest => if decide (k = k') then Some v else dict_get k rest
  end.

Fixpoint dict_set {K V} `{EqDecision K} (k : K) (v : V) (d : list (K * V))
    : list (K * V) :=
  match d with
  | [] => [(k, v)]
  | (k', v') :: rest =>
      if decide (k = k') then (k, v) :: rest else (k', v') :: dict_set k v rest
  end.

Definition dict_has {K V} `{EqDecision K} (k : K) (d : list (K * V)) : bool :=
  match dict_get k d with Some _ => true | None => false end.

(** ** JSON values ([json.loads], [json.dumps])

    What [json.loads] returns: [None], [bool], [int], [float], [str],
    [list] and [dict].  A number written with a fraction or an exponent is
    a float; it is carried as its text, and [float_value] gives the
    decimal value of that text. *)
#[warnings="-register-all"] Inductive json : Type :=
| JNull
| JBool (b : bool)
| JInt (z : Z)
| JFloat (lexeme : string)
| JStr (s : string)
| JArr (items : list json)
| JObj (fields : list (string * json)).

(** *** Numbers *)

Definition digit_value (c : ascii) : Z := Z.of_nat (code c - 48).

Definition digits_value (ds : string) : Z :=
  fold_left (fun acc c => (10 * acc + digit_value c)%Z) (list_ascii_of_string ds) 0%Z.

(** The longest run of digits at the front of [s]. *)
Fixpoint span_digits (s : string) : string * string :=
  match s with
  | String c rest =>
      if is_digit c then let '(ds, r) := span_digits rest in (String c ds, r)
      else ("", s)
  | "" => ("", "")
  end.

(** The number grammar of the decoder: an optional minus sign, then 0 or a
    non-zero digit and more digits; optionally a point and digits;
    optionally e or E, a sign and digits.  Each part is returned with the
    rest of the input. *)
Definition lex_int (s : string) : option (string * string) :=
  let '(sign, body) :=
    match s with String "-" rest => ("-", rest) | _ => ("", s) end in
  match body with
  | String "0" rest => Some (sign +:+ "0", rest)
  | _ =>
      match span_digits body with
      | ("", _) => None
      | (ds, rest) => Some (sign +:+ ds, rest)
      end
  end.

Definition lex_frac (s : string) : string * string :=
  match s with
  | String "." rest =>
      match span_digits rest with
      | ("", _) => ("", s)
      | (ds, rest') => ("." +:+ ds, rest')
      end
  | _ => ("", s)
  end.

Definition lex_exp (s : string) : string * string :=
  match s with
  | String e rest =>
      if Ascii.eqb e "e" || Ascii.eqb e "E" then
        let '(sign, body) :=
          match rest with
          | String "+" r => ("+", r)
          | String "-" r => ("-", r)
          | _ => ("", rest)
          end in
        match span_digits body with
        | ("", _) => ("", s)
        | (ds, rest') => (String e (sign +:+ ds), rest')
        end
      else ("", s)
  | "" => ("", s)
  end.

Definition parse_number (s : string) : option (json * string) :=
  match lex_int s with
  | None => None
  | Some (int_part, r1) =>
      let '(frac, r2) := lex_frac r1 in
      let '(exp, r3) := lex_exp r2 in
      if String.eqb frac "" && String.eqb exp "" then
        Some (JInt (match int_part with
                    | String "-" ds => - digits_value ds
                    | ds => digits_value ds
                    end)%Z, r3)
      else Some (JFloat (int_part +:+ frac +:+ exp), r3)
  end.

(** The decimal value of a float lexeme; [None] for the non-finite
    [NaN], [Infinity] and [-Infinity]. *)
Definition float_value (lexeme : string) : option Q :=
  match lex_int lexeme with
  | None => None
  | Some (int_part, r1) =>
      let '(frac, r2) := lex_frac r1 in
      let '(exp, _) := lex_exp r2 in
      let negative := match int_part with String "-" _ => true | _ => false end in
      let int_digits := match int_part with String "-" ds => ds | ds => ds end in
      let frac_digits := str_drop 1 frac in
      let mantissa := digits_value (int_digits +:+ frac_digits) in
      let e :=
        match str_drop 1 exp with
        | String "-" ds => (- digits_value ds)%Z
        | String "+" ds => digits_value ds
        | ds => digits_value ds
        end in
      let shift := (e - Z.of_nat (String.length frac_digits))%Z in
      let magnitude :=
        if (0 <=? shift)%Z then inject_Z (mantissa * 10 ^ shift)
        else (mantissa # Z.to_pos (10 ^ (- shift)))%Q in
      Some (if negative then (- magnitude)%Q else magnitude)
  end.

(** Truthiness, as tested by [if result:]. *)
Definition truthy (v : json) : bool :=
  match v with
  | JNull => false
  | JBool b => b
  | JInt z => negb (z =? 0)%Z
  | JFloat lexeme =>
      match float_value lexeme with
      | Some q => negb (Qeq_bool q 0)
      | None => true
      end
  | JStr s => negb (String.eqb s "")
  | JArr items => match items with [] => false | _ => true end
  | JObj fields => match fields with [] => false | _ => true end
  end.

(** [v == n] for a value [v] and an integer [n]; [None] is an absent key
    read with [dict.get]. *)
Definition eq_int (v : option json) (n : Z) : bool :=
  match v with
  | Some (JInt z) => (z =? n)%Z
  | Some (JBool b) => ((if b then 1 else 0) =? n)%Z
  | Some (JFloat lexeme) =>
      match float_value lexeme with
      | Some q => Qeq_bool q (inject_Z n)
      | None => false
      end
  | _ => false
  end.

(** *** Strings *)

Definition hex_value (c : ascii) : option nat :=
  let n := code c in
  if is_digit c then Some (n - 48)
  else if (97 <=? n) && (n <=? 102) then Some (n - 87)
  else if (65 <=? n) && (n <=? 70) then Some (n - 55)
  else None.

Definition hex4 (s : string) : option (nat * string) :=
  match s with
  | String a (String b (String c (String d rest))) =>
      a' ← hex_value a; b' ← hex_value b; c' ← hex_value c; d' ← hex_value d;
      Some (((a' * 16 + b') * 16 + c') * 16 + d', rest)
  | _ => None
  end.

(** The character of a one-letter escape. *)
Definition unescape (e : ascii) : option ascii :=
  if Ascii.eqb e DQUOTE then Some DQUOTE
  else if Ascii.eqb e BACKSLASH then Some BACKSLASH
  else if Ascii.eqb e "/" then Some "/"%char
  else if Ascii.eqb e "b" then Some "008"%char
  else if Ascii.eqb e "f" then Some "012"%char
  else if Ascii.eqb e "n" then Some LF
  else if Ascii.eqb e "r" then Some "013"%char
  else if Ascii.eqb e "t" then Some "009"%char
  else None.

(** The body of a string literal, after its opening quote: the decoded
    text and the input after the closing quote.  Control characters are
    refused (strict mode); a [\u] escape of a code point from 256 on is
    outside the character model and refused as well. *)
Fixpoint scan_string (fuel : nat) (s : string) : option (string * string) :=
  match fuel with
  | 0 => None
  | S fuel =>
      match s with
      | "" => None
      | String c rest =>
          if Ascii.eqb c DQUOTE then Some ("", rest)
          else if Ascii.eqb c BACKSLASH then
            match rest with
            | "" => None
            | String e rest' =>
                if Ascii.eqb e "u" then
                  '(n, rest'') ← hex4 rest';
                  if n <? 256 then
                    '(tail, r) ← scan_string fuel rest'';
                    Some (String (ascii_of_nat n) tail, r)
                  else None
                else
                  ch ← unescape e;
                  '(tail, r) ← scan_string fuel rest';
                  Some (String ch tail, r)
            end
          else if code c <? 32 then None
          else '(tail, r) ← scan_string fuel rest; Some (String c tail, r)
      end
  end.

(** *** The decoder *)

Definition json_ws (c : ascii) : bool :=
  Ascii.eqb c " " || Ascii.eqb c "009" || Ascii.eqb c LF || Ascii.eqb c "013".

Fixpoint skip_ws (s : string) : string :=
  match s with
  | String c rest => if json_ws c then skip_ws rest else s
  | "" => ""
  end.

Fixpoint parse_value (fuel : nat) (s : string) : option (json * string) :=
  match fuel with
  | 0 => None
  | S fuel =>
      match s with
      | "" => None
      | String c rest =>
          if Ascii.eqb c DQUOTE then
            '(text, r) ← scan_string (String.length s) rest; Some (JStr text, r)
          else if Ascii.eqb c "{" then
            match skip_ws rest with
            | String "}" r => Some (JObj [], r)
            | r => parse_members fuel [] r
            end
          else if Ascii.eqb c "[" then
            match skip_ws rest with
            | String "]" r => Some (JArr [], r)
            | r => parse_elements fuel [] r
            end
          else if startswith "null" s then Some (JNull, str_drop 4 s)
          else if startswith "true" s then Some (JBool true, str_drop 4 s)
          else if startswith "false" s then Some (JBool false, str_drop 5 s)
          else
            match parse_number s with
            | Some res => Some res
            | None =>
                if startswith "NaN" s then Some (JFloat "NaN", str_drop 3 s)
                else if startswith "Infinity" s then Some (JFloat "Infinity", str_drop 8 s)
                else if startswith "-Infinity" s then Some (JFloat "-Infinity", str_drop 9 s)
                else None
            end
      end
  end
with parse_elements (fuel : nat) (acc : list json) (s : string)
    : option (json * string) :=
  match fuel with
  | 0 => None
  | S fuel =>
      '(v, r) ← parse_value fuel s;
      match skip_ws r with
      | String "," r' => parse_elements fuel (acc ++ [v]) (skip_ws r')
      | String "]" r' => Some (JArr (acc ++ [v]), r')
      | _ => None
      end
  end
with parse_members (fuel : nat) (acc : list (string * json)) (s : string)
    : option (json * string) :=
  match fuel with
  | 0 => None
  | S fuel =>
      match s with
      | String c rest =>
          if Ascii.eqb c DQUOTE then
            '(key, r) ← scan_string (String.length s) rest;
            match skip_ws r with
            | String ":" r' =>
                '(v, r'') ← parse_value fuel (skip_ws r');
                match skip_ws r'' with
                | String "," r3 => parse_members fuel (dict_set key v acc) (skip_ws r3)
                | String "}" r3 => Some (JObj (dict_set key v acc), r3)
                | _ => None
                end
            | _ => None
            end
          else None
      | "" => None
      end
  end.

(** [json.loads(s)]; [None] stands for [JSONDecodeError].  Every call of
    the decoder above consumes input, so twice the length is fuel enough. *)
Definition json_loads (s : string) : option json :=
  let s' := skip_ws s in
  '(v, r) ← parse_value (2 * String.length s' + 2) s';
  match skip_ws r with
  | "" => Some v
  | _ => None
  end.

(** *** The encoder ([json.dumps] with its default separators) *)

Definition hex_digit (n : nat) : ascii :=
  if n <? 10 then ascii_of_nat (48 + n) else ascii_of_nat (87 + n).

Definition escape_char (c : ascii) : string :=
  let n := code c in
  if Ascii.eqb c DQUOTE then String BACKSLASH (String DQUOTE "")
  else if Ascii.eqb c BACKSLASH then String BACKSLASH (String BACKSLASH "")
  else if n =? 10 then String BACKSLASH "n"
  else if n =? 13 then String BACKSLASH "r"
  else if n =? 9 then String BACKSLASH "t"
  else if n =? 8 then String BACKSLASH "b"
  else if n =? 12 then String BACKSLASH "f"
  else if (32 <=? n) && (n <=? 126) then String c ""
  else String BACKSLASH
         ("u00" +:+ String (hex_digit (n / 16)) (String (hex_digit (n mod 16)) "")).

Fixpoint escape (s : string) : string :=
  match s with
  | "" => ""
  | String c rest => escape_char c +:+ escape rest
  end.

Definition encode_string (s : string) : string :=
  String DQUOTE (escape s) +:+ String DQUOTE "".

Definition str_of_Z (z : Z) : string := NilZero.string_of_int (Z.to_int z).

Fixpoint dumps (v : json) : string :=
  match v with
  | JNull => "null"
  | JBool true => "true"
  | JBool false => "false"
  | JInt z => str_of_Z z
  | JFloat lexeme => lexeme
  | JStr s => encode_string s
  | JArr items => "[" +:+ join ", " (List.map dumps items) +:+ "]"
  | JObj fields =>
      "{" +:+ join ", " (List.map (fun kv => encode_string kv.1 +:+ ": " +:+ dumps kv.2) fields)
          +:+ "}"
  end.

(** ** Regular expressions: the fragment of [re] the extractor uses

    Literals, starred character classes (greedy or lazy), optional parts,
    ordered alternatives, sequences and one capture group, matched by
    backtracking in Python's order.  All patterns are used with [DOTALL],
    so the dot is [any_char]. *)
Inductive regex : Type :=
| Lit (text : string)
| Star (greedy : bool) (cls : ascii -> bool)
| Opt (r : regex)
| Alt (r1 r2 : regex)
| Seq (r1 r2 : regex)
| Group (r : regex).

Definition any_char (_ : ascii) : bool := true.
Definition not_brace (c : ascii) : bool :=
  negb (Ascii.eqb c "{" || Ascii.eqb c "}").

Fixpoint seq_of (rs : list regex) : regex :=
  match rs with
  | [] => Lit ""
  | [r] => r
  | r :: rest => Seq r (seq_of rest)
  end.

Section Matcher.
Context {X : Type}.
Variable ignorecase : bool.

Definition same_char (a b : ascii) : bool :=
  if ignorecase then Ascii.eqb (lower_char a) (lower_char b) else Ascii.eqb a b.

Fixpoint lit_match (text s : string) : option string :=
  match text, s with
  | "", _ => Some s
  | String a text', String b s' => if same_char a b then lit_match text' s' else None
  | String _ _, "" => None
  end.

(** Greedy star: as many characters as possible first, then fewer. *)
Fixpoint star_greedy (cls : ascii -> bool) (s : string) (k : string -> option X)
    : option X :=
  match s with
  | String c rest =>
      if cls c then
        match star_greedy cls rest k with
        | Some x => Some x
        | None => k s
        end
      else k s
  | "" => k ""
  end.

(** Lazy star: as few characters as possible first, then more. *)
Fixpoint star_lazy (cls : ascii -> bool) (s : string) (k : string -> option X)
    : option X :=
  match k s with
  | Some x => Some x
  | None =>
      match s with
      | String c rest => if cls c then star_lazy cls rest k else None
      | "" => None
      end
  end.

(** [run r s cap k]: match [r] at the front of [s], then continue with [k]
    on the rest of the input and the text captured so far. *)
Fixpoint run (r : regex) (s : string) (cap : option string)
    (k : string -> option string -> option X) : option X :=
  match r with
  | Lit text =>
      match lit_match text s with
      | Some s' => k s' cap
      | None => None
      end
  | Star true cls => star_greedy cls s (fun s' => k s' cap)
  | Star false cls => star_lazy cls s (fun s' => k s' cap)
  | Opt r' =>
      match run r' s cap k with
      | Some x => Some x
      | None => k s cap
      end
  | Alt r1 r2 =>
      match run r1 s cap k with
      | Some x => Some x
      | None => run r2 s cap k
      end
  | Seq r1 r2 => run r1 s cap (fun s' cap' => run r2 s' cap' k)
  | Group r' =>
      run r' s cap
          (fun s' _ => k s' (Some (str_take (String.length s - String.length s') s)))
  end.
End Matcher.

(** A match at the front of [s]: group 1 and the input after the match. *)
Definition match_at (ignorecase : bool) (r : regex) (s : string)
    : option (string * string) :=
  run ignorecase r s None (fun rest cap => Some (default "" cap, rest)).

(** [re.search]: the leftmost match. *)
Fixpoint re_search (ignorecase : bool) (r : regex) (s : string)
    : option (string * string) :=
  match match_at ignorecase r s with
  | Some m => Some m
  | None =>
      match s with
      | String _ rest => re_search ignorecase r rest
      | "" => None
      end
  end.

(** [re.findall] for a pattern with one group that cannot match the empty
    string: group 1 of the successive matches, each search starting where
    the previous match ended. *)
Fixpoint re_findall (fuel : nat) (r : regex) (s : string) : list string :=
  match fuel with
  | 0 => []
  | S fuel =>
      match re_search false r s with
      | Some (g, rest) => g :: re_findall fuel r rest
      | None => []
      end
  end.

(** ** JSONExtractor (json_response_parser.py) *)

Fixpoint find_comment (in_string escape_next : bool) (i : nat) (line : string)
    : option nat :=
  match line with
  | "" => None
  | String char rest =>
      if escape_next then find_comment in_string false (S i) rest
      else if Ascii.eqb char BACKSLASH then find_comment in_string true (S i) rest
      else if Ascii.eqb char DQUOTE then find_comment (negb in_string) false (S i) rest
      else if negb in_string && Ascii.eqb char "/" && startswith "/" rest then Some i
      else find_comment in_string false (S i) rest
  end.

Definition clean_json_comments (json_str : string) : string :=
  let lines := split (String LF "") json_str in
  let cleaned_lines :=
    List.filter (fun line => negb (String.eqb (strip line) ""))
      ((fun line =>
          match find_comment false false 0 line with
          | Some comment_pos => rstrip (str_take comment_pos line)
          | None => line
          end) <$> lines) in
  join (String LF "") cleaned_lines.

(** [json.loads(text)], and on failure [json.loads(clean_json_comments(text))]. *)
Definition loads_or_cleaned (text : string) : option json :=
  match json_loads text with
  | Some v => Some v
  | None => json_loads (clean_json_comments text)
  end.

(** The patterns, in the order of the source. *)
Definition multiple_claims_pattern : regex :=
  Group (seq_of [Lit (dq "{'claims':"); Star true is_space; Lit "[";
                 Star false any_char; Lit "]"; Star true is_space; Lit "}"]).

Definition markdown_pattern : regex :=
  seq_of [Lit "```"; Opt (Lit "json"); Star true is_space;
          Group (seq_of [Lit "{"; Star false any_char; Lit "}"]);
          Star true is_space; Lit "```"].

Definition think_pattern : regex :=
  seq_of [Lit "</think>"; Star true is_space;
          Group (seq_of [Lit "{"; Star true any_char; Lit "}"])].

Definition taxonomy_pattern : regex :=
  Group (seq_of [Lit (dq "{'taxonomy'"); Star false any_char; Lit "}";
                 Star true is_space; Opt (Lit "]"); Star true is_space; Lit "}"]).

Definition partial_taxonomy_pattern : regex :=
  Group (seq_of [Lit "{"; Star true not_brace; Lit (dq "'taxonomy'");
                 Star true not_brace; Lit "["; Star false any_char; Lit "]";
                 Star true is_space; Lit "}"]).

Definition text_json_pattern : regex :=
  seq_of [Alt (Lit "output") (Alt (Lit "result") (Alt (Lit "JSON")
            (Alt (Lit "taxonomy") (Lit "claims"))));
          Lit ":"; Star true is_space;
          Group (seq_of [Lit "{"; Star false any_char; Lit "}"])].

(** The [claims] list of a decoded object, when it has one. *)
Definition claims_list (obj : json) : option (list json) :=
  match obj with
  | JObj fields =>
      match dict_get "claims" fields with
      | Some (JArr items) => Some items
      | _ => None
      end
  | _ => None
  end.

Definition extract_multiple_json_objects (content : string) : option json :=
  let matches := re_findall (S (String.length content)) multiple_claims_pattern content in
  if 1 <? length matches then
    let all_claims :=
      concat ((fun m => match json_loads (strip m) with
                        | Some obj => default [] (claims_list obj)
                        | None => []
                        end) <$> matches) in
    match all_claims with
    | [] => None
    | _ => Some (JObj [("claims", JArr all_claims)])
    end
  else None.

Definition extract_json_from_markdown (content : string) : option json :=
  match re_search false markdown_pattern content with
  | Some (g, _) => loads_or_cleaned (strip g)
  | None => None
  end.

Definition extract_json_after_think_tags (content : string) : option json :=
  match re_search false think_pattern content with
  | Some (g, _) => loads_or_cleaned (strip g)
  | None => None
  end.

Fixpoint endswith_brace (s : string) : bool :=
  match s with
  | "" => false
  | String c "" => Ascii.eqb c "}"
  | String _ rest => endswith_brace rest
  end.

Definition extract_json_by_pattern (content : string) (pattern : regex)
    (field_name : option string) : option json :=
  match re_search false pattern content with
  | Some (g, _) =>
      let json_content := strip g in
      let json_content :=
        if bool_decide (field_name = Some "taxonomy") && negb (endswith_brace json_content)
        then json_content +:+ "}" else json_content in
      loads_or_cleaned json_content
  | None => None
  end.

Definition extract_json_after_text (content : string) : option json :=
  match re_search true text_json_pattern content with
  | Some (g, _) => json_loads (strip g)
  | None => None
  end.

(** [s.find(sub)] and, for one character, [s.rfind(c)]. *)
Fixpoint find_from (i : nat) (sub s : string) : option nat :=
  if startswith sub s then Some i
  else match s with
       | String _ rest => find_from (S i) sub rest
       | "" => None
       end.

Definition find (sub s : string) : option nat := find_from 0 sub s.

Fixpoint rfind_char_from (i : nat) (c : ascii) (s : string) (last : option nat)
    : option nat :=
  match s with
  | "" => last
  | String d rest =>
      rfind_char_from (S i) c rest (if Ascii.eqb c d then Some i else last)
  end.

(** The index, in [s], of the closing brace that brings the brace count
    back to zero. *)
Fixpoint closing_brace (brace_count : Z) (i : nat) (s : string) : option nat :=
  match s with
  | "" => None
  | String char rest =>
      if Ascii.eqb char "{" then closing_brace (brace_count + 1) (S i) rest
      else if Ascii.eqb char "}" then
        if (brace_count - 1 =? 0)%Z then Some i
        else closing_brace (brace_count - 1) (S i) rest
      else closing_brace brace_count (S i) rest
  end.

(** The [while] loop of [repair_malformed_json]: the decoded objects that
    have a [claims] key. *)
Fixpoint split_claims_objects (fuel : nat) (temp_content : string) : list json :=
  match fuel with
  | 0 => []
  | S fuel =>
      match find (dq "{'claims'") temp_content with
      | None => []
      | Some start =>
          match closing_brace 0 0 (str_drop start temp_content) with
          | Some i =>
              if 0 <? i then
                let obj_str := str_take (i + 1) (str_drop start temp_content) in
                let found :=
                  match json_loads obj_str with
                  | Some (JObj fields) =>
                      if dict_has "claims" fields then [JObj fields] else []
                  | _ => []
                  end in
                found ++ split_claims_objects fuel (str_drop (start + i + 1) temp_content)
              else []
          | None => []
          end
      end
  end.

Definition repair_malformed_json (content : string) : option json :=
  match find "{" content, rfind_char_from 0 "}" content None with
  | Some start_idx, Some end_idx =>
      if end_idx <=? start_idx then None
      else
        let json_content := str_take (end_idx + 1 - start_idx) (str_drop start_idx content) in
        let merged :=
          if 1 <? length (split (dq "{'claims'") json_content) - 1 then
            let objects := split_claims_objects (S (String.length json_content)) json_content in
            match concat ((fun obj => default [] (claims_list obj)) <$> objects) with
            | [] => None
            | all_claims => Some (JObj [("claims", JArr all_claims)])
            end
          else None in
        match merged with
        | Some v => Some v
        | None => loads_or_cleaned json_content
        end
  | _, _ => None
  end.

(** [if result: return result] over the strategies in order. *)
Fixpoint first_truthy (strategies : list (string -> option json)) (content : string)
    : option json :=
  match strategies with
  | [] => None
  | strategy :: rest =>
      match strategy content with
      | Some v => if truthy v then Some v else first_truthy rest content
      | None => first_truthy rest content
      end
  end.

Definition extract_json_from_response (content : string) : result json :=
  if String.eqb content "" then Raise ValueError
  else
    let content := strip content in
    match loads_or_cleaned content with
    | Some v => Ok v
    | None =>
        first_truthy
          [ extract_json_from_markdown;
            extract_json_after_think_tags;
            extract_multiple_json_objects;
            (fun c => extract_json_by_pattern c taxonomy_pattern (Some "taxonomy"));
            (fun c => extract_json_by_pattern c partial_taxonomy_pattern None);
            (fun c => extract_json_by_pattern c multiple_claims_pattern None);
            extract_json_after_text;
            repair_malformed_json ] content
        ?! ValueError
    end.

(** The text of the round-trip law:
    [toJSON({"claims": A}) + " " + toJSON({"claims": B})]. *)
Definition claims_object (claims : list json) : json :=
  JObj [("claims", JArr claims)].

Definition concatenated (A B : list json) : string :=
  dumps (claims_object A) +:+ " " +:+ dumps (claims_object B).

(** ** Stage 1: taxonomy normalization (main.py, [comments_to_tree]) *)

Definition default_subtopic (topic_name : string) : json :=
  JObj [("subtopicName", JStr ("General " +:+ topic_name));
        ("subtopicShortDescription", JStr ("General aspects of " +:+ lower topic_name))].

(** The body of [for topic in tree["taxonomy"]].  [topic_name.lower()] on
    a topic name that is not a string raises [AttributeError]. *)
Definition normalize_topic (topic : json) : result json :=
  match topic with
  | JObj fields =>
      match dict_get "subtopics" fields with
      | Some (JArr _) => Ok topic
      | _ =>
          match default (JStr "Unknown Topic") (dict_get "topicName" fields) with
          | JStr topic_name =>
              Ok (JObj (dict_set "subtopics" (JArr [default_subtopic topic_name]) fields))
          | _ => Raise AttributeError
          end
      end
  | _ => Ok topic
  end.

(** The [try] block: extraction and normalization of the response text.
    A response without content fails at [content[:500]]. *)
Definition normalized_tree (content : option string) : result (list (string * json)) :=
  content ← content ?! TypeError;
  tree ← extract_json_from_response content;
  let tree := match tree with
              | JObj fields => fields
              | _ => [("taxonomy", JArr [])]
              end in
  let tree := if dict_has "taxonomy" tree then tree
              else dict_set "taxonomy" (JArr []) tree in
  let tree := match dict_get "taxonomy" tree with
              | Some (JArr _) => tree
              | _ => dict_set "taxonomy" (JArr []) tree
              end in
  match dict_get "taxonomy" tree with
  | Some (JArr topics) =>
      topics' ← comprehension normalize_topic topics;
      Ok (dict_set "taxonomy" (JArr topics') tree)
  | _ => Ok tree
  end.

(** The [data] field of the response of POST /topic_tree:
    [tree.get("taxonomy", [])], with [tree = {}] after any exception. *)
Definition comments_to_tree (content : option string) : json :=
  match normalized_tree content with
  | Ok tree => default (JArr []) (dict_get "taxonomy" tree)
  | Raise _ => JArr []
  end.

(** The [subtopics] of a returned topic, when it has that key and it holds
    a list. *)
Definition subtopics_of (topic : json) : option (list json) :=
  match topic with
  | JObj fields =>
      match dict_get "subtopics" fields with
      | Some (JArr subtopics) => Some subtopics
      | _ => None
      end
  | _ => None
  end.

(** ** Stage 2: claim placement (main.py, [all_comments_to_claims]) *)

Record Subtopic : Type := mkSubtopic {
  subtopicName : string;
  subtopicShortDescription : string
}.

Record Topic : Type := mkTopic {
  topicName : string;
  topicShortDescription : string;
  subtopics : option (list Subtopic)       (* [None]: no "subtopics" key *)
}.

(** A claim of [comms_to_claims]: what the LLM extracted, with [commentId]
    and [speaker] added.  The LLM may leave out the two names. *)
Record Claim : Type := mkClaim {
  claim : string;
  quote : string;
  claim_topicName : option string;
  claim_subtopicName : option string;
  commentId : string;
  speaker : string
}.

Record SubtopicBucket : Type := mkSubtopicBucket {
  total : nat;
  claims : list Claim;
  speakers : gset string
}.

Record TopicBucket : Type := mkTopicBucket {
  topic_total : nat;
  topic_speakers : gset string;
  topic_subtopics : gmap string SubtopicBucket
}.

Definition empty_bucket : SubtopicBucket := mkSubtopicBucket 0 [] ∅.

(** The body of [for claim in comms_to_claims]; [taxonomy] is
    [req.tree["taxonomy"]], [None] when the key is absent. *)
Definition place_claim (taxonomy : option (list Topic))
    (node_counts : gmap string TopicBucket) (c : Claim)
    : result (gmap string TopicBucket) :=
  let assigned :=
    match claim_topicName c with
    | Some _ => Some c
    | None =>
        match taxonomy with
        | Some (first :: _) =>
            Some (mkClaim (claim c) (quote c) (Some (topicName first))
                    (Some (match subtopics first with
                           | Some (sub :: _) => subtopicName sub
                           | _ => "General"
                           end))
                    (commentId c) (speaker c))
        | _ => None
        end
    end in
  match assigned with
  | None => Ok node_counts
  | Some c =>
      let topic := default "" (claim_topicName c) in
      match node_counts !! topic with
      | Some bucket =>
          let subs :=
            match claim_subtopicName c with
            | Some sub =>
                match topic_subtopics bucket !! sub with
                | Some sb =>
                    <[sub := mkSubtopicBucket (total sb + 1) (claims sb ++ [c])
                                              ({[speaker c]} ∪ speakers sb)]>
                      (topic_subtopics bucket)
                | None =>
                    <[sub := mkSubtopicBucket 1 [c] {[speaker c]}]> (topic_subtopics bucket)
                end
            | None => topic_subtopics bucket
            end in
          Ok (<[topic := mkTopicBucket (topic_total bucket + 1)
                                       ({[speaker c]} ∪ topic_speakers bucket) subs]>
                node_counts)
      | None =>
          sub ← claim_subtopicName c ?! KeyError;
          Ok (<[topic := mkTopicBucket 1 {[speaker c]}
                           {[sub := mkSubtopicBucket 1 [c] {[speaker c]}]}]>
                node_counts)
      end
  end.

Fixpoint place_claims (taxonomy : option (list Topic))
    (node_counts : gmap string TopicBucket) (comms_to_claims : list Claim)
    : result (gmap string TopicBucket) :=
  match comms_to_claims with
  | [] => Ok node_counts
  | c :: rest =>
      node_counts' ← place_claim taxonomy node_counts c;
      place_claims taxonomy node_counts' rest
  end.

(** The body of [for subtopic in topic["subtopics"]] in the check for empty
    topics and subtopics. *)
Definition cover_subtopic (topic : string) (node_counts : gmap string TopicBucket)
    (subtopic : string) : gmap string TopicBucket :=
  match node_counts !! topic with
  | Some bucket =>
      match topic_subtopics bucket !! subtopic with
      | None =>
          <[topic := mkTopicBucket (topic_total bucket) (topic_speakers bucket)
                       (<[subtopic := empty_bucket]> (topic_subtopics bucket))]>
            node_counts
      | Some _ => node_counts
      end
  | None =>
      <[topic := mkTopicBucket 0 ∅ {["None" := empty_bucket]}]> node_counts
  end.

Definition cover_topic (node_counts : gmap string TopicBucket) (topic : Topic)
    : gmap string TopicBucket :=
  match subtopics topic with
  | Some subs =>
      fold_left (cover_subtopic (topicName topic)) (subtopicName <$> subs) node_counts
  | None => node_counts
  end.

(** [all_comments_to_claims] from the point where the per-comment LLM
    answers have been collected in [comms_to_claims]: the [data] returned. *)
Definition all_comments_to_claims (taxonomy : option (list Topic))
    (comms_to_claims : list Claim) : result (gmap string TopicBucket) :=
  node_counts ← place_claims taxonomy ∅ comms_to_claims;
  topics ← taxonomy ?! KeyError;
  Ok (fold_left cover_topic topics node_counts).

(** Tree coverage as the specification states it: every topic of the
    taxonomy is a key of the tree and every one of its subtopics has a
    bucket there. *)
Definition tree_coverage (taxonomy : list Topic) (tree : gmap string TopicBucket)
    : Prop :=
  forall topic, topic ∈ taxonomy ->
    exists bucket, tree !! topicName topic = Some bucket /\
      forall sub, sub ∈ default [] (subtopics topic) ->
        is_Some (topic_subtopics bucket !! subtopicName sub).

(** The (topic, subtopic) pairs of the taxonomy in the order the two loops
    visit them, and the loop body on a pair. *)
Definition taxonomy_pairs (taxonomy : list Topic) : list (string * string) :=
  taxonomy ≫= fun topic =>
    (fun sub => (topicName topic, subtopicName sub)) <$> default [] (subtopics topic).

Definition cover_pair (node_counts : gmap string TopicBucket) (p : string * string)
    : gmap string TopicBucket :=
  cover_subtopic p.1 node_counts p.2.

(** [tree'] keeps every topic of [tree] and every bucket of its topics. *)
Definition extends (tree tree' : gmap string TopicBucket) : Prop :=
  forall topic bucket, tree !! topic = Some bucket ->
    exists bucket', tree' !! topic = Some bucket' /\
      topic_subtopics bucket ⊆ topic_subtopics bucket'.

(** [tree'] has, under the topics of [tree], no bucket but those of [tree]
    and empty ones. *)
Definition pads (tree tree' : gmap string TopicBucket) : Prop :=
  forall topic bucket bucket' sub sb,
    tree !! topic = Some bucket -> tree' !! topic = Some bucket' ->
    topic_subtopics bucket' !! sub = Some sb ->
    topic_subtopics bucket !! sub = Some sb \/ sb = empty_bucket.

(** ** Stage 3: deduplication (main.py, [dedup_claims]) *)

(** A claim is the dictionary Stage 2 produced for it. *)
Abbreviation claim_dict := (list (string * json)).

(** The chat completion: [None] when the client raises, [Some None] for a
    response without content, [Some (Some text)] otherwise. *)
Definition LLM : Type := string -> option (option string).

(** [int(s)] on text of the modelled characters: surrounding whitespace,
    an optional sign, digits with single underscores between them. *)
Fixpoint int_body (after_digit : bool) (s : string) (acc : Z) : option Z :=
  match s with
  | "" => if after_digit then Some acc else None
  | String c rest =>
      if is_digit c then int_body true rest (10 * acc + digit_value c)%Z
      else if Ascii.eqb c "_" && after_digit then
        match rest with
        | String d _ => if is_digit d then int_body false rest acc else None
        | "" => None
        end
      else None
  end.

Definition py_int (s : string) : option Z :=
  match strip s with
  | String "-" body => Z.opp <$> int_body false body 0%Z
  | String "+" body => int_body false body 0%Z
  | body => int_body false body 0%Z
  end.

(** [int(claim_key.split("Id")[1])] *)
Definition parse_claim_key (claim_key : string) : result Z :=
  part ← (split "Id" claim_key !! 1) ?! IndexError;
  py_int part ?! ValueError.

(** The prompt listing the claims with their relative ids. *)
Definition dedup_prompt (user_prompt : string) (claims : list claim_dict)
    : result string :=
  for_enumerate
    (fun i orig_claim full_prompt =>
       match dict_get "claim" orig_claim with
       | Some (JStr text) =>
           Ok (full_prompt +:+ String LF "claimId" +:+ str_of_nat i +:+ ": " +:+ text)
       | Some _ => Raise TypeError
       | None => Raise KeyError
       end)
    0 claims user_prompt.

Definition empty_nesting : claim_dict := [("nesting", JObj [])].

(** [dedup_claims(...)["dedup_claims"]]: the call raises when the prompt
    cannot be built or the client raises; anything wrong with the response
    gives the empty nesting. *)
Definition dedup_claims (llm : LLM) (user_prompt : string) (claims : list claim_dict)
    : result claim_dict :=
  full_prompt ← dedup_prompt user_prompt claims;
  content ← llm full_prompt ?! APIError;
  Ok (match content ← content ?! TypeError; extract_json_from_response content with
      | Ok (JObj deduped_claims_obj) => deduped_claims_obj
      | _ => empty_nesting
      end).

(** ** Stage 3: closing the nesting (main.py, [sort_claims_tree]) *)

(** [len(v)], iteration over [v], and [v.split] for a decoded value. *)
Definition py_len (v : json) : result nat :=
  match v with
  | JStr s => Ok (String.length s)
  | JArr items => Ok (length items)
  | JObj fields => Ok (length fields)
  | _ => Raise TypeError
  end.

Definition py_iter (v : json) : list json :=
  match v with
  | JArr items => items
  | JObj fields => JStr <$> fields.*1
  | JStr s => (fun c => JStr (String c "")) <$> list_ascii_of_string s
  | _ => []
  end.

Definition as_str (v : json) : result string :=
  match v with
  | JStr s => Ok s
  | _ => Raise AttributeError
  end.

(** [[d for i, d in enumerate(all_dupes) if i != curr_id]] *)
Definition others (curr_id : nat) (all_dupes : list Z) : list Z :=
  take curr_id all_dupes ++ drop (S curr_id) all_dupes.

(** [for other_id in other_ids: if other_id not in known: known.append(other_id)] *)
Definition append_missing (known other_ids : list Z) : list Z :=
  fold_left (fun known other_id =>
               if bool_decide (other_id ∈ known) then known else known ++ [other_id])
            other_ids known.

Fixpoint close_from (curr_id : nat) (rest all_dupes : list Z)
    (claim_set : gmap Z (list Z)) : gmap Z (list Z) :=
  match rest with
  | [] => claim_set
  | dupe :: rest' =>
      let other_ids := others curr_id all_dupes in
      close_from (S curr_id) rest' all_dupes
        (match claim_set !! dupe with
         | Some known => <[dupe := append_missing known other_ids]> claim_set
         | None => <[dupe := other_ids]> claim_set
         end)
  end.

(** The body of [for claim_key, claim_vals in deduped["nesting"].items()]. *)
Definition nesting_entry (claim_set : gmap Z (list Z)) (entry : string * json)
    : result (gmap Z (list Z)) :=
  n ← py_len entry.2;
  if 0 <? n then
    claim_id ← parse_claim_key entry.1;
    dupe_ids ← comprehension (fun v => key ← as_str v; parse_claim_key key)
                             (py_iter entry.2);
    let all_dupes := claim_id :: dupe_ids in
    Ok (close_from 0 all_dupes all_dupes claim_set)
  else Ok claim_set.

Definition build_claim_set (deduped : claim_dict) : result (gmap Z (list Z)) :=
  match dict_get "nesting" deduped with
  | None => Ok ∅
  | Some (JObj nesting) => for_each nesting_entry nesting ∅
  | Some _ => Raise AttributeError
  end.

(** ** Stage 3: folding duplicates (main.py, [sort_claims_tree]) *)

(** Sets of speakers.  Only [None], booleans, numbers and strings can be
    set elements; numbers are compared by value. *)
Definition num_value (v : json) : option Q :=
  match v with
  | JBool b => Some (if b then 1%Q else 0%Q)
  | JInt z => Some (inject_Z z)
  | JFloat lexeme => float_value lexeme
  | _ => None
  end.

Definition key_eqb (a b : json) : bool :=
  match a, b with
  | JNull, JNull => true
  | JStr s, JStr t => String.eqb s t
  | _, _ =>
      match num_value a, num_value b with
      | Some x, Some y => Qeq_bool x y
      | _, _ => false
      end
  end.

Definition set_union (s : list json) (vs : list json) : list json :=
  fold_left (fun s v => if existsb (key_eqb v) s then s else s ++ [v]) vs s.

Definition set_add (v : json) (s : list json) : result (list json) :=
  match v with
  | JArr _ | JObj _ => Raise TypeError
  | _ => Ok (set_union s [v])
  end.

Definition claim_speaker (claim : claim_dict) : json :=
  default (JStr "unknown") (dict_get "speaker" claim).

(** The search [for claim_item in subtopic_data["claims"]: if
    claim_item.get("claimId") == dupe_id: ...; break]. *)
Definition find_by_claimId (claims : list claim_dict) (dupe_id : Z)
    : option claim_dict :=
  List.find (fun claim_item => eq_int (dict_get "claimId" claim_item) dupe_id) claims.

(** The body of [for dupe_id in dupe_ids], on the duplicates collected so
    far and the ids accounted for. *)
Definition collect_duplicate (claims : list claim_dict)
    (st : list claim_dict * gset Z) (dupe_id : Z) : list claim_dict * gset Z :=
  if bool_decide (dupe_id ∈ st.2) then st
  else
    (match find_by_claimId claims dupe_id with
     | Some dupe_claim =>
         if truthy (JObj dupe_claim)
         then st.1 ++ [dict_set "duplicated" (JBool true) dupe_claim]
         else st.1
     | None => st.1
     end,
     {[dupe_id]} ∪ st.2).

Record FoldState : Type := mkFoldState {
  accounted_for_ids : gset Z;
  deduped_claims : list claim_dict;
  per_topic_speakers : list json
}.

(** The body of [for claim_id, claim in enumerate(subtopic_data["claims"])]. *)
Definition fold_claim (claims : list claim_dict) (claim_set : gmap Z (list Z))
    (claim_id : nat) (claim : claim_dict) (st : FoldState) : result FoldState :=
  speakers ← set_add (claim_speaker claim) (per_topic_speakers st);
  if bool_decide (Z.of_nat claim_id ∈ accounted_for_ids st) then
    Ok (mkFoldState (accounted_for_ids st) (deduped_claims st) speakers)
  else
    let '(duplicates, accounted) :=
      match claim_set !! Z.of_nat claim_id with
      | Some dupe_ids =>
          fold_left (collect_duplicate claims) dupe_ids ([], accounted_for_ids st)
      | None => ([], accounted_for_ids st)
      end in
    let clean_claim := dict_set "duplicates" (JArr (JObj <$> duplicates)) claim in
    Ok (mkFoldState ({[Z.of_nat claim_id]} ∪ accounted)
                    (deduped_claims st ++ [clean_claim]) speakers).

(** [len(x["duplicates"])] *)
Definition num_duplicates (x : claim_dict) : nat :=
  match dict_get "duplicates" x with
  | Some (JArr duplicates) => length duplicates
  | _ => 0
  end.

(** [sorted(l, key=key, reverse=True)]: stable, descending. *)
Fixpoint insert_by {A} (key : A -> Z) (x : A) (l : list A) : list A :=
  match l with
  | [] => [x]
  | y :: rest => if (key x <? key y)%Z then y :: insert_by key x rest else x :: l
  end.

Definition sorted_reverse {A} (key : A -> Z) (l : list A) : list A :=
  foldr (insert_by key) [] l.

(** ** Stage 3: the sorted tree (main.py, [sort_claims_tree]) *)

(** The fields of the input tree the function reads. *)
Record SubtopicData : Type := mkSubtopicData {
  data_total : Z;                           (* subtopic_data["total"] *)
  data_claims : list claim_dict             (* subtopic_data["claims"] *)
}.

Record SubtopicRecord : Type := mkSubtopicRecord {
  record_claims : list claim_dict;
  record_speakers : list json;
  counts_claims : Z;
  counts_speakers : nat
}.

Record TopicRecord : Type := mkTopicRecord {
  topics : list (string * SubtopicRecord);
  topic_record_speakers : list json;
  topic_counts_claims : Z;
  topic_counts_speakers : nat
}.

(** One subtopic: [None] when [dedup_claims] raised and the subtopic is
    skipped by [continue]; otherwise its record.  [claim_bound] tells
    whether the local variable [claim] has been assigned by an earlier loop
    over claims; it is returned updated. *)
Definition sort_subtopic (llm : LLM) (user_prompt : string) (claim_bound : bool)
    (subtopic_data : SubtopicData) : result (option SubtopicRecord * bool) :=
  let claims := data_claims subtopic_data in
  if (1 <? data_total subtopic_data)%Z then
    match dedup_claims llm user_prompt claims with
    | Raise _ => Ok (None, claim_bound)
    | Ok deduped =>
        claim_set ← build_claim_set deduped;
        st ← for_enumerate (fold_claim claims claim_set) 0 claims (mkFoldState ∅ [] []);
        let sorted_deduped_claims :=
          sorted_reverse (fun x => Z.of_nat (num_duplicates x)) (deduped_claims st) in
        Ok (Some (mkSubtopicRecord sorted_deduped_claims (per_topic_speakers st)
                    (data_total subtopic_data) (length (per_topic_speakers st))),
            claim_bound || match claims with [] => false | _ => true end)
    end
  else
    speakers ←
      match claims with
      | first :: _ =>
          if dict_has "speaker" first then set_add (claim_speaker first) []
          else if claim_bound then Ok [JStr "unknown"]
          else Raise UnboundLocalError
      | [] => Ok []
      end;
    Ok (Some (mkSubtopicRecord claims speakers (data_total subtopic_data) (length speakers)),
        claim_bound).

(** The sort key chosen by [req.sort]; no key for any other value. *)
Definition subtopic_key (sort : string) : option (string * SubtopicRecord -> Z) :=
  if String.eqb sort "numPeople" then Some (fun x => Z.of_nat (counts_speakers x.2))
  else if String.eqb sort "numClaims" then Some (fun x => counts_claims x.2)
  else None.

Definition topic_key (sort : string) : option (string * TopicRecord -> Z) :=
  if String.eqb sort "numPeople" then Some (fun x => Z.of_nat (topic_counts_speakers x.2))
  else if String.eqb sort "numClaims" then Some (fun x => topic_counts_claims x.2)
  else None.

(** The body of [for topic, topic_data in claims_tree.items()]: with a
    [sort] that is neither value, [sorted_subtopics] is read unassigned. *)
Definition sort_topic (llm : LLM) (user_prompt sort : string)
    (st : list (string * TopicRecord) * bool)
    (topic : string * list (string * SubtopicData))
    : result (list (string * TopicRecord) * bool) :=
  '(per_topic_total, per_topic_list, claim_bound) ←
    for_each
      (fun '(per_topic_total, per_topic_list, claim_bound) subtopic =>
         '(record, claim_bound') ← sort_subtopic llm user_prompt claim_bound subtopic.2;
         Ok ((per_topic_total + data_total subtopic.2)%Z,
             match record with
             | Some r => dict_set subtopic.1 r per_topic_list
             | None => per_topic_list
             end,
             claim_bound'))
      topic.2 (0%Z, [], st.2);
  let set_topic_speakers :=
    fold_left (fun s c => set_union s (record_speakers c.2)) per_topic_list [] in
  key ← subtopic_key sort ?! UnboundLocalError;
  let sorted_subtopics := sorted_reverse key per_topic_list in
  Ok (dict_set topic.1
        (mkTopicRecord sorted_subtopics set_topic_speakers per_topic_total
                       (length set_topic_speakers))
        st.1,
      claim_bound).

(** The [data] of PUT /sort_claims_tree/.  [claims_tree] gives, for every
    topic, the items of [topic_data["subtopics"]]. *)
Definition sort_claims_tree (llm : LLM) (user_prompt sort : string)
    (claims_tree : list (string * list (string * SubtopicData)))
    : result (list (string * TopicRecord)) :=
  '(sorted_tree, _) ← for_each (sort_topic llm user_prompt sort) claims_tree ([], false);
  key ← topic_key sort ?! UnboundLocalError;
  Ok (sorted_reverse key sorted_tree).

(** The status FastAPI answers with: 200 with the returned value, 500 for
    an exception that no handler catches.  The module registers no handler
    and raises no [HTTPException]. *)
Definition http_status {A} (r : result A) : nat :=
  match r with
  | Ok _ => 200
  | Raise _ => 500
  end.

(** The example of the docstring of [sort_claims_tree]: two claims with the
    same text under Pets / Cats, as Stage 2 produces them. *)
Definition cat_claim (quote_text : string) : claim_dict :=
  [("claim", JStr "Cats are the best pets."); ("quote", JStr quote_text);
   ("topicName", JStr "Pets"); ("subtopicName", JStr "Cats");
   ("commentId", JStr "c1"); ("speaker", JStr "Alice")].

Definition cats_tree : list (string * list (string * SubtopicData)) :=
  [("Pets", [("Cats", mkSubtopicData 2 [cat_claim "I love cats.";
                                       cat_claim "I really really love cats"])])].

(** An LLM that answers every prompt with the same text. *)
Definition answering (text : string) : LLM := fun _ => Some (Some text).

(** The count of the specification: one for every canonical claim plus
    the number of its duplicates. *)
Definition folded_count (r : SubtopicRecord) : Z :=
  fold_right (fun c n => (1 + Z.of_nat (num_duplicates c) + n)%Z) 0%Z (record_claims r).

(** ** Stage 4: controversy matrix (main.py, [controversy_matrix]) *)

(** A row of [cont_mat] is [[crux, s_0, ..., s_(m-1)]]: the crux text
    followed by one score per speaker.  Scores are the Python numbers
    [1], [0.5] and [0]; sums of halves are exact in binary floating point,
    so rationals model them faithfully. *)
Record ScoreRow : Type := mkScoreRow {
  crux_text : string;
  per_speaker_scores : list Q      (* row[1:] *)
}.

Abbreviation matrix := (list (list Q)).

(** [cm[a][b] += v]; indexing out of range raises [IndexError]. *)
Definition add_at (v : Q) (a b : nat) (cm : matrix) : result matrix :=
  row ← (cm !! a) ?! IndexError;
  x ← (row !! b) ?! IndexError;
  Ok (<[a := <[b := (x + v)%Q]> row]> cm).

(** The body of the innermost loop, for one [(other_index, other_score)]. *)
Definition compare_scores (claim_index : nat) (score : Q)
    (other_index : nat) (other_score : Q) (cm : matrix) : result matrix :=
  if negb (Qeq_bool score other_score) then
    if Qeq_bool score 0 || Qeq_bool other_score 0 then
      cm1 ← add_at (1 # 2) claim_index (claim_index + other_index + 1) cm;
      add_at (1 # 2) (claim_index + other_index + 1) claim_index cm1
    else
      cm1 ← add_at 1 claim_index (claim_index + other_index + 1) cm;
      add_at 1 (claim_index + other_index + 1) claim_index cm1
  else Ok cm.

(** The body of the loop over [per_speaker_scores]. *)
Definition compare_speaker (cont_mat : list ScoreRow) (claim_index : nat)
    (score_index : nat) (score : Q) (cm : matrix) : result matrix :=
  other_scores ←
    comprehension (fun item => (per_speaker_scores item !! score_index) ?! IndexError)
                  (drop (claim_index + 1) cont_mat);
  for_enumerate (compare_scores claim_index score) 0 other_scores cm.

Definition controversy_matrix (cont_mat : list ScoreRow) : result matrix :=
  let cm := replicate (length cont_mat) (replicate (length cont_mat) 0%Q) in
  for_enumerate
    (fun claim_index row cm =>
       for_enumerate (compare_speaker cont_mat claim_index) 0
                     (per_speaker_scores row) cm)
    0 cont_mat cm.

(** The entry the specification prescribes for a pair of crux rows: the
    per-speaker disagreement, summed over the speakers. *)
Definition spec_disagreement (a b : Q) : Q :=
  if Qeq_bool a b then 0%Q
  else if Qeq_bool a 0 || Qeq_bool b 0 then (1 # 2)%Q
  else 1%Q.

Fixpoint spec_pair_sum (ri rj : list Q) : Q :=
  match ri, rj with
  | a :: ri', b :: rj' => (spec_disagreement a b + spec_pair_sum ri' rj')%Q
  | _, _ => 0%Q
  end.

Definition spec_entry (ri rj : ScoreRow) : Q :=
  spec_pair_sum (per_speaker_scores ri) (per_speaker_scores rj).

(** Reading [cm[i][j]]. *)
Definition entry (cm : matrix) (i j : nat) : option Q :=
  row ← cm !! i; row !! j.

(** [cm[i][j]] as a number, and the shape of an [n] by [n] matrix. *)
Definition val (cm : matrix) (i j : nat) : Q := default 0%Q (entry cm i j).

Definition square (n : nat) (cm : matrix) : Prop :=
  length cm = n /\ Forall (fun row => length row = n) cm.

(** What the matrix looks like between iterations: square, symmetric and
    zero on the diagonal. *)
Definition balanced (n : nat) (cm : matrix) : Prop :=
  square n cm /\
  (forall i j, (val cm i j == val cm j i)%Q) /\
  (forall i, (val cm i i == 0)%Q).

(** ** Stage 4: top-K crux pairs (main.py, [top_k_cruxes]) *)

(** [math.ceil(math.sqrt(n))] for a list length [n].  [math.sqrt] is
    correctly rounded and a non-square [n] below [2^52] has a root further
    from every integer than the rounding error, so the floating-point
    ceiling is the integer one; beyond 81 the result only matters through
    [min(..., 10)]. *)
Definition ceil_sqrt (n : nat) : nat :=
  let r := Nat.sqrt n in
  if r * r =? n then r else S r.

(** [l[:K]] for a Python integer [K]: a negative [K] counts from the end. *)
Definition slice_to {A} (K : Z) (l : list A) : list A :=
  if (0 <=? K)%Z then take (Z.to_nat K) l
  else take (length l - Z.to_nat (- K)) l.

(** [sorted(scores, key=lambda x: x[0], reverse=True)]: stable, descending
    by score. *)
Definition scored : Type := (Q * nat * nat)%type.
Definition score_of (t : scored) : Q := t.1.1.

Fixpoint insert_desc (t : scored) (l : list scored) : list scored :=
  match l with
  | [] => [t]
  | u :: rest =>
      if Qlt_le_dec (score_of t) (score_of u) then u :: insert_desc t rest
      else t :: u :: rest
  end.

Definition sorted_desc (l : list scored) : list scored :=
  foldr insert_desc [] l.

Record TopCrux : Type := mkTopCrux {
  score : Q;
  cruxA : string;
  cruxB : string
}.

(** The two [range] loops that collect [[cont_mat[x][y], x, y]] for
    [x < y]. *)
Definition upper_triangle_scores (cont_mat : matrix) : result (list scored) :=
  rows ← comprehension
            (fun x => comprehension
                        (fun y => s ← entry cont_mat x y ?! IndexError; Ok (s, x, y))
                        (seq (x + 1) (length cont_mat - (x + 1))))
            (seq 0 (length cont_mat));
  Ok (concat rows).

Definition top_k_cruxes (cont_mat : matrix) (cruxes : list string) (top_k : Z)
    : result (list TopCrux) :=
  let K := if (top_k =? 0)%Z then Z.min (Z.of_nat (ceil_sqrt (length cruxes))) 10
           else top_k in
  scores ← upper_triangle_scores cont_mat;
  let all_scored_cruxes := sorted_desc scores in
  comprehension
    (fun '(s, x, y) =>
       a ← (cruxes !! x) ?! IndexError;
       b ← (cruxes !! y) ?! IndexError;
       Ok (mkTopCrux s a b))
    (slice_to K all_scored_cruxes).

(** Descending order of the returned scores, and what it is for a returned
    entry to be the upper-triangle cell [(i, j)] of the matrix. *)
Definition descending (l : list Q) : Prop :=
  Sorted (fun a b => (b <= a)%Q) l.

(** A scored triple [(s, x, y)] read from the upper triangle. *)
Definition triangle_cell (cont_mat : matrix) (t : scored) : Prop :=
  t.1.2 < t.2 < length cont_mat /\ entry cont_mat t.1.2 t.2 = Some (score_of t).

Definition upper_cell (cont_mat : matrix) (cruxes : list string) (t : TopCrux) : Prop :=
  exists i j, i < j < length cont_mat /\
    entry cont_mat i j = Some (score t) /\
    cruxes !! i = Some (cruxA t) /\ cruxes !! j = Some (cruxB t).

(** ** Stage 4: speaker map (utils.py, [full_speaker_map]) *)

(** [sorted(set(speakers))]: strictly increasing in code-point order. *)
Fixpoint insert_speaker (s : string) (l : list string) : list string :=
  match l with
  | [] => [s]
  | t :: rest =>
      match String.compare s t with
      | Lt => s :: l
      | Eq => l
      | Gt => t :: insert_speaker s rest
      end
  end.

Definition sorted_speakers (speakers : list string) : list string :=
  foldr insert_speaker [] speakers.

(** The dictionary [speaker -> str(i)], as its items in insertion order.
    [speakers] lists [claim["speaker"]] over all claims of the tree. *)
Definition full_speaker_map (speakers : list string) : list (string * string) :=
  imap (fun i s => (s, str_of_nat i)) (sorted_speakers speakers).

(** [{v: k for k, v in speaker_map.items()}] *)
Definition ids_to_speakers (speaker_map : list (string * string)) : gmap string string :=
  fold_left (fun m kv => <[kv.2 := kv.1]> m) speaker_map ∅.

(** ** Stage 4: crux rows (main.py, [cruxes_from_tree]) *)

(** The crux dictionary accepted from the LLM answer for one subtopic. *)
Record Crux : Type := mkCrux {
  cruxClaim : string;
  agree : list string;
  disagree : list string;
  explanation : option string      (* a missing key gives "N/A" *)
}.

(** An element of [crux_claims], later an element of [cruxClaims]. *)
Record CruxRow : Type := mkCruxRow {
  row_cruxClaim : string;
  row_agree : list string;
  row_disagree : list string;
  row_explanation : string
}.

(** [[a.split(":")[0] for a in entries]] followed by
    [[a + ":" + ids_to_speakers[a] for a in ...]]. *)
Definition before_colon (a : string) : string := hd "" (split ":" a).

Definition named (ids : gmap string string) (entries : list string)
    : result (list string) :=
  let bare := before_colon <$> entries in
  comprehension (fun a => name ← (ids !! a) ?! KeyError; Ok (a +:+ ":" +:+ name)) bare.

Definition crux_row (speaker_map : list (string * string)) (crux : Crux)
    : result CruxRow :=
  let ids := ids_to_speakers speaker_map in
  named_agree ← named ids (agree crux);
  named_disagree ← named ids (disagree crux);
  Ok (mkCruxRow (cruxClaim crux) named_agree named_disagree
                (default "N/A" (explanation crux))).

(** The score row of one crux: 1 for a speaker listed in [agree], 0.5 for
    one listed in [disagree], 0 otherwise. *)
Definition claim_scores (speaker_map : list (string * string)) (row : CruxRow)
    : list Q :=
  (fun sl_id : string * string =>
     let labeled_speaker := sl_id.2 +:+ ":" +:+ sl_id.1 in
     if bool_decide (labeled_speaker ∈ row_agree row) then 1%Q
     else if bool_decide (labeled_speaker ∈ row_disagree row) then (1 # 2)%Q
     else 0%Q) <$> speaker_map.

Record CruxResponse : Type := mkCruxResponse {
  cruxClaims : list CruxRow;
  controversyMatrix : matrix;
  topCruxes : list TopCrux
}.

(** [cruxes_from_tree] from the point where the per-subtopic LLM answers
    have been accepted: [speakers] are the speakers of the claims of
    [crux_tree], [cruxes] the accepted crux dictionaries in generation
    order. *)
Definition cruxes_from_tree (speakers : list string) (cruxes : list Crux)
    (top_k : Z) : result CruxResponse :=
  let speaker_map := full_speaker_map speakers in
  crux_claims ← comprehension (crux_row speaker_map) cruxes;
  let cont_mat :=
    (fun row => mkScoreRow (row_cruxClaim row) (claim_scores speaker_map row))
      <$> crux_claims in
  full_controversy_matrix ← controversy_matrix cont_mat;
  let crux_claims_only := row_cruxClaim <$> crux_claims in
  top_cruxes ← top_k_cruxes full_controversy_matrix crux_claims_only top_k;
  Ok (mkCruxResponse crux_claims full_controversy_matrix top_cruxes).

(** The property of the specification's data model: the elements of
    [agree] and [disagree] are speaker ids and no id is on both sides. *)
Definition bare_speaker_ids (speaker_map : list (string * string)) (row : CruxRow)
    : Prop :=
  (forall a, a ∈ row_agree row ++ row_disagree row -> a ∈ speaker_map.*2) /\
  (forall a, a ∈ row_agree row -> a ∉ row_disagree row).

(** What the code returns instead: ["<id>:<speaker>"], the id being the
    part of the LLM entry before its first colon. *)
Definition labelled (speaker_map : list (string * string))
    (llm_entry returned : string) : Prop :=
  exists name,
    (name, before_colon llm_entry) ∈ speaker_map /\
    returned = before_colon llm_entry +:+ ":" +:+ name.

(* ===================================================================== *)

(** ** Stage 1: topics the normalization leaves alone *)

(** A topic the normalization leaves alone: a dictionary has a
    [subtopics] list. *)
Definition well_formed_topic (topic : json) : Prop :=
  match topic with
  | JObj _ => is_Some (subtopics_of topic)
  | _ => True
  end.

(** ** Stage 2: what the returned tree records *)

(** The claim as the placement loop sees it after lines 637-649: a claim
    without [topicName] takes the names of the first topic and of its
    first subtopic; without a taxonomy to take them from it is skipped. *)
Definition assign_default (taxonomy : option (list Topic)) (c : Claim) : option Claim :=
  match claim_topicName c with
  | Some _ => Some c
  | None =>
      match taxonomy with
      | Some (first :: _) =>
          Some (mkClaim (claim c) (quote c) (Some (topicName first))
                  (Some (match subtopics first with
                         | Some (sub :: _) => subtopicName sub
                         | _ => "General"
                         end))
                  (commentId c) (speaker c))
      | _ => None
      end
  end.

(** The topic a claim is counted under. *)
Definition counted_under (taxonomy : option (list Topic)) (c : Claim) : option string :=
  assign_default taxonomy c ≫= claim_topicName.

(** A subtopic bucket that agrees with the claims it holds. *)
Definition filed_under (topic sub : string) (sb : SubtopicBucket) : Prop :=
  total sb = length (claims sb) /\
  Forall (fun c => claim_topicName c = Some topic /\ claim_subtopicName c = Some sub)
         (claims sb) /\
  forall x, x ∈ speakers sb <-> exists c, c ∈ claims sb /\ speaker c = x.

Definition consistent (tree : gmap string TopicBucket) : Prop :=
  forall topic bucket sub sb,
    tree !! topic = Some bucket -> topic_subtopics bucket !! sub = Some sb ->
    filed_under topic sub sb.

(** A tree whose topic totals and speakers are those of the claims [done]. *)
Definition tallied (taxonomy : option (list Topic)) (done : list Claim)
    (tree : gmap string TopicBucket) : Prop :=
  forall topic,
    match tree !! topic with
    | Some bucket =>
        topic_total bucket =
          length (filter (fun c => counted_under taxonomy c = Some topic) done) /\
        forall x, x ∈ topic_speakers bucket <->
                  exists c, c ∈ done /\ counted_under taxonomy c = Some topic /\ speaker c = x
    | None => forall c, c ∈ done -> counted_under taxonomy c <> Some topic
    end.

(** ** Stage 2: the claims of one comment (main.py, [comment_to_claims]) *)
Record Comment : Type := mkComment {
  comment_id : string;              (* id *)
  comment_text : string;            (* text *)
  comment_speaker : string          (* speaker *)
}.

(** [comment_to_claims(...)["claims"]] from the content of the chat
    completion: a decoded list is wrapped, a decoded dictionary with a
    [claims] key is kept, anything else and any exception give the
    default. *)
Definition comment_to_claims (content : option string) : claim_dict :=
  match content ← content ?! TypeError; extract_json_from_response content with
  | Ok (JArr claims_obj) => [("claims", JArr claims_obj)]
  | Ok (JObj claims_obj) =>
      if dict_has "claims" claims_obj then claims_obj else [("claims", JArr [])]
  | _ => [("claims", JArr [])]
  end.

(** [for x in v]: the elements visited, [TypeError] for a value that
    cannot be iterated. *)
Definition iterate (v : json) : result (list json) :=
  match v with
  | JArr _ | JObj _ | JStr _ => Ok (py_iter v)
  | _ => Raise TypeError
  end.

(** [claim.update({"commentId": comment.id, "speaker": comment.speaker})];
    only a dictionary has [update]. *)
Definition tag_claim (comment : Comment) (claim : json) : result claim_dict :=
  match claim with
  | JObj fields =>
      Ok (dict_set "speaker" (JStr (comment_speaker comment))
            (dict_set "commentId" (JStr (comment_id comment)) fields))
  | _ => Raise AttributeError
  end.

(** What one comment adds to [comms_to_claims] in [all_comments_to_claims],
    given [response["claims"]].  Any exception while tagging skips the
    comment; a [claims] value that is not a list either raises or is
    empty. *)
Definition claims_of_comment (comment : Comment) (response_claims : claim_dict)
    : list claim_dict :=
  let claims := if dict_has "claims" response_claims then response_claims
                else [("claims", JArr [])] in
  match
    v ← dict_get "claims" claims ?! KeyError;
    items ← iterate v;
    tagged ← comprehension (tag_claim comment) items;
    Ok (v, tagged)
  with
  | Ok (JArr _, tagged) => tagged
  | Ok (_, _) => []
  | Raise _ => []
  end.

(** ** Stage 3: the duplicate relation *)

(** [b] is listed as a near-duplicate of [a]. *)
Definition listed (claim_set : gmap Z (list Z)) (a b : Z) : Prop :=
  exists dupes, claim_set !! a = Some dupes /\ b ∈ dupes.

(** ** Stage 3: the order and the counts of the sorted tree *)

(** What [req.sort] ranks by: the number of distinct speakers for
    [numPeople], the number of claims otherwise. *)
Definition topic_rank (sort : string) (x : string * TopicRecord) : Z :=
  if String.eqb sort "numPeople" then Z.of_nat (topic_counts_speakers x.2)
  else topic_counts_claims x.2.

Definition subtopic_rank (sort : string) (x : string * SubtopicRecord) : Z :=
  if String.eqb sort "numPeople" then Z.of_nat (counts_speakers x.2)
  else counts_claims x.2.

(** Highest rank first. *)
Definition ranked {A} (rank : A -> Z) (l : list A) : Prop :=
  Sorted (fun a b => (rank b <= rank a)%Z) l.

(** The sum of [subtopic_data["total"]] over the subtopics of a topic. *)
Definition sum_totals (subtopics : list (string * SubtopicData)) : Z :=
  foldr (fun subtopic n => (data_total subtopic.2 + n)%Z) 0%Z subtopics.

(** ** Stage 4: the order of the speaker ids *)

(** Strictly increasing in the order of [str]. *)
Definition increasing (l : list string) : Prop :=
  StronglySorted (fun a b => String.compare a b = Lt) l.

(** ** Comments worth sending (utils.py, [comment_is_meaningful]) *)
(** The two thresholds come from the configuration. *)
Definition comment_is_meaningful (MIN_CHAR_COUNT_FOR_MEANING MIN_WORD_COUNT_FOR_MEANING : Z)
    (raw_comment : string) : bool :=
  (MIN_CHAR_COUNT_FOR_MEANING <=? Z.of_nat (String.length raw_comment))%Z
  || (MIN_WORD_COUNT_FOR_MEANING <=? Z.of_nat (length (split " " raw_comment)))%Z.

(** The number of occurrences of a character. *)
Fixpoint count_char (c : ascii) (s : string) : nat :=
  match s with
  | "" => 0
  | String d rest => (if Ascii.eqb c d then 1 else 0) + count_char c rest
  end.

(** ** Descriptions of topics and subtopics (utils.py, [topic_desc_map]) *)
Definition topic_desc_map (topics : list Topic) : gmap string string :=
  fold_left
    (fun topic_desc topic =>
       let topic_desc := <[topicName topic := topicShortDescription topic]> topic_desc in
       match subtopics topic with
       | Some subs =>
           fold_left
             (fun topic_desc subtopic =>
                <[subtopicName subtopic := subtopicShortDescription subtopic]> topic_desc)
             subs topic_desc
       | None => topic_desc
       end)
    topics ∅.

(** The description [cruxes_from_tree] gives a subtopic. *)
Definition subtopic_desc (topic_desc : gmap string string) (subtopic : string) : string :=
  default "No further details" (topic_desc !! subtopic).

(** The names and descriptions in the order [topic_desc_map] writes them. *)
Definition described (topics : list Topic) : list (string * string) :=
  topics ≫= fun topic =>
    (topicName topic, topicShortDescription topic)
    :: ((fun subtopic => (subtopicName subtopic, subtopicShortDescription subtopic))
          <$> default [] (subtopics topic)).

(** ** Stage 4: anonymized claims (main.py, [cruxes_for_topic]) *)
(** [claims_anon]: every claim as ["<id>:<claim>"], the id being the one
    the speaker map gives its speaker. *)
Definition claims_anon (speaker_map : list (string * string)) (claims : list Claim)
    : result (list string) :=
  comprehension
    (fun c => speaker_anon ← dict_get (speaker c) speaker_map ?! KeyError;
              Ok (speaker_anon +:+ ":" +:+ claim c))
    claims.

(** ** Stage 4: the crux of one subtopic (main.py, [cruxes_for_topic],
    [cruxes_from_tree]) *)
(** What [cruxes_for_topic] returns under ["crux"], from the content of
    the chat completion: the decoded dictionary; an empty crux for a
    decoded value of another type; an error text when nothing can be
    decoded. *)
Definition crux_obj (content : option string) : json :=
  match content ← content ?! TypeError; extract_json_from_response content with
  | Ok (JObj fields) => JObj fields
  | Ok _ =>
      JObj [("crux", JObj [("cruxClaim", JStr ""); ("agree", JArr []);
                           ("disagree", JArr []); ("explanation", JStr "")])]
  | Raise _ => JObj [("crux", JStr "Error parsing response")]
  end.

(** The crux [cruxes_from_tree] takes from [llm_response["crux"]]: the
    value under a nested ["crux"] key, or the dictionary itself when it
    has a ["cruxClaim"]; [None] when the subtopic is skipped. *)
Definition accepted_crux (crux_data : json) : option json :=
  match crux_data with
  | JObj fields =>
      match dict_get "crux" fields with
      | Some crux => Some crux
      | None => if dict_has "cruxClaim" fields then Some crux_data else None
      end
  | _ => None
  end.

(** [v[key]] for a string key: only a dictionary can be indexed by it. *)
Definition subscript (key : string) (v : json) : result json :=
  match v with
  | JObj fields => dict_get key fields ?! KeyError
  | _ => Raise TypeError
  end.

(** [crux["cruxClaim"]], [crux["agree"]], [crux["disagree"]] and the
    guarded [crux["explanation"]]. *)
Definition crux_fields (crux : json) : result (json * json * json * json) :=
  crux_claim ← subscript "cruxClaim" crux;
  agree ← subscript "agree" crux;
  disagree ← subscript "disagree" crux;
  let explanation :=
    match subscript "explanation" crux with
    | Ok explanation => explanation
    | Raise _ => JStr "N/A"
    end in
  Ok (crux_claim, agree, disagree, explanation).

(** One subtopic of [cruxes_from_tree], from the completion to the fields
    read: [Ok None] when the subtopic is skipped. *)
Definition crux_of_response (content : option string)
    : result (option (json * json * json * json)) :=
  match accepted_crux (crux_obj content) with
  | Some crux => Some <$> crux_fields crux
  | None => Ok None
  end.


(** ** Texts: what is left of a text *)


(** ** JSON: the values the encoder writes *)

(** What may follow a value in the text [dumps] writes: nothing, a comma,
    or a closing bracket or brace. *)
Definition delimited (rest : string) : bool :=
  match rest with
  | "" => true
  | String c _ => Ascii.eqb c "," || Ascii.eqb c "]" || Ascii.eqb c "}"
  end.

Fixpoint uint_value (acc : Z) (d : Decimal.uint) : Z :=
  match d with
  | Decimal.Nil => acc
  | Decimal.D0 l => uint_value (10 * acc + 0) l
  | Decimal.D1 l => uint_value (10 * acc + 1) l
  | Decimal.D2 l => uint_value (10 * acc + 2) l
  | Decimal.D3 l => uint_value (10 * acc + 3) l
  | Decimal.D4 l => uint_value (10 * acc + 4) l
  | Decimal.D5 l => uint_value (10 * acc + 5) l
  | Decimal.D6 l => uint_value (10 * acc + 6) l
  | Decimal.D7 l => uint_value (10 * acc + 7) l
  | Decimal.D8 l => uint_value (10 * acc + 8) l
  | Decimal.D9 l => uint_value (10 * acc + 9) l
  end%Z.

(** The values [json.dumps] writes back as they were decoded, floating-point
    numbers apart: the keys of every object are distinct. *)
Fixpoint well_formed (v : json) : bool :=
  match v with
  | JFloat _ => false
  | JArr items => forallb well_formed items
  | JObj fields =>
      bool_decide (NoDup fields.*1) && forallb (fun kv => well_formed kv.2) fields
  | _ => true
  end.

(** Fuel that is enough to decode the text of a value. *)
Fixpoint size (v : json) : nat :=
  match v with
  | JArr items => S (list_sum (map (fun x => S (size x)) items))
  | JObj fields => S (list_sum (map (fun kv => S (size kv.2)) fields))
  | _ => 1
  end.

(** The characters a value's text can start with. *)
Definition value_heads : list ascii :=
  ["n"; "t"; "f"; "-"; "0"; "1"; "2"; "3"; "4"; "5"; "6"; "7"; "8"; "9"; "["; "{"; DQUOTE]%char.

(** What the induction gives for a value. *)
Definition decodes (v : json) : Prop :=
  well_formed v = true ->
  forall fuel rest, size v <= fuel -> delimited rest = true ->
    parse_value fuel (dumps v +:+ rest) = Some (v, rest).

(** * Verification *)
(* ===================================================================== *)

(** ** Generic facts about loops and dictionaries *)

Lemma comprehension_lookup {A B} (f : A -> result B) (g : A -> B) l :
  (forall x, x ∈ l -> f x = Ok (g x)) ->
  comprehension f l = Ok (g <$> l).
Proof.
  induction l as [|x l IH]; intros H; simpl; [done|].
  rewrite H; [|by left]. simpl. rewrite IH; [done|].
  intros y Hy. apply H. by right.
Qed.

Lemma comprehension_Forall2 {A B} (f : A -> result B) (P : A -> B -> Prop) l :
  (forall x, x ∈ l -> exists y, f x = Ok y /\ P x y) ->
  exists ys, comprehension f l = Ok ys /\ Forall2 P l ys.
Proof.
  induction l as [|x l IH]; intros H; simpl.
  - exists []. by split.
  - destruct (H x) as (y & -> & Hy); [by left|]. simpl.
    destruct IH as (ys & -> & Hys); [intros z Hz; apply H; by right|]. simpl.
    exists (y :: ys). split; [done | by constructor].
Qed.

Lemma comprehension_Forall {A B} (f : A -> result B) (Q : B -> Prop) l :
  (forall x, x ∈ l -> exists y, f x = Ok y /\ Q y) ->
  exists ys, comprehension f l = Ok ys /\ Forall Q ys.
Proof.
  intros H.
  destruct (comprehension_Forall2 f (fun _ y => Q y) l H) as (ys & E & HF).
  exists ys. split; [done|].
  clear E H. induction HF; by constructor.
Qed.

Lemma comprehension_inv {A B} (f : A -> result B) l ys :
  comprehension f l = Ok ys -> Forall2 (fun x y => f x = Ok y) l ys.
Proof.
  revert ys. induction l as [|x l IH]; intros ys; simpl.
  - intros [= <-]. constructor.
  - destruct (f x) as [y|e] eqn:Hx; simpl; [|done].
    destruct (comprehension f l) as [ys'|e]; simpl; [|done].
    intros [= <-]. constructor; [done | by apply IH].
Qed.

Lemma dict_get_set_eq {V} (k : string) (v : V) (d : list (string * V)) :
  dict_get k (dict_set k v d) = Some v.
Proof.
  induction d as [|[k' v'] d IH]; simpl.
  - by rewrite decide_True.
  - destruct (decide (k = k')) as [->|Hne]; simpl.
    + by rewrite decide_True.
    + by rewrite decide_False.
Qed.

(** ** Strings and JSON: the primitives on examples *)

Lemma append_cons (c : ascii) (s t : string) : String c s +:+ t = String c (s +:+ t).
Proof. reflexivity. Qed.

Lemma append_nil_r (s : string) : s +:+ "" = s.
Proof. induction s as [|c s IH]; [done|]. by rewrite append_cons, IH. Qed.

Lemma append_assoc (s1 s2 s3 : string) : (s1 +:+ s2) +:+ s3 = s1 +:+ (s2 +:+ s3).
Proof. induction s1 as [|c s1 IH]; [done|]. by rewrite !append_cons, IH. Qed.

Lemma startswith_cons a p b s :
  startswith (String a p) (String b s) = Ascii.eqb a b && startswith p s.
Proof. reflexivity. Qed.

Lemma split_from_cons sep acc c rest :
  split_from sep 0 acc (String c rest) =
  if startswith sep (String c rest)
  then acc :: split_from sep (String.length sep - 1) "" rest
  else split_from sep 0 (acc +:+ String c "") rest.
Proof. reflexivity. Qed.

Example split_examples :
  split ":" "0:Cats are great: really" = ["0"; "Cats are great"; " really"] /\
  split "Id" "claimId12" = ["claim"; "12"] /\
  split "Id" "claim0" = ["claim0"] /\
  split "Id" "myIdx" = ["my"; "x"] /\
  split "aa" "aaa" = [""; "a"] /\
  before_colon "no colon" = "no colon".
Proof. repeat split. Qed.

Example json_loads_examples :
  json_loads (dq "{'nesting': {'claimId0': [], 'claimId1': ['claimId0']}}")
    = Some (JObj [("nesting", JObj [("claimId0", JArr []);
                                    ("claimId1", JArr [JStr "claimId0"])])]) /\
  json_loads (dq " [1, -20, 1.5e3, true, null, 'a\'b\u0041'] ")
    = Some (JArr [JInt 1; JInt (-20); JFloat "1.5e3"; JBool true; JNull;
                  JStr (dq "a'bA")]) /\
  json_loads (dq "{'a': 1, 'b': 2, 'a': 3}") = Some (JObj [("a", JInt 3); ("b", JInt 2)]) /\
  json_loads (dq "{'claims': []} {'claims': []}") = None /\
  json_loads "[1, ]" = None /\
  json_loads "01" = None /\
  json_loads "" = None.
Proof. repeat split. Qed.

Example dumps_example :
  dumps (JObj [("claims", JArr [JObj [("a", JArr [])]; JInt 2; JStr (dq "x'y")])])
  = dq "{'claims': [{'a': []}, 2, 'x\'y']}".
Proof. reflexivity. Qed.

Example decoder_conformance :
  json_loads "1e5" = Some (JFloat "1e5") /\
  json_loads "1." = None /\
  json_loads "-" = None /\
  json_loads "-01" = None /\
  json_loads "1.e3" = None /\
  json_loads "NaN" = Some (JFloat "NaN") /\
  json_loads "-Infinity" = Some (JFloat "-Infinity") /\
  json_loads (dq "{'a' : [ ] }") = Some (JObj [("a", JArr [])]) /\
  json_loads (dq "{'a':1,}") = None /\
  json_loads "[1 2]" = None /\
  json_loads "nul" = None /\
  json_loads "truex" = None /\
  json_loads (String LF "[]" +:+ String "013" (String "009" "")) = Some (JArr []) /\
  json_loads (String "012" "[]") = None /\
  json_loads (dq "'\x'") = None /\
  json_loads (dq "'" +:+ String "031" (dq "'")) = None /\
  json_loads (dq "'\u00e9'") = Some (JStr (String "233" "")) /\
  float_value "1.5E+3" = Some (1500 # 1)%Q /\
  float_value "25e-1" = Some (25 # 10)%Q /\
  eq_int (Some (JFloat "1.0")) 1 = true /\
  eq_int (Some (JBool true)) 1 = true /\
  eq_int None 1 = false.
Proof. vm_compute. repeat split. Qed.

Example string_primitives :
  split "XX" "aXXbXXXc" = ["a"; "b"; "Xc"] /\
  split "Id" "IdId" = [""; ""; ""] /\
  strip (String "028" (String "133" (String "160" "a")) +:+ String "031" " ") = "a" /\
  lower "General PETS" = "general pets" /\
  py_int " 12 " = Some 12%Z /\
  py_int "+3" = Some 3%Z /\
  py_int "1__0" = None /\
  py_int "_1" = None /\
  py_int "0x10" = None /\
  py_int "" = None /\
  py_int "-0" = Some 0%Z.
Proof. vm_compute. repeat split. Qed.

Example clean_json_comments_example :
  clean_json_comments
    (dq "{'a': 1, // first" +:+ String LF "   " +:+ String LF (dq " 'u': 'http://x'} // end"))
  = dq "{'a': 1," +:+ String LF (dq " 'u': 'http://x'}").
Proof. vm_compute. reflexivity. Qed.

(** ** JSONExtractor on the test cases of the source *)

Example extract_test_cases :
  extract_json_from_response (dq "{'taxonomy': [{'topicName': 'Test'}]}")
    = Ok (JObj [("taxonomy", JArr [JObj [("topicName", JStr "Test")]])]) /\
  extract_json_from_response
    ("```json" +:+ String LF (dq "{'claims': [{'claim': 'test'}]}") +:+ String LF "```")
    = Ok (JObj [("claims", JArr [JObj [("claim", JStr "test")]])]) /\
  extract_json_from_response (dq "Here is the result: {'taxonomy': []}")
    = Ok (JObj [("taxonomy", JArr [])]) /\
  extract_json_from_response (dq "{'claims': []} {'claims': [{'claim': 'duplicate'}]}")
    = Ok (JObj [("claims", JArr [JObj [("claim", JStr "duplicate")]])]) /\
  extract_json_from_response "no json here" = Raise ValueError.
Proof. vm_compute. repeat split. Qed.

Example concatenated_flat_claims :
  extract_json_from_response
    (concatenated [JObj [("claim", JStr "Cats purr.")]] [JObj [("claim", JStr "Dogs bark.")]])
  = Ok (claims_object [JObj [("claim", JStr "Cats purr.")]; JObj [("claim", JStr "Dogs bark.")]]).
Proof. vm_compute. reflexivity. Qed.

(** C8 (the code misses it): when a claim of [A] holds a list, here an
    empty [duplicates], the lazy pattern of
    [extract_multiple_json_objects] cuts the first object at the inner
    bracket, the cut text does not decode and is dropped, and the
    extractor returns the claims of [B] alone.  The brace-counting loop of
    [repair_malformed_json] splits the same text correctly, but it is
    never reached. *)
Theorem concatenated_claims_lost :
  let A := [JObj [("claim", JStr "Cats are the best pets."); ("duplicates", JArr [])]] in
  let B := [JObj [("claim", JStr "Dogs are superior pets.")]] in
  concatenated A B =
    dq "{'claims': [{'claim': 'Cats are the best pets.', 'duplicates': []}]} {'claims': [{'claim': 'Dogs are superior pets.'}]}" /\
  re_findall 200 multiple_claims_pattern (concatenated A B) =
    [dq "{'claims': [{'claim': 'Cats are the best pets.', 'duplicates': []}";
     dq "{'claims': [{'claim': 'Dogs are superior pets.'}]}"] /\
  extract_json_from_response (concatenated A B) = Ok (claims_object B) /\
  claims_object B <> claims_object (A ++ B) /\
  repair_malformed_json (concatenated A B) = Some (claims_object (A ++ B)).
Proof.
  repeat split; try (vm_compute; reflexivity). discriminate.
Qed.

(** ** Stage 1: taxonomy normalization *)

(** A topic that arrives without a [subtopics] list leaves with the
    synthesized one; a topic that arrives with a list keeps it, whatever
    its length. *)
Lemma normalize_topic_subtopics (fields : list (string * json)) (topic' : json) :
  normalize_topic (JObj fields) = Ok topic' ->
  match subtopics_of (JObj fields) with
  | Some subs => topic' = JObj fields
  | None =>
      exists topic_name,
        default (JStr "Unknown Topic") (dict_get "topicName" fields) = JStr topic_name /\
        subtopics_of topic' = Some [default_subtopic topic_name]
  end.
Proof.
  unfold normalize_topic, subtopics_of.
  destruct (dict_get "subtopics" fields) as [[]|] eqn:Hs;
    try (destruct (default (JStr "Unknown Topic") (dict_get "topicName" fields));
         try discriminate; intros [= <-]; eexists; split; [reflexivity|];
         by rewrite dict_get_set_eq).
  by intros [= <-].
Qed.

Example missing_subtopics_synthesized :
  comments_to_tree (Some (dq "{'taxonomy': [{'topicName': 'Pets'}]}"))
  = JArr [JObj [("topicName", JStr "Pets");
                ("subtopics",
                 JArr [JObj [("subtopicName", JStr "General Pets");
                             ("subtopicShortDescription", JStr "General aspects of pets")]])]].
Proof. vm_compute. reflexivity. Qed.

(** C3 (the code misses the case): a topic that arrives with
    [subtopics == []] is returned with its empty list, so the returned
    taxonomy has a topic without any subtopic. *)
Theorem empty_subtopics_not_normalized :
  exists topic,
    comments_to_tree
      (Some (dq "{'taxonomy': [{'topicName': 'Pets', 'topicShortDescription': 'Household pets', 'subtopics': []}]}"))
    = JArr [topic] /\
    subtopics_of topic = Some [].
Proof. eexists. split; vm_compute; reflexivity. Qed.

(** ** Stage 2: coverage of the taxonomy *)

Lemma cover_all_pairs taxonomy node_counts :
  fold_left cover_topic taxonomy node_counts =
  fold_left cover_pair (taxonomy_pairs taxonomy) node_counts.
Proof.
  revert node_counts. induction taxonomy as [|topic rest IH]; intros nc; [done|].
  unfold taxonomy_pairs. rewrite bind_cons, fold_left_app. simpl.
  fold (taxonomy_pairs rest). rewrite IH. f_equal.
  unfold cover_topic. destruct (subtopics topic) as [subs|]; simpl; [|done].
  clear. revert nc. induction subs as [|sub subs IH]; intros nc; simpl; [done|].
  by rewrite IH.
Qed.

Lemma extends_refl tree : extends tree tree.
Proof. intros topic bucket H. by exists bucket. Qed.

Lemma extends_trans t1 t2 t3 : extends t1 t2 -> extends t2 t3 -> extends t1 t3.
Proof.
  intros H12 H23 topic b1 H1.
  destruct (H12 _ _ H1) as (b2 & H2 & Hs12).
  destruct (H23 _ _ H2) as (b3 & H3 & Hs23).
  exists b3. split; [done|]. by etrans.
Qed.

Lemma cover_subtopic_extends topic sub nc : extends nc (cover_subtopic topic nc sub).
Proof.
  unfold cover_subtopic. intros t b Hb.
  destruct (nc !! topic) as [bucket|] eqn:Ht.
  - destruct (topic_subtopics bucket !! sub) eqn:Hs; [by exists b|].
    destruct (decide (t = topic)) as [->|Hne].
    + rewrite lookup_insert_eq. eexists. split; [done|]. simpl.
      assert (b = bucket) as -> by congruence.
      by apply insert_subseteq.
    + rewrite lookup_insert_ne by done. by exists b.
  - assert (t ≠ topic) by congruence.
    rewrite lookup_insert_ne by done. by exists b.
Qed.

Lemma cover_pairs_extends pairs nc : extends nc (fold_left cover_pair pairs nc).
Proof.
  revert nc. induction pairs as [|p pairs IH]; intros nc; simpl.
  - apply extends_refl.
  - eapply extends_trans; [|apply IH]. apply cover_subtopic_extends.
Qed.

Lemma cover_subtopic_pads topic sub nc : pads nc (cover_subtopic topic nc sub).
Proof.
  unfold cover_subtopic. intros t b b' k v Hb Hb' Hv.
  destruct (nc !! topic) as [bucket|] eqn:Ht.
  - destruct (topic_subtopics bucket !! sub) eqn:Hs; [left; congruence|].
    destruct (decide (t = topic)) as [->|Hne].
    + rewrite lookup_insert_eq in Hb'. injection Hb' as <-. simpl in Hv.
      assert (b = bucket) as -> by congruence.
      destruct (decide (k = sub)) as [->|Hk].
      * rewrite lookup_insert_eq in Hv. right. congruence.
      * rewrite lookup_insert_ne in Hv by done. by left.
    + rewrite lookup_insert_ne in Hb' by done. left. congruence.
  - assert (t ≠ topic) by congruence.
    rewrite lookup_insert_ne in Hb' by done. left. congruence.
Qed.

Lemma cover_pairs_pads pairs : forall nc, pads nc (fold_left cover_pair pairs nc).
Proof.
  induction pairs as [|p pairs IH]; intros nc; simpl.
  - intros t b b' k v Hb Hb' Hv. left. congruence.
  - intros t b b2 k v Hb Hb2 Hv.
    destruct (cover_subtopic_extends p.1 p.2 nc _ _ Hb) as (b1 & Hb1 & _).
    destruct (IH _ t b1 b2 k v Hb1 Hb2 Hv) as [Hv1 | ->]; [|by right].
    exact (cover_subtopic_pads p.1 p.2 nc t b b1 k v Hb Hb1 Hv1).
Qed.

Lemma cover_subtopic_present topic sub nc bucket :
  nc !! topic = Some bucket ->
  exists bucket', cover_subtopic topic nc sub !! topic = Some bucket' /\
    is_Some (topic_subtopics bucket' !! sub).
Proof.
  intros Ht. unfold cover_subtopic. rewrite Ht.
  destruct (topic_subtopics bucket !! sub) eqn:Hs.
  - exists bucket. by rewrite Hs.
  - rewrite lookup_insert_eq. eexists. split; [done|]. simpl.
    by rewrite lookup_insert_eq.
Qed.

Lemma cover_subtopic_absent topic sub nc :
  nc !! topic = None ->
  cover_subtopic topic nc sub !! topic =
  Some (mkTopicBucket 0 ∅ {["None" := empty_bucket]}).
Proof. intros Ht. unfold cover_subtopic. rewrite Ht. by rewrite lookup_insert_eq. Qed.

Lemma cover_subtopic_other topic sub nc t :
  t ≠ topic -> cover_subtopic topic nc sub !! t = nc !! t.
Proof.
  intros Hne. unfold cover_subtopic.
  destruct (nc !! topic) as [bucket|]; [destruct (topic_subtopics bucket !! sub)|];
    by rewrite ?lookup_insert_ne.
Qed.

(** A pair whose topic is already in the tree gets its bucket. *)
Lemma cover_pairs_present pairs topic sub : forall nc,
  (topic, sub) ∈ pairs -> is_Some (nc !! topic) ->
  exists bucket, fold_left cover_pair pairs nc !! topic = Some bucket /\
    is_Some (topic_subtopics bucket !! sub).
Proof.
  induction pairs as [|p pairs IH]; intros nc Hin [b Hb]; [by apply elem_of_nil in Hin|].
  simpl. apply elem_of_cons in Hin as [<-|Hin].
  - unfold cover_pair at 2. simpl.
    destruct (cover_subtopic_present topic sub nc b Hb) as (b1 & Hb1 & [sb Hsb]).
    destruct (cover_pairs_extends pairs _ _ _ Hb1) as (b2 & Hb2 & Hsub).
    exists b2. split; [done|]. exists sb.
    by eapply lookup_weaken.
  - apply IH; [done|].
    destruct (cover_subtopic_extends p.1 p.2 nc _ _ Hb) as (b1 & Hb1 & _). by exists b1.
Qed.

(** A topic that is not in the tree gets the placeholder bucket at the
    first of its pairs, and keeps it. *)
Lemma cover_pairs_absent pairs topic : forall nc,
  topic ∈ pairs.*1 -> nc !! topic = None ->
  exists bucket, fold_left cover_pair pairs nc !! topic = Some bucket /\
    topic_subtopics bucket !! "None" = Some empty_bucket.
Proof.
  induction pairs as [|[t s] pairs IH]; intros nc Hin Hnone;
    [by apply elem_of_nil in Hin|].
  simpl. unfold cover_pair at 2. simpl.
  destruct (decide (t = topic)) as [->|Hne].
  - pose proof (cover_subtopic_absent topic s nc Hnone) as H1.
    destruct (cover_pairs_extends pairs _ _ _ H1) as (b2 & Hb2 & Hsub).
    exists b2. split; [done|]. simpl in Hsub.
    eapply lookup_weaken; [|exact Hsub]. by rewrite lookup_singleton_eq.
  - apply IH.
    + rewrite fmap_cons in Hin. apply elem_of_cons in Hin as [Heq|Hin]; [|done].
      simpl in Heq. congruence.
    + by rewrite cover_subtopic_other.
Qed.

Lemma taxonomy_pairs_elem taxonomy topic sub :
  topic ∈ taxonomy -> sub ∈ default [] (subtopics topic) ->
  (topicName topic, subtopicName sub) ∈ taxonomy_pairs taxonomy.
Proof.
  intros Ht Hs. unfold taxonomy_pairs. apply list_elem_of_bind.
  exists topic. split; [|done].
  apply list_elem_of_fmap. by exists sub.
Qed.

(** C4 (as stated, refuted): with the taxonomy [Pets: Cats, Dogs] and no
    claim at all, the tree has the buckets ["None"] and ["Dogs"] under
    [Pets] but none for [Cats]; and a topic without subtopics that receives
    no claim is not a key of the tree. *)
Lemma tree_coverage_fails :
  (exists tree,
     let taxonomy :=
       [mkTopic "Pets" "Household pets"
          (Some [mkSubtopic "Cats" "About cats"; mkSubtopic "Dogs" "About dogs"])] in
     all_comments_to_claims (Some taxonomy) [] = Ok tree /\
     ~ tree_coverage taxonomy tree) /\
  (exists tree,
     let taxonomy := [mkTopic "Pets" "Household pets" (Some [])] in
     all_comments_to_claims (Some taxonomy) [] = Ok tree /\
     ~ tree_coverage taxonomy tree).
Proof.
  split; eexists; (split; [reflexivity|]); intros H.
  - destruct (H _ ltac:(by left)) as (bucket & Hb & Hs).
    specialize (Hs (mkSubtopic "Cats" "About cats") ltac:(by left)).
    vm_compute in Hb. injection Hb as <-.
    vm_compute in Hs. by destruct Hs.
  - destruct (H _ ltac:(by left)) as (bucket & Hb & _).
    vm_compute in Hb. discriminate.
Qed.

(** C4 (amended): when placement succeeds, Stage 2 returns a tree in which
    every topic of the taxonomy that has a subtopic is a key; for a topic
    that received a claim, every subtopic of the taxonomy has its bucket,
    the one placement filled or else the empty one; a topic that received
    no claim has the empty placeholder bucket ["None"]. *)
Theorem coverage_after_placement (taxonomy : list Topic) (comms_to_claims : list Claim)
    (placed : gmap string TopicBucket) :
  place_claims (Some taxonomy) ∅ comms_to_claims = Ok placed ->
  exists tree,
    all_comments_to_claims (Some taxonomy) comms_to_claims = Ok tree /\
    forall topic sub,
      topic ∈ taxonomy -> sub ∈ default [] (subtopics topic) ->
      exists bucket,
        tree !! topicName topic = Some bucket /\
        (forall filled, placed !! topicName topic = Some filled ->
           topic_subtopics bucket !! subtopicName sub =
           Some (default empty_bucket (topic_subtopics filled !! subtopicName sub))) /\
        (placed !! topicName topic = None ->
           topic_subtopics bucket !! "None" = Some empty_bucket).
Proof.
  intros Hplaced. unfold all_comments_to_claims. rewrite Hplaced. simpl.
  eexists. split; [reflexivity|].
  intros topic sub Ht Hs. rewrite cover_all_pairs.
  pose proof (taxonomy_pairs_elem taxonomy topic sub Ht Hs) as Hpair.
  destruct (placed !! topicName topic) as [b|] eqn:Hp.
  - destruct (cover_pairs_present _ _ _ placed Hpair) as (bucket & Hb & [sb Hsb]);
      [by exists b|].
    exists bucket. split; [done|]. split; [|intros [=]].
    intros filled [= <-]. rewrite Hsb. f_equal.
    destruct (cover_pairs_extends (taxonomy_pairs taxonomy) placed _ _ Hp)
      as (bucket' & Hb' & Hsub).
    assert (bucket' = bucket) as -> by congruence.
    destruct (topic_subtopics b !! subtopicName sub) as [x|] eqn:Hx; simpl.
    + eapply lookup_weaken in Hx; [|exact Hsub]. congruence.
    + destruct (cover_pairs_pads (taxonomy_pairs taxonomy) placed _ _ _ _ _ Hp Hb Hsb)
        as [Hin | ->]; [congruence|done].
  - destruct (cover_pairs_absent (taxonomy_pairs taxonomy) (topicName topic) placed)
      as (bucket & Hb & Hnone); [|done|].
    { apply list_elem_of_fmap. by exists (topicName topic, subtopicName sub). }
    exists bucket. split; [done|]. split; [|done]. intros filled [=].
Qed.

Lemma coverage_after_placement_witness :
  let taxonomy :=
    [mkTopic "Pets" "Household pets"
       (Some [mkSubtopic "Cats" "About cats"; mkSubtopic "Dogs" "About dogs"])] in
  let comms_to_claims :=
    [mkClaim "Cats are the best pets." "I love cats" (Some "Pets") (Some "Cats") "c1" "Alice"] in
  exists tree,
    all_comments_to_claims (Some taxonomy) comms_to_claims = Ok tree /\
    exists bucket,
      tree !! "Pets" = Some bucket /\
      topic_subtopics bucket !! "Dogs" = Some empty_bucket.
Proof.
  intros taxonomy comms_to_claims.
  destruct (coverage_after_placement taxonomy comms_to_claims _ eq_refl)
    as (tree & Htree & Hcov).
  exists tree. split; [exact Htree|].
  destruct (Hcov (mkTopic "Pets" "Household pets"
                    (Some [mkSubtopic "Cats" "About cats"; mkSubtopic "Dogs" "About dogs"]))
                 (mkSubtopic "Dogs" "About dogs"))
    as (bucket & Hb & Hpresent & _).
  - by left.
  - right. by left.
  - exists bucket. split; [exact Hb|].
    etrans; [exact (Hpresent _ eq_refl)|]. vm_compute. reflexivity.
Defined.

(** ** Stage 3: deduplication and sorting *)

Example parse_claim_key_examples :
  parse_claim_key "claimId12" = Ok 12%Z /\
  parse_claim_key "claimId 7 " = Ok 7%Z /\
  parse_claim_key "claimId1_000" = Ok 1000%Z /\
  parse_claim_key "claimId-1" = Ok (-1)%Z /\
  parse_claim_key "claim0" = Raise IndexError /\
  parse_claim_key "myIdx" = Raise ValueError /\
  parse_claim_key "claimId" = Raise ValueError.
Proof. repeat split. Qed.

(** The relation is closed in both directions, whichever way the LLM
    states it. *)
Example build_claim_set_symmetric :
  build_claim_set [("nesting", JObj [("claimId0", JArr []);
                                     ("claimId1", JArr [JStr "claimId0"])])]
  = Ok {[0%Z := [1%Z]; 1%Z := [0%Z]]} /\
  build_claim_set [("nesting", JObj [("claimId0", JArr [JStr "claimId1"]);
                                     ("claimId1", JArr [])])]
  = Ok {[0%Z := [1%Z]; 1%Z := [0%Z]]}.
Proof. split; vm_compute; reflexivity. Qed.

(** Claims without a [claimId] field, which is how Stage 2 writes them,
    are never found by the duplicate lookup: whatever the nesting, every
    emitted claim has an empty [duplicates] list. *)
Lemma find_by_claimId_absent claims dupe_id :
  Forall (fun c => dict_get "claimId" c = None) claims ->
  find_by_claimId claims dupe_id = None.
Proof.
  unfold find_by_claimId. induction 1 as [|c claims Hc _ IH]; simpl; [done|].
  by rewrite Hc.
Qed.

Lemma collect_without_claimId claims dupe_ids : forall st,
  Forall (fun c => dict_get "claimId" c = None) claims ->
  (fold_left (collect_duplicate claims) dupe_ids st).1 = st.1.
Proof.
  induction dupe_ids as [|dupe_id dupe_ids IH]; intros st Hno; simpl; [done|].
  rewrite IH by done. unfold collect_duplicate.
  destruct (bool_decide (dupe_id ∈ st.2)); [done|]. simpl.
  by rewrite find_by_claimId_absent.
Qed.

Lemma fold_claim_without_claimId claims claim_set claim_id claim st st' :
  Forall (fun c => dict_get "claimId" c = None) claims ->
  fold_claim claims claim_set claim_id claim st = Ok st' ->
  Forall (fun c => num_duplicates c = 0) (deduped_claims st) ->
  Forall (fun c => num_duplicates c = 0) (deduped_claims st').
Proof.
  intros Hno. unfold fold_claim.
  destruct (set_add _ _) as [speakers|e]; simpl; [|done].
  destruct (bool_decide (Z.of_nat claim_id ∈ accounted_for_ids st)).
  - by intros [= <-].
  - destruct (claim_set !! Z.of_nat claim_id) as [dupe_ids|].
    + pose proof (collect_without_claimId claims dupe_ids ([], accounted_for_ids st) Hno) as Hd.
      destruct (fold_left _ dupe_ids _) as [duplicates accounted]. simpl in Hd. subst.
      intros [= <-] Hst. simpl. apply Forall_app. split; [done|].
      constructor; [|done]. unfold num_duplicates. by rewrite dict_get_set_eq.
    + intros [= <-] Hst. simpl. apply Forall_app. split; [done|].
      constructor; [|done]. unfold num_duplicates. by rewrite dict_get_set_eq.
Qed.

Lemma stage2_claims_never_folded claims claim_set : forall rest start st st',
  Forall (fun c => dict_get "claimId" c = None) claims ->
  for_enumerate (fold_claim claims claim_set) start rest st = Ok st' ->
  Forall (fun c => num_duplicates c = 0) (deduped_claims st) ->
  Forall (fun c => num_duplicates c = 0) (deduped_claims st').
Proof.
  induction rest as [|claim rest IH]; intros start st st' Hno; simpl.
  - by intros [= <-].
  - destruct (fold_claim claims claim_set start claim st) as [st1|e] eqn:E; simpl; [|done].
    intros Hrest Hst. eapply IH; [done|exact Hrest|].
    by eapply fold_claim_without_claimId.
Qed.

(** C1 (the code misses it): on the duplicate-folding scenario, two claims
    that Stage 2 produced and the nesting claimId0: [], claimId1:
    [claimId0], the output has one canonical claim, but its [duplicates]
    list is empty: the duplicate is looked up by a [claimId] field that no
    claim carries, instead of by its relative index. *)
Theorem duplicates_not_folded :
  exists canonical,
    sort_claims_tree
      (answering (dq "{'nesting': {'claimId0': [], 'claimId1': ['claimId0']}}"))
      "" "numPeople" cats_tree
    = Ok [("Pets",
           mkTopicRecord
             [("Cats", mkSubtopicRecord [canonical] [JStr "Alice"] 2 1)]
             [JStr "Alice"] 2 1)] /\
    canonical = cat_claim "I love cats." ++ [("duplicates", JArr [])].
Proof. eexists. split; vm_compute; reflexivity. Qed.

(** C2 (the code misses it): on the same input the emitted claims count
    for 1, while the bucket's pre-dedup total, reported as
    [counts.claims], is 2. *)
Theorem count_not_conserved :
  exists record,
    (sorted_tree ←
       sort_claims_tree
         (answering (dq "{'nesting': {'claimId0': [], 'claimId1': ['claimId0']}}"))
         "" "numClaims" cats_tree;
     topic ← dict_get "Pets" sorted_tree ?! KeyError;
     dict_get "Cats" (topics topic) ?! KeyError) = Ok record /\
    folded_count record = 1%Z /\
    counts_claims record = 2%Z.
Proof. eexists. split; [vm_compute; reflexivity|]. split; reflexivity. Qed.

Lemma invalid_sort_never_returns (llm : LLM) (user_prompt sort : string)
    (claims_tree : list (string * list (string * SubtopicData))) :
  sort <> "numPeople" -> sort <> "numClaims" ->
  http_status (sort_claims_tree llm user_prompt sort claims_tree) = 500.
Proof.
  intros Hp Hc. unfold sort_claims_tree, topic_key.
  apply String.eqb_neq in Hp, Hc. rewrite Hp, Hc.
  by destruct (for_each _ _ _) as [[? ?]|?].
Qed.

(** C5 (the code misses it): a request whose [sort] is neither value reads
    the unassigned [sorted_subtopics]; the exception is an
    [UnboundLocalError] that nothing catches, answered with 500 and not
    with the 400 of an invalid input. *)
Theorem invalid_sort_is_internal_error :
  sort_claims_tree
    (answering (dq "{'nesting': {'claimId0': [], 'claimId1': ['claimId0']}}"))
    "" "numSpeakers" cats_tree
  = Raise UnboundLocalError /\
  http_status
    (sort_claims_tree
       (answering (dq "{'nesting': {'claimId0': [], 'claimId1': ['claimId0']}}"))
       "" "numSpeakers" cats_tree) = 500.
Proof. split; vm_compute; reflexivity. Qed.

(** C10: the nesting-key parser is not total.  There are dedup responses
    whose extracted JSON has a [nesting] entry with a non-empty value list
    and a key, or a value element, that is not of the form claimId<k>, for
    which [int(claim_key.split("Id")[1])] raises and [sort_claims_tree]
    with it: [IndexError] for the key claim0 and for the element claim1,
    [ValueError] for the key myIdx.  Nothing catches the exception, so the
    request fails with status 500. *)
Theorem nesting_key_parser_not_total :
  let no_id := dq "{'nesting': {'claim0': ['claimId1']}}" in
  let no_number := dq "{'nesting': {'myIdx': ['claimId1']}}" in
  let bad_element := dq "{'nesting': {'claimId0': ['claim1']}}" in
  (extract_json_from_response no_id
     = Ok (JObj [("nesting", JObj [("claim0", JArr [JStr "claimId1"])])]) /\
   parse_claim_key "claim0" = Raise IndexError /\
   sort_claims_tree (answering no_id) "" "numPeople" cats_tree = Raise IndexError /\
   http_status (sort_claims_tree (answering no_id) "" "numPeople" cats_tree) = 500) /\
  (extract_json_from_response no_number
     = Ok (JObj [("nesting", JObj [("myIdx", JArr [JStr "claimId1"])])]) /\
   parse_claim_key "myIdx" = Raise ValueError /\
   sort_claims_tree (answering no_number) "" "numPeople" cats_tree = Raise ValueError /\
   http_status (sort_claims_tree (answering no_number) "" "numPeople" cats_tree) = 500) /\
  (extract_json_from_response bad_element
     = Ok (JObj [("nesting", JObj [("claimId0", JArr [JStr "claim1"])])]) /\
   parse_claim_key "claim1" = Raise IndexError /\
   sort_claims_tree (answering bad_element) "" "numPeople" cats_tree = Raise IndexError /\
   http_status (sort_claims_tree (answering bad_element) "" "numPeople" cats_tree) = 500).
Proof. repeat split; vm_compute; reflexivity. Qed.

(** ** Stage 4: the controversy matrix *)

Example controversy_scenario :
  controversy_matrix
    [ mkScoreRow "crux A" [1; 1 # 2; 0]%Q; mkScoreRow "crux B" [1 # 2; 1; 0]%Q ]
  = Ok [ [0; 2]; [2; 0] ]%Q.
Proof. reflexivity. Qed.

Lemma square_lookup n cm i :
  square n cm -> i < n -> exists row, cm !! i = Some row /\ length row = n.
Proof.
  intros [Hlen Hrows] Hi.
  destruct (lookup_lt_is_Some_2 cm i) as [row Hrow]; [lia|].
  exists row. split; [done|].
  rewrite Forall_forall in Hrows. apply Hrows.
  by eapply list_elem_of_lookup_2.
Qed.

Lemma add_at_spec n v a b cm :
  square n cm -> a < n -> b < n ->
  exists cm', add_at v a b cm = Ok cm' /\ square n cm' /\
    forall i j, val cm' i j =
      if decide (i = a /\ j = b) then (val cm i j + v)%Q else val cm i j.
Proof.
  intros Hsq Ha Hb.
  destruct (square_lookup n cm a Hsq Ha) as (row & Hrow & Hlen).
  destruct (lookup_lt_is_Some_2 row b) as [x Hx]; [lia|].
  unfold add_at. rewrite Hrow. simpl. rewrite Hx. simpl.
  eexists. split; [reflexivity|]. split.
  - destruct Hsq as [Hl Hrows]. split; [by rewrite length_insert|].
    rewrite Forall_forall in *. intros r Hr.
    apply list_elem_of_lookup in Hr as [k Hk].
    destruct (decide (k = a)) as [->|Hne].
    + rewrite list_lookup_insert_eq in Hk by lia.
      injection Hk as <-. by rewrite length_insert.
    + rewrite list_lookup_insert_ne in Hk by done.
      apply Hrows. by eapply list_elem_of_lookup_2.
  - intros i j. unfold val, entry.
    destruct (decide (i = a)) as [->|Hia].
    + rewrite list_lookup_insert_eq by (destruct Hsq; lia).
      rewrite Hrow. simpl.
      destruct (decide (j = b)) as [->|Hjb].
      * rewrite list_lookup_insert_eq by lia. rewrite Hx.
        by rewrite decide_True.
      * rewrite list_lookup_insert_ne by done.
        rewrite decide_False; [done | tauto].
    + rewrite list_lookup_insert_ne by done.
      rewrite decide_False; [done | tauto].
Qed.

Lemma spec_disagreement_cases (score other_score : Q) :
  spec_disagreement score other_score =
  if negb (Qeq_bool score other_score) then
    if Qeq_bool score 0 || Qeq_bool other_score 0 then (1 # 2)%Q else 1%Q
  else 0%Q.
Proof. unfold spec_disagreement. by destruct (Qeq_bool score other_score). Qed.

Lemma compare_scores_spec n ci oi score other cm :
  balanced n cm -> ci + oi + 1 < n ->
  exists cm', compare_scores ci score oi other cm = Ok cm' /\ balanced n cm' /\
    forall i j, i < j ->
      (val cm' i j ==
       val cm i j + (if decide (i = ci /\ j = ci + oi + 1)%nat
                     then spec_disagreement score other else 0))%Q.
Proof.
  intros (Hsq & Hsym & Hdiag) Hlt.
  assert (Hstep : forall v,
    exists cm', (cm1 ← add_at v ci (ci + oi + 1) cm; add_at v (ci + oi + 1) ci cm1) = Ok cm' /\
      balanced n cm' /\
      forall i j, i < j ->
        (val cm' i j == val cm i j + (if decide (i = ci /\ j = ci + oi + 1)%nat then v else 0))%Q).
  { intros v.
    destruct (add_at_spec n v ci (ci + oi + 1) cm) as (cm1 & E1 & Hsq1 & V1); [done|lia|lia|].
    destruct (add_at_spec n v (ci + oi + 1) ci cm1) as (cm2 & E2 & Hsq2 & V2); [done|lia|lia|].
    exists cm2. rewrite E1. simpl. split; [done|].
    assert (Hval : forall i j, (val cm2 i j ==
       val cm i j + (if decide ((i = ci /\ j = ci + oi + 1) \/ (i = ci + oi + 1 /\ j = ci))%nat
                     then v else 0))%Q).
    { intros i j. rewrite V2, V1.
      repeat case_decide; try lia; try lra; exfalso; tauto. }
    split; [split; [done|split]|].
    - intros i j. rewrite (Hval i j), (Hval j i), (Hsym i j).
      repeat case_decide; try lra; exfalso; tauto.
    - intros i. rewrite (Hval i i), (Hdiag i).
      case_decide; [lia | lra].
    - intros i j Hij. rewrite (Hval i j).
      repeat case_decide; try lra; try lia; exfalso; tauto. }
  unfold compare_scores. rewrite spec_disagreement_cases.
  destruct (negb (Qeq_bool score other)).
  - destruct (Qeq_bool score 0 || Qeq_bool other 0); apply Hstep.
  - exists cm. split; [done|]. split; [done|].
    intros i j _. case_decide; lra.
Qed.

Lemma others_loop_spec n ci score others : forall oi cm,
  balanced n cm -> ci + oi + length others < n ->
  exists cm', for_enumerate (compare_scores ci score) oi others cm = Ok cm' /\
    balanced n cm' /\
    forall i j, i < j ->
      (val cm' i j ==
       val cm i j + (if decide (i = ci /\ ci + oi + 1 <= j)%nat
                     then from_option (spec_disagreement score) 0
                                      (others !! (j - (ci + oi + 1))%nat)
                     else 0))%Q.
Proof.
  induction others as [|other rest IH]; intros oi cm Hbal Hlt; simpl.
  - exists cm. split; [done|]. split; [done|].
    intros i j _. case_decide; [|lra].
    destruct (j - (ci + oi + 1)); simpl; lra.
  - simpl in Hlt.
    destruct (compare_scores_spec n ci oi score other cm) as (cm1 & E1 & Hbal1 & V1);
      [done|lia|].
    rewrite E1. simpl.
    destruct (IH (S oi) cm1 Hbal1) as (cm2 & E2 & Hbal2 & V2); [lia|].
    exists cm2. split; [done|]. split; [done|].
    intros i j Hij. rewrite (V2 i j Hij), (V1 i j Hij).
    destruct (decide (i = ci /\ j = ci + oi + 1)) as [[-> ->]|Hne].
    + rewrite decide_False by lia. rewrite decide_True by lia.
      replace (ci + oi + 1 - (ci + oi + 1)) with 0 by lia. simpl. lra.
    + destruct (decide (i = ci /\ ci + oi + 1 <= j)) as [[-> Hj]|Hne'].
      * rewrite decide_True by lia.
        replace (j - (ci + oi + 1)) with (S (j - (ci + S oi + 1))) by lia.
        simpl. lra.
      * rewrite decide_False by lia. lra.
Qed.

Section ControversyMatrix.
Variable cont_mat : list ScoreRow.
Variables n m : nat.
Hypothesis rows : length cont_mat = n.
Hypothesis rectangular :
  forall row, row ∈ cont_mat -> length (per_speaker_scores row) = m.

Let score_at (si : nat) (row : ScoreRow) : Q :=
  default 0%Q (per_speaker_scores row !! si).

Lemma compare_speaker_spec ci si score cm :
  balanced n cm -> ci < n -> si < m ->
  exists cm', compare_speaker cont_mat ci si score cm = Ok cm' /\
    balanced n cm' /\
    forall i j rj, i < j -> cont_mat !! j = Some rj ->
      (val cm' i j ==
       val cm i j + (if decide (i = ci)
                     then spec_disagreement score (score_at si rj) else 0))%Q.
Proof.
  intros Hbal Hci Hsi. unfold compare_speaker.
  rewrite (comprehension_lookup _ (score_at si)).
  2:{ intros item Hitem. apply (subseteq_drop (ci + 1) cont_mat) in Hitem.
      specialize (rectangular item Hitem). unfold score_at.
      destruct (lookup_lt_is_Some_2 (per_speaker_scores item) si) as [x ->]; [lia|done]. }
  simpl.
  destruct (others_loop_spec n ci score (score_at si <$> drop (ci + 1) cont_mat) 0 cm)
    as (cm' & E & Hbal' & V); [done| |].
  { rewrite length_fmap, length_drop. lia. }
  exists cm'. split; [done|]. split; [done|].
  intros i j rj Hij Hj. rewrite (V i j Hij).
  destruct (decide (i = ci)) as [->|Hne].
  - rewrite decide_True by lia.
    rewrite list_lookup_fmap, lookup_drop.
    replace (ci + 1 + (j - (ci + 0 + 1))) with j by lia.
    rewrite Hj. simpl. lra.
  - rewrite decide_False by tauto. lra.
Qed.

Lemma speakers_loop_spec ci : forall ss si cm,
  balanced n cm -> ci < n -> si + length ss = m ->
  exists cm', for_enumerate (compare_speaker cont_mat ci) si ss cm = Ok cm' /\
    balanced n cm' /\
    forall i j rj, i < j -> cont_mat !! j = Some rj ->
      (val cm' i j ==
       val cm i j + (if decide (i = ci)
                     then spec_pair_sum ss (drop si (per_speaker_scores rj))
                     else 0))%Q.
Proof.
  induction ss as [|score ss IH]; intros si cm Hbal Hci Hm; simpl.
  - exists cm. split; [done|]. split; [done|].
    intros i j rj _ _. case_decide; lra.
  - simpl in Hm.
    destruct (compare_speaker_spec ci si score cm) as (cm1 & E1 & Hbal1 & V1);
      [done|done|lia|].
    rewrite E1. simpl.
    destruct (IH (S si) cm1 Hbal1 Hci) as (cm2 & E2 & Hbal2 & V2); [lia|].
    exists cm2. split; [done|]. split; [done|].
    intros i j rj Hij Hj. rewrite (V2 i j rj Hij Hj), (V1 i j rj Hij Hj).
    case_decide; [|lra].
    assert (Hlen : length (per_speaker_scores rj) = m).
    { apply rectangular. by eapply list_elem_of_lookup_2. }
    destruct (lookup_lt_is_Some_2 (per_speaker_scores rj) si) as [x Hx]; [lia|].
    rewrite (drop_S _ x si Hx). unfold score_at. rewrite Hx. simpl. lra.
Qed.

Lemma rows_loop_spec : forall rest ci cm,
  balanced n cm -> rest = drop ci cont_mat ->
  exists cm',
    for_enumerate
      (fun claim_index row cm =>
         for_enumerate (compare_speaker cont_mat claim_index) 0
                       (per_speaker_scores row) cm)
      ci rest cm = Ok cm' /\
    balanced n cm' /\
    forall i j ri rj, i < j -> cont_mat !! i = Some ri -> cont_mat !! j = Some rj ->
      (val cm' i j ==
       val cm i j + (if decide (ci <= i)%nat then spec_entry ri rj else 0))%Q.
Proof.
  induction rest as [|row rest IH]; intros ci cm Hbal Hrest; simpl.
  - exists cm. split; [done|]. split; [done|].
    intros i j ri rj Hij Hi Hj. case_decide; [|lra].
    apply lookup_lt_Some in Hi.
    assert (length (drop ci cont_mat) = 0) as Hl by by rewrite <- Hrest.
    rewrite length_drop in Hl. lia.
  - assert (Hrow : cont_mat !! ci = Some row).
    { rewrite <- (Nat.add_0_r ci), <- lookup_drop, <- Hrest. done. }
    assert (Hci : ci < n) by (apply lookup_lt_Some in Hrow; lia).
    destruct (speakers_loop_spec ci (per_speaker_scores row) 0 cm)
      as (cm1 & E1 & Hbal1 & V1); [done|done| |].
    { simpl. apply rectangular. by eapply list_elem_of_lookup_2. }
    rewrite E1. simpl.
    destruct (IH (S ci) cm1 Hbal1) as (cm2 & E2 & Hbal2 & V2).
    { rewrite (drop_S _ row ci Hrow) in Hrest. by injection Hrest. }
    exists cm2. split; [done|]. split; [done|].
    intros i j ri rj Hij Hi Hj.
    rewrite (V2 i j ri rj Hij Hi Hj), (V1 i j rj Hij Hj).
    destruct (decide (i = ci)) as [->|Hne].
    + rewrite decide_False by lia. rewrite decide_True by lia.
      rewrite Hrow in Hi. injection Hi as ->.
      unfold spec_entry. rewrite drop_0. lra.
    + destruct (decide (S ci <= i)).
      * rewrite decide_True by lia. lra.
      * rewrite decide_False by lia. lra.
Qed.
End ControversyMatrix.

Lemma val_zeros n i j : val (replicate n (replicate n 0%Q)) i j = 0%Q.
Proof.
  unfold val, entry.
  destruct (replicate n (replicate n 0%Q) !! i) as [row|] eqn:Hi; simpl; [|done].
  apply lookup_replicate in Hi as [-> _].
  destruct (replicate n 0%Q !! j) as [x|] eqn:Hj; simpl; [|done].
  by apply lookup_replicate in Hj as [-> _].
Qed.

Lemma balanced_zeros n : balanced n (replicate n (replicate n 0%Q)).
Proof.
  split; [split|split].
  - apply length_replicate.
  - apply Forall_replicate, length_replicate.
  - intros i j. by rewrite !val_zeros.
  - intros i. by rewrite val_zeros.
Qed.

Lemma square_entry n cm i j :
  square n cm -> i < n -> j < n -> entry cm i j = Some (val cm i j).
Proof.
  intros Hsq Hi Hj. unfold val, entry.
  destruct (square_lookup n cm i Hsq Hi) as (row & -> & Hlen). simpl.
  destruct (lookup_lt_is_Some_2 row j) as [x ->]; [lia|done].
Qed.

(** C6: on a rectangular score table, [controversy_matrix] returns a square
    matrix whose entry [(i, j)], [i < j], is the sum over the speakers of
    0 for equal scores, 1/2 when they differ and one of them is 0, and 1
    when they differ and both are non-zero; the matrix is symmetric and its
    diagonal is zero. *)
Theorem controversy_matrix_correct (cont_mat : list ScoreRow) (m : nat) :
  (forall row, row ∈ cont_mat -> length (per_speaker_scores row) = m) ->
  exists cm,
    controversy_matrix cont_mat = Ok cm /\
    square (length cont_mat) cm /\
    (forall i j ri rj,
        i < j -> cont_mat !! i = Some ri -> cont_mat !! j = Some rj ->
        exists x y, entry cm i j = Some x /\ entry cm j i = Some y /\
                    (x == spec_entry ri rj)%Q /\ (y == x)%Q) /\
    (forall i, i < length cont_mat ->
        exists z, entry cm i i = Some z /\ (z == 0)%Q).
Proof.
  intros Hrect. set (n := length cont_mat).
  destruct (rows_loop_spec cont_mat n m eq_refl Hrect cont_mat 0
              (replicate n (replicate n 0%Q)))
    as (cm & E & (Hsq & Hsym & Hdiag) & V); [apply balanced_zeros | by rewrite drop_0 |].
  exists cm. split; [exact E|]. split; [done|]. split.
  - intros i j ri rj Hij Hi Hj.
    assert (i < n /\ j < n) as [Hin Hjn].
    { apply lookup_lt_Some in Hi, Hj. unfold n. lia. }
    exists (val cm i j), (val cm j i).
    rewrite !(square_entry n) by done.
    split; [done|]. split; [done|]. split.
    + rewrite (V i j ri rj Hij Hi Hj), val_zeros.
      rewrite decide_True by lia. lra.
    + apply Hsym.
  - intros i Hi. exists (val cm i i).
    by rewrite (square_entry n).
Qed.

Lemma controversy_matrix_correct_witness :
  exists cm,
    controversy_matrix
      [ mkScoreRow "crux A" [1; 1 # 2; 0]%Q; mkScoreRow "crux B" [1 # 2; 1; 0]%Q ]
    = Ok cm /\
    exists x, entry cm 0 1 = Some x /\ (x == 2)%Q.
Proof.
  destruct (controversy_matrix_correct
      [ mkScoreRow "crux A" [1; 1 # 2; 0]%Q; mkScoreRow "crux B" [1 # 2; 1; 0]%Q ] 3)
    as (cm & E & _ & Hupper & _).
  - intros row Hrow. repeat (apply elem_of_cons in Hrow as [->|Hrow]; [reflexivity|]).
    by apply elem_of_nil in Hrow.
  - exists cm. split; [exact E|].
    destruct (Hupper 0 1 _ _ ltac:(lia) eq_refl eq_refl) as (x & _ & Hx & _ & Hspec & _).
    exists x. split; [exact Hx|]. rewrite Hspec. reflexivity.
Defined.

(** ** Stage 4: the top-K selection *)

Lemma ceil_sqrt_spec n :
  n <= ceil_sqrt n * ceil_sqrt n /\
  forall k, n <= k * k -> ceil_sqrt n <= k.
Proof.
  unfold ceil_sqrt. pose proof (Nat.sqrt_spec n (Nat.le_0_l n)) as [Hlo Hhi].
  simpl in Hhi. destruct (Nat.eqb_spec (Nat.sqrt n * Nat.sqrt n) n) as [E|NE].
  - split; [lia|]. intros k Hk.
    destruct (Nat.le_gt_cases (Nat.sqrt n) k) as [|Hlt]; [done|]. nia.
  - split; [simpl in *; nia|]. intros k Hk.
    destruct (Nat.le_gt_cases (S (Nat.sqrt n)) k) as [|Hlt]; [done|]. nia.
Qed.

Lemma slice_to_length {A} K (l : list A) :
  (0 <= K)%Z -> (Z.of_nat (length (slice_to K l)) <= K)%Z.
Proof.
  intros HK. unfold slice_to. rewrite (proj2 (Z.leb_le 0 K) HK).
  rewrite length_take. lia.
Qed.

Lemma insert_desc_perm t l : insert_desc t l ≡ₚ t :: l.
Proof.
  induction l as [|u l IH]; simpl; [done|].
  destruct (Qlt_le_dec (score_of t) (score_of u)); [|done].
  rewrite IH. apply Permutation_swap.
Qed.

Lemma sorted_desc_perm l : sorted_desc l ≡ₚ l.
Proof.
  induction l as [|t l IH]; simpl; [done|].
  by rewrite insert_desc_perm, IH.
Qed.

Lemma insert_desc_sorted t l :
  Sorted (fun a b => (score_of b <= score_of a)%Q) l ->
  Sorted (fun a b => (score_of b <= score_of a)%Q) (insert_desc t l).
Proof.
  induction l as [|u l IH]; intros Hs; simpl.
  - by repeat constructor.
  - destruct (Qlt_le_dec (score_of t) (score_of u)) as [Hlt|Hle].
    + apply Sorted_inv in Hs as [Hs Hhd]. constructor; [by apply IH|].
      destruct l as [|w l]; simpl.
      * constructor. by apply Qlt_le_weak.
      * destruct (Qlt_le_dec (score_of t) (score_of w)).
        -- constructor. by inversion Hhd.
        -- constructor. by apply Qlt_le_weak.
    + constructor; [done|]. by constructor.
Qed.

Lemma sorted_desc_sorted l :
  Sorted (fun a b => (score_of b <= score_of a)%Q) (sorted_desc l).
Proof.
  induction l as [|t l IH]; simpl; [constructor | by apply insert_desc_sorted].
Qed.

Lemma Sorted_take {A} (R : A -> A -> Prop) k (l : list A) :
  Sorted R l -> Sorted R (take k l).
Proof.
  revert k. induction l as [|x l IH]; intros [|k] Hs; simpl; try constructor.
  - apply IH. by apply Sorted_inv in Hs as [? _].
  - apply Sorted_inv in Hs as [_ Hhd].
    destruct l as [|y l], k as [|k]; simpl; constructor. by inversion Hhd.
Qed.

Lemma triangle_scores n (cont_mat : matrix) :
  square n cont_mat ->
  exists scores,
    upper_triangle_scores cont_mat = Ok scores /\
    Forall (triangle_cell cont_mat) scores.
Proof.
  intros Hsq. assert (Hn : length cont_mat = n) by apply Hsq.
  unfold upper_triangle_scores.
  match goal with
  | |- context [comprehension ?f (seq 0 ?k)] =>
      destruct (comprehension_Forall f (Forall (triangle_cell cont_mat)) (seq 0 k))
        as (rows & E & HF)
  end.
  - intros x Hx. apply elem_of_seq in Hx.
    apply comprehension_Forall. intros y Hy. apply elem_of_seq in Hy.
    rewrite (square_entry n) by (done || lia). simpl.
    eexists. split; [reflexivity|]. split; simpl; [lia|].
    by rewrite (square_entry n) by (done || lia).
  - rewrite E. simpl. eexists. split; [reflexivity|]. by apply Forall_concat.
Qed.

(** C9: on a square matrix over [N] cruxes, [top_k_cruxes] returns at most
    [min(ceil(sqrt N), 10)] entries when [top_k = 0] and at most [top_k]
    entries when [top_k > 0]; every entry is an upper-triangle cell
    [(i, j)], [i < j], with the two cruxes it relates, and the entries come
    in descending order of score. *)
Theorem top_k_cruxes_bound (cont_mat : matrix) (cruxes : list string)
    (top_k : Z) (n : nat) :
  square n cont_mat -> length cruxes = n ->
  exists top,
    top_k_cruxes cont_mat cruxes top_k = Ok top /\
    (top_k = 0%Z -> length top <= Nat.min (ceil_sqrt n) 10) /\
    ((0 < top_k)%Z -> (Z.of_nat (length top) <= top_k)%Z) /\
    Forall (upper_cell cont_mat cruxes) top /\
    descending (score <$> top).
Proof.
  intros Hsq Hcr. assert (Hn : length cont_mat = n) by apply Hsq.
  unfold top_k_cruxes.
  destruct (triangle_scores n cont_mat Hsq) as (scores & -> & Hcells). simpl.
  set (K := if (top_k =? 0)%Z then Z.min (Z.of_nat (ceil_sqrt (length cruxes))) 10
            else top_k).
  set (chosen := slice_to K (sorted_desc scores)).
  assert (Hchosen : Forall (triangle_cell cont_mat) chosen).
  { unfold chosen, slice_to.
    destruct (0 <=? K)%Z; apply Forall_take; by rewrite sorted_desc_perm. }
  destruct (comprehension_Forall2
    (fun '(s, x, y) =>
       a ← (cruxes !! x) ?! IndexError;
       b ← (cruxes !! y) ?! IndexError;
       Ok (mkTopCrux s a b))
    (fun t c => score c = score_of t /\ upper_cell cont_mat cruxes c) chosen)
    as (top & E & HF).
  { intros [[s x] y] Ht. rewrite Forall_forall in Hchosen.
    destruct (Hchosen _ Ht) as [Hxy Hentry]. simpl in Hxy, Hentry.
    destruct (lookup_lt_is_Some_2 cruxes x) as [a Ha]; [lia|].
    destruct (lookup_lt_is_Some_2 cruxes y) as [b Hb]; [lia|].
    rewrite Ha, Hb. simpl. eexists. split; [reflexivity|].
    split; [done|]. exists x, y. simpl. done. }
  exists top. split; [exact E|].
  assert (Hlen : length top = length chosen) by (symmetry; by eapply Forall2_length).
  assert (Hscores : score <$> top = score_of <$> chosen).
  { clear -HF. induction HF as [|t c l k [Hs _] _ IH]; [done|].
    rewrite !fmap_cons. by rewrite Hs, IH. }
  split; [|split; [|split]].
  - intros ->. rewrite Hlen. subst chosen K. simpl. rewrite Hcr.
    pose proof (slice_to_length (Z.min (Z.of_nat (ceil_sqrt n)) 10)
                  (sorted_desc scores)) as Hs.
    lia.
  - intros Hpos. rewrite Hlen. subst chosen K.
    rewrite (proj2 (Z.eqb_neq top_k 0)) by lia.
    apply slice_to_length. lia.
  - clear -HF. induction HF as [|t c l k [_ Hc] _ IH]; constructor; done.
  - unfold descending. rewrite Hscores.
    assert (Hs : Sorted (fun a b => (score_of b <= score_of a)%Q) chosen).
    { unfold chosen, slice_to.
      destruct (0 <=? K)%Z; apply Sorted_take, sorted_desc_sorted. }
    clear -Hs. induction Hs as [|t l Hs IH Hhd]; simpl; constructor; [done|].
    destruct Hhd; simpl; by constructor.
Qed.

Lemma top_k_cruxes_bound_witness :
  square 2 [[0; 2]; [2; 0]]%Q /\
  length ["crux A"; "crux B"] = 2 /\
  exists top,
    top_k_cruxes [[0; 2]; [2; 0]]%Q ["crux A"; "crux B"] 0 = Ok top /\
    length top <= Nat.min (ceil_sqrt 2) 10 /\
    descending (score <$> top).
Proof.
  assert (Hsq : square 2 [[0; 2]; [2; 0]]%Q)
    by (split; [reflexivity | repeat constructor]).
  split; [exact Hsq|]. split; [reflexivity|].
  destruct (top_k_cruxes_bound [[0; 2]; [2; 0]]%Q ["crux A"; "crux B"] 0 2 Hsq eq_refl)
    as (top & E & Hzero & _ & _ & Hdesc).
  exists top. split; [exact E|]. split; [by apply Hzero | exact Hdesc].
Defined.

Example top_k_cruxes_example :
  top_k_cruxes [[0; 1; 3]; [1; 0; 3]; [3; 3; 0]]%Q ["a"; "b"; "c"] 2
  = Ok [mkTopCrux 3 "a" "c"; mkTopCrux 3 "b" "c"].
Proof. reflexivity. Qed.

(** ** Stage 4: crux rows *)

Example full_speaker_map_example :
  full_speaker_map ["Bob"; "Alice"; "Bob"; "Carol"] =
  [("Alice", "0"); ("Bob", "1"); ("Carol", "2")].
Proof. reflexivity. Qed.

Lemma ids_to_speakers_lookup speaker_map id name :
  ids_to_speakers speaker_map !! id = Some name -> (name, id) ∈ speaker_map.
Proof.
  unfold ids_to_speakers.
  assert (H : forall (m : gmap string string),
    fold_left (fun m kv => <[kv.2 := kv.1]> m) speaker_map m !! id = Some name ->
    (name, id) ∈ speaker_map \/ m !! id = Some name).
  { induction speaker_map as [|[k v] sm IH]; intros m; simpl; [by right|].
    intros Hl. destruct (IH _ Hl) as [Hin|Hm].
    - left. by right.
    - destruct (decide (v = id)) as [->|Hne].
      + rewrite lookup_insert_eq in Hm. injection Hm as ->. left. by left.
      + rewrite lookup_insert_ne in Hm by done. by right. }
  intros Hl. destruct (H ∅ Hl) as [Hin|Hm]; [done|].
  by rewrite lookup_empty in Hm.
Qed.

Lemma named_labelled speaker_map entries out :
  named (ids_to_speakers speaker_map) entries = Ok out ->
  Forall2 (labelled speaker_map) entries out.
Proof.
  unfold named. intros H. apply comprehension_inv in H.
  apply Forall2_fmap_l in H.
  eapply Forall2_impl; [exact H|]. clear H.
  intros entry returned. simpl.
  destruct (ids_to_speakers speaker_map !! before_colon entry) as [name|] eqn:Hid;
    simpl; [|done].
  intros [= <-]. exists name. split; [|done].
  by apply ids_to_speakers_lookup.
Qed.

(** The part before the first colon: it has no colon, and the entry is
    either that part alone or that part, a colon and a remainder. *)
Lemma before_colon_spec (a : string) :
  (forall r1 r2, before_colon a <> r1 +:+ ":" +:+ r2) /\
  (a = before_colon a \/ exists rest, a = before_colon a +:+ ":" +:+ rest).
Proof.
  unfold before_colon, split.
  assert (H : forall s acc, exists h,
    hd "" (split_from ":" 0 acc s) = acc +:+ h /\
    (forall r1 r2, h <> r1 +:+ ":" +:+ r2) /\
    (s = h \/ exists rest, s = h +:+ ":" +:+ rest)).
  { induction s as [|c s IH]; intros acc.
    - exists "". split; [by rewrite append_nil_r|]. split; [|by left].
      intros [|? ?] ?; discriminate.
    - rewrite split_from_cons, startswith_cons.
      destruct (Ascii.eqb_spec ":"%char c) as [<-|Hc]; simpl.
      + exists "". split; [by rewrite append_nil_r|]. split.
        * intros [|? ?] ?; discriminate.
        * right. by exists s.
      + destruct (IH (acc +:+ String c "")) as (h & Hh & Hno & Hs).
        exists (String c h). split; [|split].
        * rewrite Hh. by rewrite append_assoc.
        * intros [|c1 r1] r2; rewrite ?append_cons; intros [= E1 E2]; [by subst|].
          by apply (Hno r1 r2).
        * destruct Hs as [->|[rest ->]]; [by left|right]. by exists rest. }
  destruct (H a "") as (h & Hh & Hno & Hs). change ("" +:+ h) with h in Hh.
  by rewrite Hh.
Qed.


Lemma claim_scores_values speaker_map row :
  Forall (fun q => q = 1%Q \/ q = (1 # 2)%Q \/ q = 0%Q) (claim_scores speaker_map row).
Proof.
  unfold claim_scores. apply Forall_fmap, Forall_forall. intros sl _. simpl.
  repeat case_bool_decide; auto.
Qed.


(** C7 (as stated, refuted): with speakers Alice and Bob and an LLM crux
    whose [agree] is ["0:Cats are great"], the returned row lists
    ["0:Alice"], which is not a speaker id; and an id the LLM puts on both
    sides is returned on both sides. *)
Lemma crux_rows_not_bare_ids :
  let speakers := ["Alice"; "Bob"] in
  (exists resp row,
      cruxes_from_tree speakers
        [mkCrux "Cats beat dogs" ["0:Cats are great"] ["1:Dogs are great"] (Some "split")]
        0 = Ok resp /\
      cruxClaims resp = [row] /\
      row_agree row = ["0:Alice"] /\
      ~ (forall a, a ∈ row_agree row ++ row_disagree row ->
                   a ∈ (full_speaker_map speakers).*2)) /\
  (exists resp row,
      cruxes_from_tree speakers
        [mkCrux "Cats beat dogs" ["0:Cats are great"] ["0:Cats shed"] None]
        0 = Ok resp /\
      cruxClaims resp = [row] /\
      ~ bare_speaker_ids (full_speaker_map speakers) row).
Proof.
  split.
  - eexists _, _. split; [vm_compute; reflexivity|]. split; [reflexivity|].
    split; [reflexivity|]. intros H.
    specialize (H "0:Alice" ltac:(by left)).
    vm_compute in H.
    repeat (apply elem_of_cons in H as [H|H]; [discriminate|]).
    by apply elem_of_nil in H.
  - eexists _, _. split; [vm_compute; reflexivity|]. split; [reflexivity|].
    intros [_ H]. apply (H "0:Alice"); by left.
Qed.

(** C7 (amended): in every row returned in [cruxClaims], each element of
    [agree] and of [disagree] is ["<id>:<speaker>"], where [<id>] is the
    part of the corresponding LLM entry before its first colon and
    [<speaker>] is the speaker to whom the speaker map gives that id. *)
Theorem crux_rows_labelled (speakers : list string) (cruxes : list Crux)
    (top_k : Z) (resp : CruxResponse) :
  cruxes_from_tree speakers cruxes top_k = Ok resp ->
  Forall2
    (fun crux row =>
       Forall2 (labelled (full_speaker_map speakers)) (agree crux) (row_agree row) /\
       Forall2 (labelled (full_speaker_map speakers)) (disagree crux) (row_disagree row))
    cruxes (cruxClaims resp).
Proof.
  unfold cruxes_from_tree. intros H.
  destruct (comprehension (crux_row (full_speaker_map speakers)) cruxes)
    as [crux_claims|e] eqn:Hrows; simpl in H; [|done].
  destruct (controversy_matrix _) as [cm|e]; simpl in H; [|done].
  destruct (top_k_cruxes _ _ _) as [top|e]; simpl in H; [|done].
  injection H as <-. simpl.
  apply comprehension_inv in Hrows.
  eapply Forall2_impl; [exact Hrows|]. clear Hrows.
  intros crux row. unfold crux_row.
  destruct (named _ (agree crux)) as [na|e] eqn:Ha; simpl; [|done].
  destruct (named _ (disagree crux)) as [nd|e] eqn:Hd; simpl; [|done].
  intros [= <-]. simpl. split; by apply named_labelled.
Qed.

Lemma crux_rows_labelled_witness :
  exists resp,
    cruxes_from_tree ["Alice"; "Bob"]
      [mkCrux "Cats beat dogs" ["0:Cats are great"] ["1:Dogs are great"] (Some "split")]
      0 = Ok resp /\
    Forall2
      (fun crux row =>
         Forall2 (labelled (full_speaker_map ["Alice"; "Bob"])) (agree crux) (row_agree row) /\
         Forall2 (labelled (full_speaker_map ["Alice"; "Bob"])) (disagree crux) (row_disagree row))
      [mkCrux "Cats beat dogs" ["0:Cats are great"] ["1:Dogs are great"] (Some "split")]
      (cruxClaims resp).
Proof.
  eexists. split; [vm_compute; reflexivity|].
  apply (crux_rows_labelled ["Alice"; "Bob"] _ 0). vm_compute. reflexivity.
Defined.

(** ** Stage 1: what the normalization returns *)

Lemma dict_set_same {V} (k : string) (v : V) (d : list (string * V)) :
  dict_get k d = Some v -> dict_set k v d = d.
Proof.
  induction d as [|[k' v'] d IH]; simpl; [done|].
  destruct (decide (k = k')) as [->|Hne]; [by intros [= ->]|].
  intros H. by rewrite IH.
Qed.

Lemma comprehension_raise {A B} (f : A -> result B) l x e :
  x ∈ l -> f x = Raise e -> exists e', comprehension f l = Raise e'.
Proof.
  induction l as [|y l IH]; [by intros ?%elem_of_nil|].
  intros [->|Hin]%elem_of_cons Hx; simpl.
  - rewrite Hx. by eexists.
  - destruct (f y); [|by eexists]. simpl.
    destruct (IH Hin Hx) as [e' ->]. by eexists.
Qed.

(** The taxonomy of the normalized tree is always there and always a list. *)
Lemma normalized_tree_taxonomy content tree :
  normalized_tree content = Ok tree ->
  exists topics, dict_get "taxonomy" tree = Some (JArr topics) /\
    Forall (fun topic => forall fields, topic = JObj fields ->
                           is_Some (subtopics_of topic)) topics.
Proof.
  unfold normalized_tree.
  destruct content as [content|]; [|discriminate]. simpl.
  destruct (extract_json_from_response content) as [answer|]; [|discriminate]. simpl.
  set (t0 := match answer with JObj fields => fields | _ => [("taxonomy", JArr [])] end).
  set (t1 := if dict_has "taxonomy" t0 then t0 else dict_set "taxonomy" (JArr []) t0).
  set (t2 := match dict_get "taxonomy" t1 with
             | Some (JArr _) => t1
             | _ => dict_set "taxonomy" (JArr []) t1
             end).
  assert (exists topics, dict_get "taxonomy" t2 = Some (JArr topics)) as [topics Ht].
  { unfold t2. destruct (dict_get "taxonomy" t1) as [[]|] eqn:E;
      try (rewrite dict_get_set_eq; by eexists). by eexists. }
  rewrite Ht.
  destruct (comprehension normalize_topic topics) as [topics'|] eqn:Hc; [|discriminate].
  simpl. intros [= <-]. exists topics'. rewrite dict_get_set_eq. split; [done|].
  apply comprehension_inv in Hc. clear Ht.
  induction Hc as [|x y xs ys Hxy _ IH]; constructor; [|done].
  intros fields ->. destruct x as [| | | | | |fields0]; try (simpl in Hxy; discriminate).
  apply normalize_topic_subtopics in Hxy.
  destruct (subtopics_of (JObj fields0)) eqn:Hs.
  - injection Hxy as ->. by rewrite Hs.
  - destruct Hxy as (name & _ & ->). done.
Qed.

(** Whatever the LLM answers, and also without an answer, the taxonomy
    [comments_to_tree] returns is a list, and every dictionary in it has
    a [subtopics] list. *)
Theorem comments_to_tree_is_list (content : option string) :
  exists topics,
    comments_to_tree content = JArr topics /\
    forall topic fields, topic ∈ topics -> topic = JObj fields ->
      exists subs, subtopics_of topic = Some subs.
Proof.
  unfold comments_to_tree.
  destruct (normalized_tree content) as [tree|] eqn:Hn.
  - destruct (normalized_tree_taxonomy _ _ Hn) as (topics & -> & Hall).
    exists topics. split; [done|]. intros topic fields Hin ->.
    rewrite Forall_forall in Hall. by destruct (Hall _ Hin fields eq_refl) as [subs ?]; exists subs.
  - exists []. split; [done|]. by intros ? ? ?%elem_of_nil.
Qed.

Lemma normalize_well_formed topics :
  Forall well_formed_topic topics -> comprehension normalize_topic topics = Ok topics.
Proof.
  induction 1 as [|x xs Hx _ IH]; [done|]. simpl. rewrite IH.
  destruct x as [| | | | | |fields]; try done.
  destruct Hx as [subs Hx]. unfold normalize_topic. unfold subtopics_of in Hx.
  by destruct (dict_get "subtopics" fields) as [[]|].
Qed.

(** A decoded dictionary whose [taxonomy] is a list of topics that all
    have a [subtopics] list is returned as it is: the normalization
    changes nothing. *)
Theorem well_formed_taxonomy_unchanged (content : string) fields topics :
  extract_json_from_response content = Ok (JObj fields) ->
  dict_get "taxonomy" fields = Some (JArr topics) ->
  Forall well_formed_topic topics ->
  comments_to_tree (Some content) = JArr topics.
Proof.
  intros He Ht Hwf. unfold comments_to_tree, normalized_tree. simpl. rewrite He. simpl.
  unfold dict_has. repeat rewrite Ht. rewrite (normalize_well_formed _ Hwf). simpl.
  by rewrite dict_get_set_eq.
Qed.

Lemma well_formed_taxonomy_unchanged_witness :
  comments_to_tree
    (Some (dq "{'taxonomy': [{'topicName': 'Pets', 'subtopics': [{'subtopicName': 'Cats'}]}, 7]}"))
  = JArr [JObj [("topicName", JStr "Pets");
                ("subtopics", JArr [JObj [("subtopicName", JStr "Cats")]])];
          JInt 7].
Proof.
  eapply (well_formed_taxonomy_unchanged _ _ _).
  - vm_compute. reflexivity.
  - vm_compute. reflexivity.
  - repeat constructor. by eexists.
Defined.

(** One topic without a [subtopics] list whose [topicName] is not a
    string loses the whole taxonomy: the [AttributeError] of
    [topic_name.lower()] is caught and the empty taxonomy returned. *)
Theorem unnamed_topic_discards_taxonomy (content : string) fields topics topic_fields name :
  extract_json_from_response content = Ok (JObj fields) ->
  dict_get "taxonomy" fields = Some (JArr topics) ->
  JObj topic_fields ∈ topics ->
  subtopics_of (JObj topic_fields) = None ->
  dict_get "topicName" topic_fields = Some name ->
  (forall s, name <> JStr s) ->
  comments_to_tree (Some content) = JArr [].
Proof.
  intros He Ht Hin Hs Hn Hstr. unfold comments_to_tree, normalized_tree. simpl.
  rewrite He. simpl. unfold dict_has. repeat rewrite Ht.
  destruct (comprehension_raise normalize_topic topics (JObj topic_fields) AttributeError Hin)
    as [e ->]; [|done].
  unfold normalize_topic. unfold subtopics_of in Hs. rewrite Hn. simpl.
  destruct (dict_get "subtopics" topic_fields) as [[]|]; try done;
    destruct name; try done; exfalso; by eapply Hstr.
Qed.

Lemma unnamed_topic_discards_taxonomy_witness :
  comments_to_tree
    (Some (dq "{'taxonomy': [{'topicName': 'Pets', 'subtopics': []}, {'topicName': 7}]}"))
  = JArr [].
Proof.
  eapply (unnamed_topic_discards_taxonomy _ _ _ [("topicName", JInt 7)] (JInt 7)).
  - vm_compute. reflexivity.
  - vm_compute. reflexivity.
  - apply elem_of_cons. right. apply elem_of_cons. left. reflexivity.
  - reflexivity.
  - reflexivity.
  - intros s. discriminate.
Defined.

(** ** Stage 2: the buckets and the totals of the returned tree *)

Lemma filed_under_empty topic sub : filed_under topic sub empty_bucket.
Proof.
  split; [done|]. split; [constructor|]. intros x. simpl. split; [set_solver|].
  by intros (c & Hc%elem_of_nil & _).
Qed.

Lemma filed_under_first topic sub c :
  claim_topicName c = Some topic -> claim_subtopicName c = Some sub ->
  filed_under topic sub (mkSubtopicBucket 1 [c] {[speaker c]}).
Proof.
  intros Ht Hs. split; [done|]. split; [by repeat constructor|]. intros x. simpl.
  rewrite elem_of_singleton. split.
  - intros ->. exists c. split; [by left|done].
  - intros (c' & Hc'%list_elem_of_singleton & <-). by subst.
Qed.

Lemma filed_under_next topic sub c sb :
  claim_topicName c = Some topic -> claim_subtopicName c = Some sub ->
  filed_under topic sub sb ->
  filed_under topic sub
    (mkSubtopicBucket (total sb + 1) (claims sb ++ [c]) ({[speaker c]} ∪ speakers sb)).
Proof.
  intros Ht Hs (Htot & Hall & Hsp). split; [|split]; simpl.
  - rewrite length_app. simpl. lia.
  - apply Forall_app. split; [done|]. by repeat constructor.
  - intros x. rewrite elem_of_union, elem_of_singleton, Hsp. split.
    + intros [->|(c' & Hc' & <-)].
      * exists c. split; [|done]. apply elem_of_app. right. by left.
      * exists c'. split; [|done]. apply elem_of_app. by left.
    + intros (c' & [Hc'|Hc'%list_elem_of_singleton]%elem_of_app & <-).
      * right. by exists c'.
      * left. by subst.
Qed.

Lemma place_claim_assigned taxonomy nc c :
  place_claim taxonomy nc c =
  match assign_default taxonomy c with
  | None => Ok nc
  | Some c =>
      let topic := default "" (claim_topicName c) in
      match nc !! topic with
      | Some bucket =>
          let subs :=
            match claim_subtopicName c with
            | Some sub =>
                match topic_subtopics bucket !! sub with
                | Some sb =>
                    <[sub := mkSubtopicBucket (total sb + 1) (claims sb ++ [c])
                                              ({[speaker c]} ∪ speakers sb)]>
                      (topic_subtopics bucket)
                | None =>
                    <[sub := mkSubtopicBucket 1 [c] {[speaker c]}]> (topic_subtopics bucket)
                end
            | None => topic_subtopics bucket
            end in
          Ok (<[topic := mkTopicBucket (topic_total bucket + 1)
                                       ({[speaker c]} ∪ topic_speakers bucket) subs]>
                nc)
      | None =>
          sub ← claim_subtopicName c ?! KeyError;
          Ok (<[topic := mkTopicBucket 1 {[speaker c]}
                           {[sub := mkSubtopicBucket 1 [c] {[speaker c]}]}]>
                nc)
      end
  end.
Proof. reflexivity. Qed.

Lemma assign_default_topic taxonomy c c' :
  assign_default taxonomy c = Some c' ->
  exists topic, claim_topicName c' = Some topic /\ counted_under taxonomy c = Some topic /\
                speaker c' = speaker c.
Proof.
  unfold counted_under. intros H. rewrite H. simpl. unfold assign_default in H.
  destruct (claim_topicName c) as [t|] eqn:Ht.
  - injection H as <-. by exists t.
  - destruct taxonomy as [[|first ?]|]; try discriminate. injection H as <-. simpl. by eexists.
Qed.

Lemma place_claim_consistent taxonomy nc c nc' :
  place_claim taxonomy nc c = Ok nc' -> consistent nc -> consistent nc'.
Proof.
  rewrite place_claim_assigned.
  destruct (assign_default taxonomy c) as [c'|] eqn:Ha; [|by intros [= <-]].
  destruct (assign_default_topic _ _ _ Ha) as (topic & Ht & _). rewrite Ht. simpl.
  intros Hplace Hnc t b s sb Hb Hsb.
  destruct (nc !! topic) as [bucket|] eqn:Hbucket.
  - injection Hplace as <-.
    destruct (decide (t = topic)) as [->|Hne];
      [|rewrite lookup_insert_ne in Hb by done; by eapply Hnc].
    rewrite lookup_insert_eq in Hb. injection Hb as <-. simpl in Hsb.
    destruct (claim_subtopicName c') as [sub|] eqn:Hsub; [|by eapply Hnc].
    destruct (topic_subtopics bucket !! sub) as [sb0|] eqn:Hsb0.
    + destruct (decide (s = sub)) as [->|Hs];
        [|rewrite lookup_insert_ne in Hsb by done; by eapply Hnc].
      rewrite lookup_insert_eq in Hsb. injection Hsb as <-.
      apply filed_under_next; [done..|]. by eapply Hnc.
    + destruct (decide (s = sub)) as [->|Hs];
        [|rewrite lookup_insert_ne in Hsb by done; by eapply Hnc].
      rewrite lookup_insert_eq in Hsb. injection Hsb as <-.
      by apply filed_under_first.
  - destruct (claim_subtopicName c') as [sub|] eqn:Hsub; [|discriminate].
    simpl in Hplace. injection Hplace as <-.
    destruct (decide (t = topic)) as [->|Hne];
      [|rewrite lookup_insert_ne in Hb by done; by eapply Hnc].
    rewrite lookup_insert_eq in Hb. injection Hb as <-. simpl in Hsb.
    apply lookup_singleton_Some in Hsb as [<- <-]. by apply filed_under_first.
Qed.

Lemma place_claims_consistent taxonomy claims : forall nc nc',
  place_claims taxonomy nc claims = Ok nc' -> consistent nc -> consistent nc'.
Proof.
  induction claims as [|c claims IH]; intros nc nc'; simpl; [by intros [= <-]|].
  destruct (place_claim taxonomy nc c) as [nc1|] eqn:H1; [|discriminate]. simpl.
  intros H Hnc. eapply IH; [done|]. by eapply place_claim_consistent.
Qed.

Lemma cover_subtopic_consistent topic sub nc :
  consistent nc -> consistent (cover_subtopic topic nc sub).
Proof.
  intros Hnc t b s sb. unfold cover_subtopic.
  destruct (nc !! topic) as [bucket|] eqn:Hbucket.
  - destruct (topic_subtopics bucket !! sub) eqn:Hs; [apply Hnc|].
    destruct (decide (t = topic)) as [->|Hne];
      [|rewrite lookup_insert_ne by done; apply Hnc].
    rewrite lookup_insert_eq. intros [= <-]. simpl.
    destruct (decide (s = sub)) as [->|Hne];
      [|rewrite lookup_insert_ne by done; by apply Hnc].
    rewrite lookup_insert_eq. intros [= <-]. apply filed_under_empty.
  - destruct (decide (t = topic)) as [->|Hne];
      [|rewrite lookup_insert_ne by done; apply Hnc].
    rewrite lookup_insert_eq. intros [= <-]. simpl.
    intros [<- <-]%lookup_singleton_Some. apply filed_under_empty.
Qed.

Lemma cover_pairs_consistent pairs : forall nc,
  consistent nc -> consistent (fold_left cover_pair pairs nc).
Proof.
  induction pairs as [|p pairs IH]; intros nc Hnc; simpl; [done|].
  apply IH. by apply cover_subtopic_consistent.
Qed.

(** Every bucket of the returned tree agrees with its claims: [total] is
    their number, [speakers] are their speakers, and each claim names the
    topic and the subtopic it is filed under. *)
Theorem buckets_agree_with_claims (taxonomy : option (list Topic))
    (comms_to_claims : list Claim) (tree : gmap string TopicBucket) :
  all_comments_to_claims taxonomy comms_to_claims = Ok tree -> consistent tree.
Proof.
  unfold all_comments_to_claims.
  destruct (place_claims taxonomy ∅ comms_to_claims) as [placed|] eqn:Hp; [|discriminate].
  simpl. destruct taxonomy as [topics|]; [|discriminate]. simpl. intros [= <-].
  rewrite cover_all_pairs. apply cover_pairs_consistent.
  eapply place_claims_consistent; [done|].
  intros t b s sb Hb. by rewrite lookup_empty in Hb.
Qed.

Lemma buckets_agree_with_claims_witness :
  exists tree,
    all_comments_to_claims
      (Some [mkTopic "Pets" "Household pets" (Some [mkSubtopic "Cats" "About cats"])])
      [mkClaim "Cats are the best pets." "I love cats" None None "c1" "Alice"] = Ok tree /\
    consistent tree.
Proof.
  eexists. split; [reflexivity|].
  apply (buckets_agree_with_claims
           (Some [mkTopic "Pets" "Household pets" (Some [mkSubtopic "Cats" "About cats"])])
           [mkClaim "Cats are the best pets." "I love cats" None None "c1" "Alice"]).
  reflexivity.
Defined.

(** *** Topic totals *)
Lemma filter_none {A} (P : A -> Prop) `{forall x, Decision (P x)} (l : list A) :
  (forall x, x ∈ l -> ~ P x) -> filter P l = [].
Proof.
  induction l as [|x l IH]; intros Hl; [done|].
  rewrite filter_cons_False by (apply Hl; by left).
  apply IH. intros y Hy. apply Hl. by right.
Qed.

Lemma tallied_place taxonomy done nc c nc' :
  place_claim taxonomy nc c = Ok nc' ->
  tallied taxonomy done nc -> tallied taxonomy (done ++ [c]) nc'.
Proof.
  rewrite place_claim_assigned.
  destruct (assign_default taxonomy c) as [c'|] eqn:Ha.
  - destruct (assign_default_topic _ _ _ Ha) as (topic & Ht & Hcount & Hsp).
    rewrite Ht. simpl. intros Hplace Hnc t.
    assert (exists b, nc' = <[topic := b]> nc /\
              topic_total b = default 0 (topic_total <$> nc !! topic) + 1 /\
              topic_speakers b = {[speaker c]} ∪ default ∅ (topic_speakers <$> nc !! topic))
      as (b & -> & Htot & Hspk).
    { destruct (nc !! topic) as [bucket|] eqn:Hbucket.
      - injection Hplace as <-. eexists. split; [done|]. simpl. by rewrite Hsp.
      - destruct (claim_subtopicName c'); [|discriminate]. simpl in Hplace.
        injection Hplace as <-. eexists. split; [done|]. simpl.
        rewrite Hsp. split; [done|]. by rewrite (right_id_L ∅ (∪)). }
    rewrite filter_app, length_app. specialize (Hnc t).
    destruct (decide (t = topic)) as [->|Hne].
    + rewrite lookup_insert_eq. rewrite Htot, Hspk.
      rewrite filter_cons_True by done. simpl.
      destruct (nc !! topic) as [bucket|]; simpl.
      * destruct Hnc as [Hn Hs]. split; [lia|]. intros x.
        rewrite elem_of_union, elem_of_singleton, Hs. split.
        -- intros [->|(c0 & Hc0 & Hx)].
           ++ exists c. split; [|done]. apply elem_of_app. right. by left.
           ++ exists c0. split; [|done]. apply elem_of_app. by left.
        -- intros (c0 & [Hc0|Hc0%list_elem_of_singleton]%elem_of_app & Hk & <-).
           ++ right. by exists c0.
           ++ left. by subst.
      * split.
        -- rewrite filter_none; [done|]. intros x Hx. by apply Hnc.
        -- intros x. rewrite elem_of_union, elem_of_singleton. split.
           ++ intros [->|?]; [|set_solver]. exists c. split; [|done].
              apply elem_of_app. right. by left.
           ++ intros (c0 & [Hc0|Hc0%list_elem_of_singleton]%elem_of_app & Hk & <-).
              ** by destruct (Hnc _ Hc0).
              ** left. by subst.
    + rewrite lookup_insert_ne by done.
      rewrite filter_cons_False by congruence. simpl. rewrite Nat.add_0_r.
      destruct (nc !! t) as [bucket|].
      * destruct Hnc as [Hn Hs]. split; [done|]. intros x. rewrite Hs. split.
        -- intros (c0 & Hc0 & Hx). exists c0. split; [|done]. apply elem_of_app. by left.
        -- intros (c0 & [Hc0|Hc0%list_elem_of_singleton]%elem_of_app & Hk & <-).
           ++ by exists c0.
           ++ subst c0. congruence.
      * intros c0 [Hc0|Hc0%list_elem_of_singleton]%elem_of_app; [by apply Hnc|].
        subst c0. congruence.
  - intros [= <-] Hnc t. specialize (Hnc t).
    assert (counted_under taxonomy c = None) as Hc by (unfold counted_under; by rewrite Ha).
    rewrite filter_app, length_app. rewrite filter_cons_False by congruence.
    simpl. rewrite Nat.add_0_r.
    destruct (nc !! t) as [bucket|].
    + destruct Hnc as [Hn Hs]. split; [done|]. intros x. rewrite Hs. split.
      * intros (c0 & Hc0 & Hx). exists c0. split; [|done]. apply elem_of_app. by left.
      * intros (c0 & [Hc0|Hc0%list_elem_of_singleton]%elem_of_app & Hk & <-).
        -- by exists c0.
        -- subst c0. congruence.
    + intros c0 [Hc0|Hc0%list_elem_of_singleton]%elem_of_app; [by apply Hnc|].
      subst c0. congruence.
Qed.

Lemma tallied_place_claims taxonomy claims : forall done nc nc',
  place_claims taxonomy nc claims = Ok nc' ->
  tallied taxonomy done nc -> tallied taxonomy (done ++ claims) nc'.
Proof.
  induction claims as [|c claims IH]; intros done nc nc'; simpl.
  - intros [= <-]. by rewrite app_nil_r.
  - destruct (place_claim taxonomy nc c) as [nc1|] eqn:H1; [|discriminate]. simpl.
    intros H Hnc. rewrite cons_middle, app_assoc. eapply IH; [done|].
    by eapply tallied_place.
Qed.

Lemma tallied_cover taxonomy done topic sub nc :
  tallied taxonomy done nc -> tallied taxonomy done (cover_subtopic topic nc sub).
Proof.
  intros Hnc t. specialize (Hnc t). unfold cover_subtopic.
  destruct (nc !! topic) as [bucket|] eqn:Hbucket.
  - destruct (topic_subtopics bucket !! sub); [done|].
    destruct (decide (t = topic)) as [->|Hne]; [|by rewrite lookup_insert_ne].
    rewrite lookup_insert_eq. simpl. by rewrite Hbucket in Hnc.
  - destruct (decide (t = topic)) as [->|Hne]; [|by rewrite lookup_insert_ne].
    rewrite lookup_insert_eq. simpl. rewrite Hbucket in Hnc. split.
    + rewrite filter_none; [done|]. intros x Hx. by apply Hnc.
    + intros x. split; [set_solver|]. intros (c & Hc & Hk & _). by destruct (Hnc _ Hc).
Qed.

Lemma tallied_cover_pairs taxonomy done pairs : forall nc,
  tallied taxonomy done nc -> tallied taxonomy done (fold_left cover_pair pairs nc).
Proof.
  induction pairs as [|p pairs IH]; intros nc Hnc; simpl; [done|].
  apply IH. by apply tallied_cover.
Qed.

(** The [total] of a topic is the number of claims counted under it and
    its [speakers] are their speakers; a topic that is not a key of the
    tree received no claim. *)
Theorem topic_totals_count_claims (taxonomy : option (list Topic))
    (comms_to_claims : list Claim) (tree : gmap string TopicBucket) :
  all_comments_to_claims taxonomy comms_to_claims = Ok tree ->
  tallied taxonomy comms_to_claims tree.
Proof.
  unfold all_comments_to_claims.
  destruct (place_claims taxonomy ∅ comms_to_claims) as [placed|] eqn:Hp; [|discriminate].
  simpl. destruct taxonomy as [topics|] eqn:Ht; [|discriminate]. simpl. intros [= <-].
  rewrite cover_all_pairs. apply tallied_cover_pairs.
  apply (tallied_place_claims _ _ [] ∅ placed Hp).
  intros t. rewrite lookup_empty. by intros c ?%elem_of_nil.
Qed.

Lemma topic_totals_count_claims_witness :
  exists tree,
    all_comments_to_claims
      (Some [mkTopic "Pets" "Household pets" (Some [mkSubtopic "Cats" "About cats"])])
      [mkClaim "Cats are the best pets." "I love cats" None None "c1" "Alice"] = Ok tree /\
    tallied (Some [mkTopic "Pets" "Household pets" (Some [mkSubtopic "Cats" "About cats"])])
      [mkClaim "Cats are the best pets." "I love cats" None None "c1" "Alice"] tree.
Proof.
  eexists. split; [reflexivity|].
  apply (topic_totals_count_claims
           (Some [mkTopic "Pets" "Household pets" (Some [mkSubtopic "Cats" "About cats"])])
           [mkClaim "Cats are the best pets." "I love cats" None None "c1" "Alice"]).
  reflexivity.
Defined.










(** ** Stage 2: the claims of one comment *)

Lemma dict_get_set_ne {V} (k k' : string) (v : V) (d : list (string * V)) :
  k <> k' -> dict_get k (dict_set k' v d) = dict_get k d.
Proof.
  intros Hne. induction d as [|[k0 v0] d IH]; simpl.
  - by destruct (decide (k = k')).
  - destruct (decide (k' = k0)) as [->|Hk0]; simpl.
    + by destruct (decide (k = k0)).
    + destruct (decide (k = k0)); [done|apply IH].
Qed.

Lemma tag_claim_fields comment claim tagged :
  tag_claim comment claim = Ok tagged ->
  dict_get "commentId" tagged = Some (JStr (comment_id comment)) /\
  dict_get "speaker" tagged = Some (JStr (comment_speaker comment)) /\
  exists fields, claim = JObj fields /\
    forall k, k <> "commentId" -> k <> "speaker" -> dict_get k tagged = dict_get k fields.
Proof.
  destruct claim as [| | | | | |fields]; try discriminate. intros [= <-].
  rewrite dict_get_set_ne by done. rewrite !dict_get_set_eq. repeat split.
  exists fields. split; [done|]. intros k H1 H2. by rewrite !dict_get_set_ne.
Qed.

(** Whatever the LLM answers, every claim collected for a comment carries
    the id and the speaker of that comment, and otherwise the fields of one
    element of the answer's [claims] list. *)
Theorem collected_claims_are_tagged (comment : Comment) (content : option string) :
  Forall
    (fun tagged =>
       dict_get "commentId" tagged = Some (JStr (comment_id comment)) /\
       dict_get "speaker" tagged = Some (JStr (comment_speaker comment)))
    (claims_of_comment comment (comment_to_claims content)).
Proof.
  unfold claims_of_comment.
  destruct (dict_has "claims" (comment_to_claims content)).
  2: { simpl. constructor. }
  destruct (dict_get "claims" (comment_to_claims content)) as [v|]; [|constructor].
  simpl. destruct (iterate v) as [items|]; [|constructor]. simpl.
  destruct (comprehension (tag_claim comment) items) as [tagged|] eqn:Hc; [|constructor].
  simpl. destruct v; try constructor.
  apply comprehension_inv in Hc. clear -Hc.
  induction Hc as [|x y xs ys Hxy _ IH]; constructor; [|done].
  by destruct (tag_claim_fields _ _ _ Hxy) as (? & ? & _).
Qed.

(** The claims of a comment are kept all or none: when the answer's
    [claims] is a list of dictionaries, each is kept with the two tags
    and its other fields as they are; in every other case no claim of the
    comment is kept. *)
Theorem claims_kept_all_or_none (comment : Comment) (response_claims : claim_dict) :
  match dict_get "claims" response_claims with
  | Some (JArr items) =>
      (Forall (fun item => exists fields, item = JObj fields) items /\
       Forall2
         (fun item tagged =>
            exists fields, item = JObj fields /\
              forall k, k <> "commentId" -> k <> "speaker" ->
                dict_get k tagged = dict_get k fields)
         items (claims_of_comment comment response_claims)) \/
      (Exists (fun item => forall fields, item <> JObj fields) items /\
       claims_of_comment comment response_claims = [])
  | _ => claims_of_comment comment response_claims = []
  end.
Proof.
  unfold claims_of_comment, dict_has.
  destruct (dict_get "claims" response_claims) as [v|] eqn:Hv; [|done].
  rewrite Hv. simpl.
  destruct v as [| | | |s|items|fields]; try done.
  - simpl. destruct (comprehension _ _) as [tagged|]; [|done]. done.
  - simpl. destruct (comprehension (tag_claim comment) items) as [tagged|] eqn:Hc.
    + left. simpl. apply comprehension_inv in Hc. clear -Hc.
      induction Hc as [|x y xs ys Hxy _ [IH1 IH2]]; [by split|].
      destruct (tag_claim_fields _ _ _ Hxy) as (_ & _ & fields & -> & Hk).
      split; constructor; try done; by exists fields.
    + right. split; [|done]. clear -Hc.
      induction items as [|x xs IH]; [discriminate|]. simpl in Hc.
      destruct (tag_claim comment x) as [y|] eqn:Hx.
      * right. apply IH. simpl in Hc. by destruct (comprehension _ xs).
      * left. intros fields ->. discriminate.
  - simpl. destruct (comprehension _ _) as [tagged|]; [|done]. done.
Qed.

(** ** Stage 3: the closed nesting is symmetric *)

Lemma for_enumerate_invariant {A St} (body : nat -> A -> St -> result St)
    (P : St -> Prop) l : forall start s s',
  (forall i x s s', x ∈ l -> body i x s = Ok s' -> P s -> P s') ->
  for_enumerate body start l s = Ok s' -> P s -> P s'.
Proof.
  induction l as [|x l IH]; intros start s s' Hbody; simpl; [by intros [= <-]|].
  destruct (body start x s) as [s1|] eqn:H1; [|discriminate]. simpl.
  intros H Hs. eapply IH; [|done|].
  - intros i y t t' Hy. apply Hbody. by right.
  - eapply Hbody; [|done..]. by left.
Qed.

Lemma others_elem i (all_dupes : list Z) y :
  y ∈ others i all_dupes <-> exists j, j <> i /\ all_dupes !! j = Some y.
Proof.
  unfold others. rewrite elem_of_app, !list_elem_of_lookup. split.
  - intros [[j Hj]|[j Hj]].
    + apply lookup_take_Some in Hj as [Hj Hlt]. exists j. split; [lia|done].
    + rewrite lookup_drop in Hj. exists (S i + j). split; [lia|done].
  - intros (j & Hne & Hj). destruct (decide (j < i)).
    + left. exists j. by rewrite lookup_take_lt.
    + right. exists (j - S i). rewrite lookup_drop. rewrite <- Hj. f_equal. lia.
Qed.

Lemma append_missing_elem other_ids : forall known y,
  y ∈ append_missing known other_ids <-> y ∈ known \/ y ∈ other_ids.
Proof.
  unfold append_missing.
  induction other_ids as [|o other_ids IH]; intros known y; simpl.
  - split; [by left|]. by intros [?|?%elem_of_nil].
  - rewrite IH, elem_of_cons. case_bool_decide as Ho.
    + split; [tauto|]. intros [?|[->|?]]; tauto.
    + rewrite elem_of_app, list_elem_of_singleton. tauto.
Qed.

Lemma close_from_listed (all_dupes : list Z) rest : forall i claim_set a b,
  drop i all_dupes = rest ->
  listed (close_from i rest all_dupes claim_set) a b <->
  listed claim_set a b \/
  exists i' j, i <= i' /\ j <> i' /\ all_dupes !! i' = Some a /\ all_dupes !! j = Some b.
Proof.
  induction rest as [|dupe rest IH]; intros i cs a b Hdrop; simpl.
  - split; [by left|]. intros [?|(i' & j & Hi & _ & Ha & _)]; [done|].
    apply drop_nil_inv in Hdrop. apply lookup_lt_Some in Ha. lia.
  - assert (all_dupes !! i = Some dupe) as Hi.
    { rewrite <- (Nat.add_0_r i), <- lookup_drop, Hdrop. done. }
    assert (drop (S i) all_dupes = rest) as Hrest.
    { rewrite (drop_S _ _ _ Hi) in Hdrop. by injection Hdrop. }
    rewrite IH by done. clear IH.
    set (other_ids := others i all_dupes).
    assert (forall cs1,
              cs1 = match cs !! dupe with
                    | Some known => <[dupe := append_missing known other_ids]> cs
                    | None => <[dupe := other_ids]> cs
                    end ->
              (listed cs1 a b <-> listed cs a b \/ (a = dupe /\ b ∈ other_ids))) as Hstep.
    { intros cs1 ->. unfold listed. destruct (decide (a = dupe)) as [->|Hne].
      - destruct (cs !! dupe) as [known|] eqn:Hk; rewrite lookup_insert_eq.
        + split.
          * intros (l & [= <-] & Hb). apply append_missing_elem in Hb as [Hb|Hb].
            -- left. by exists known.
            -- by right.
          * intros [(l & [= <-] & Hb)|[_ Hb]]; eexists; (split; [done|]);
              apply append_missing_elem; tauto.
        + split.
          * intros (l & [= <-] & Hb). by right.
          * intros [(l & [=] & _)|[_ Hb]]. by eexists.
      - destruct (cs !! dupe); rewrite lookup_insert_ne by done; split;
          try (intros [?|[? _]]; done); by left. }
    rewrite (Hstep _ eq_refl). unfold other_ids. rewrite others_elem. split.
    + intros [[H|[-> (j & Hj & Hb)]]|(i' & j & Hle & Hne & Ha & Hb)].
      * by left.
      * right. exists i, j. by repeat split.
      * right. exists i', j. repeat split; [lia|done..].
    + intros [H|(i' & j & Hle & Hne & Ha & Hb)]; [by left; left|].
      destruct (decide (i' = i)) as [->|Hi'].
      * left. right. split; [congruence|]. by exists j.
      * right. exists i', j. repeat split; [lia|done..].
Qed.

Lemma nesting_entry_symmetric claim_set entry claim_set' :
  nesting_entry claim_set entry = Ok claim_set' ->
  (forall a b, listed claim_set a b -> listed claim_set b a) ->
  forall a b, listed claim_set' a b -> listed claim_set' b a.
Proof.
  unfold nesting_entry.
  destruct (py_len entry.2) as [n|]; [|discriminate]. cbn -[close_from Nat.ltb].
  destruct (0 <? n); [|by intros [= <-]].
  destruct (parse_claim_key entry.1) as [claim_id|]; [|discriminate]. cbn -[close_from].
  destruct (comprehension _ _) as [dupe_ids|]; [|discriminate]. cbn -[close_from].
  intros [= <-] Hsym a b.
  rewrite !(close_from_listed (claim_id :: dupe_ids) (claim_id :: dupe_ids) 0 claim_set)
    by done.
  intros [H|(i & j & _ & Hne & Ha & Hb)]; [left; by apply Hsym|].
  right. exists j, i. repeat split; [lia|done..].
Qed.

(** The duplicate relation that [sort_claims_tree] builds from the
    nesting is symmetric, whatever the nesting says: when [b] is listed
    under [a], [a] is listed under [b]. *)
Theorem claim_set_is_symmetric (deduped : claim_dict) (claim_set : gmap Z (list Z))
    (a b : Z) :
  build_claim_set deduped = Ok claim_set ->
  listed claim_set a b -> listed claim_set b a.
Proof.
  unfold build_claim_set.
  destruct (dict_get "nesting" deduped) as [[| | | | | |nesting]|]; try discriminate.
  - intros Hloop. revert a b. unfold for_each in Hloop.
    eapply (for_enumerate_invariant _
              (fun cs => forall a b, listed cs a b -> listed cs b a)); [|exact Hloop|].
    + intros i x s s' _ Hx. by apply (nesting_entry_symmetric s x).
    + intros a b (l & Hl & _). by rewrite lookup_empty in Hl.
  - intros [= <-] (l & Hl & _). by rewrite lookup_empty in Hl.
Qed.

Lemma claim_set_is_symmetric_witness :
  exists claim_set,
    build_claim_set
      [("nesting", JObj [("claimId0", JArr []);
                         ("claimId2", JArr [JStr "claimId0"; JStr "claimId1"])])]
    = Ok claim_set /\
    listed claim_set 0 2.
Proof.
  eexists. split; [reflexivity|].
  apply (claim_set_is_symmetric
           [("nesting", JObj [("claimId0", JArr []);
                              ("claimId2", JArr [JStr "claimId0"; JStr "claimId1"])])]
           _ 2 0 eq_refl).
  eexists. split; [vm_compute; reflexivity|]. apply elem_of_cons. left. reflexivity.
Defined.

(** ** Stage 3: the order of the sorted tree *)

Lemma for_enumerate_prefix {A St} (body : nat -> A -> St -> result St)
    (P : list A -> St -> Prop) (whole : list A) : forall l done start s s',
  whole = done ++ l ->
  (forall i done x rest s s',
      whole = done ++ x :: rest -> body i x s = Ok s' -> P done s -> P (done ++ [x]) s') ->
  for_enumerate body start l s = Ok s' -> P done s -> P whole s'.
Proof.
  induction l as [|x l IH]; intros done start s s' Hwhole Hbody; simpl.
  - intros [= <-]. by rewrite Hwhole, app_nil_r.
  - destruct (body start x s) as [s1|] eqn:H1; [|discriminate]. simpl.
    intros H Hs. eapply (IH (done ++ [x])); [|done..|].
    + by rewrite <- app_assoc.
    + eapply Hbody; [|done..]. done.
Qed.

Lemma for_enumerate_ext {A St} (body1 body2 : nat -> A -> St -> result St) l :
  forall start s,
  (forall i x s, x ∈ l -> body1 i x s = body2 i x s) ->
  for_enumerate body1 start l s = for_enumerate body2 start l s.
Proof.
  induction l as [|x l IH]; intros start s Hext; simpl; [done|].
  rewrite Hext by (by left). destruct (body2 start x s); simpl; [|done].
  apply IH. intros i y t Hy. apply Hext. by right.
Qed.

(** *** Sorting *)
Lemma insert_by_perm {A} (key : A -> Z) x l : insert_by key x l ≡ₚ x :: l.
Proof.
  induction l as [|y l IH]; simpl; [done|].
  destruct (key x <? key y)%Z; [|done]. rewrite IH. apply Permutation_swap.
Qed.

Lemma sorted_reverse_perm {A} (key : A -> Z) l : sorted_reverse key l ≡ₚ l.
Proof.
  induction l as [|x l IH]; simpl; [done|].
  unfold sorted_reverse in *. simpl. rewrite insert_by_perm. by rewrite IH.
Qed.

Lemma insert_by_ranked {A} (key : A -> Z) x l :
  ranked key l -> ranked key (insert_by key x l).
Proof.
  unfold ranked. induction 1 as [|y l Hl IH Hy]; simpl; [by repeat constructor|].
  destruct (key x <? key y)%Z eqn:Hlt.
  - constructor; [done|]. apply Z.ltb_lt in Hlt.
    destruct l as [|z l]; simpl in *.
    + constructor. lia.
    + destruct (key x <? key z)%Z; constructor; [by inversion Hy|lia].
  - apply Z.ltb_ge in Hlt. constructor; [by constructor|]. by constructor.
Qed.

Lemma sorted_reverse_ranked {A} (key : A -> Z) l : ranked key (sorted_reverse key l).
Proof.
  induction l as [|x l IH]; [constructor|]. by apply insert_by_ranked.
Qed.

Lemma dict_set_Forall {V} (P : string * V -> Prop) k v (d : list (string * V)) :
  Forall P d -> P (k, v) -> Forall P (dict_set k v d).
Proof.
  intros Hd Hv. induction Hd as [|[k' v'] d Hx Hd IH]; simpl; [by repeat constructor|].
  destruct (decide (k = k')); by constructor.
Qed.

Lemma sort_topic_ranked llm user_prompt sort st topic st' :
  sort_topic llm user_prompt sort st topic = Ok st' ->
  Forall (fun x => ranked (subtopic_rank sort) (topics x.2)) st.1 ->
  Forall (fun x => ranked (subtopic_rank sort) (topics x.2)) st'.1.
Proof.
  unfold sort_topic.
  destruct (for_each _ _ _) as [[[per_topic_total per_topic_list] claim_bound]|];
    [|discriminate].
  cbn [mbind result_bind]. unfold subtopic_key.
  destruct (String.eqb_spec sort "numPeople") as [->|Hp];
    [|destruct (String.eqb_spec sort "numClaims") as [->|Hc]];
    cbn [or_raise mbind result_bind]; try discriminate;
    intros [= <-] Hst; cbn [fst]; apply dict_set_Forall; try done;
    apply (sorted_reverse_ranked _ per_topic_list).
Qed.

(** The returned tree is sorted as [req.sort] asks: the topics by
    descending number of speakers or of claims, and the subtopics of every
    topic likewise. *)
Theorem sorted_tree_is_ranked (llm : LLM) (user_prompt sort : string)
    (claims_tree : list (string * list (string * SubtopicData)))
    (full_sort_tree : list (string * TopicRecord)) :
  sort_claims_tree llm user_prompt sort claims_tree = Ok full_sort_tree ->
  ranked (topic_rank sort) full_sort_tree /\
  Forall (fun x => ranked (subtopic_rank sort) (topics x.2)) full_sort_tree.
Proof.
  unfold sort_claims_tree.
  destruct (for_each _ _ _) as [[sorted_tree claim_bound]|] eqn:Hloop; [|discriminate].
  cbn [mbind result_bind].
  assert (Forall (fun x => ranked (subtopic_rank sort) (topics x.2)) sorted_tree) as Hsub.
  { unfold for_each in Hloop.
    apply (for_enumerate_invariant _
             (fun st => Forall (fun x => ranked (subtopic_rank sort) (topics x.2)) st.1)
             _ _ _ _ ltac:(intros i x s s' _; apply sort_topic_ranked) Hloop).
    constructor. }
  unfold topic_key.
  destruct (String.eqb_spec sort "numPeople") as [->|Hp];
    [|destruct (String.eqb_spec sort "numClaims") as [->|Hc]];
    cbn [or_raise mbind result_bind]; try discriminate;
    intros [= <-]; (split; [apply (sorted_reverse_ranked _ sorted_tree)|]);
    by rewrite sorted_reverse_perm.
Qed.

Lemma sorted_tree_is_ranked_witness :
  exists full_sort_tree,
    sort_claims_tree
      (answering (dq "{'nesting': {'claimId0': [], 'claimId1': ['claimId0']}}"))
      "" "numClaims" cats_tree = Ok full_sort_tree /\
    ranked (topic_rank "numClaims") full_sort_tree.
Proof.
  eexists. split; [vm_compute; reflexivity|].
  apply (sorted_tree_is_ranked
           (answering (dq "{'nesting': {'claimId0': [], 'claimId1': ['claimId0']}}"))
           "" "numClaims" cats_tree).
  vm_compute. reflexivity.
Defined.

(** ** Stage 3: counts, small subtopics *)

Lemma dict_set_fresh {V} (k : string) (v : V) (d : list (string * V)) :
  k ∉ d.*1 -> dict_set k v d = d ++ [(k, v)].
Proof.
  induction d as [|[k' v'] d IH]; simpl; [done|].
  rewrite not_elem_of_cons. intros [Hne Hd].
  destruct (decide (k = k')); [done|]. by rewrite IH.
Qed.

Lemma sum_totals_snoc subtopics subtopic :
  sum_totals (subtopics ++ [subtopic]) = (sum_totals subtopics + data_total subtopic.2)%Z.
Proof.
  unfold sum_totals. induction subtopics as [|x l IH]; simpl; [lia|]. rewrite IH. lia.
Qed.

Lemma sort_topic_total llm user_prompt sort st topic st' :
  sort_topic llm user_prompt sort st topic = Ok st' ->
  exists record,
    st'.1 = dict_set topic.1 record st.1 /\
    topic_counts_claims record = sum_totals topic.2.
Proof.
  unfold sort_topic.
  destruct (for_each _ _ _) as [[[per_topic_total per_topic_list] claim_bound]|] eqn:Hloop;
    [|discriminate].
  cbn [mbind result_bind].
  destruct (subtopic_key sort) as [key|]; [|discriminate].
  cbn [or_raise mbind result_bind]. intros [= <-]. eexists. split; [done|]. simpl.
  unfold for_each in Hloop.
  apply (for_enumerate_prefix _
           (fun done (s : Z * list (string * SubtopicRecord) * bool) =>
              s.1.1 = sum_totals done) topic.2 topic.2 [] 0 _ _ eq_refl) in Hloop; [done| |done].
  intros i done x rest [[tot lst] cb] s' _.
  destruct (sort_subtopic llm user_prompt cb x.2) as [[record cb']|]; [|discriminate].
  cbn [mbind result_bind]. intros [= <-]. cbn [fst]. intros ->.
  by rewrite sum_totals_snoc.
Qed.

(** No topic is lost or added, and the claim count of a topic is the sum
    of the totals of all its subtopics. *)
Theorem topic_counts_sum_totals (llm : LLM) (user_prompt sort : string)
    (claims_tree : list (string * list (string * SubtopicData)))
    (full_sort_tree : list (string * TopicRecord)) :
  NoDup claims_tree.*1 ->
  sort_claims_tree llm user_prompt sort claims_tree = Ok full_sort_tree ->
  exists sorted_tree,
    full_sort_tree ≡ₚ sorted_tree /\
    Forall2 (fun topic x => topic.1 = x.1 /\ topic_counts_claims x.2 = sum_totals topic.2)
            claims_tree sorted_tree.
Proof.
  intros Hnodup. unfold sort_claims_tree.
  destruct (for_each _ _ _) as [[sorted_tree claim_bound]|] eqn:Hloop; [|discriminate].
  cbn [mbind result_bind].
  destruct (topic_key sort) as [key|]; [|discriminate].
  cbn [or_raise mbind result_bind]. intros [= <-].
  exists sorted_tree. split; [apply sorted_reverse_perm|].
  unfold for_each in Hloop.
  apply (for_enumerate_prefix _
           (fun done (s : list (string * TopicRecord) * bool) =>
              Forall2 (fun topic x => topic.1 = x.1 /\
                                      topic_counts_claims x.2 = sum_totals topic.2)
                      done s.1)
           claims_tree claims_tree [] 0 _ _ eq_refl) in Hloop; [done| |by constructor].
  intros i done x rest s s' Hwhole Hx Hdone.
  destruct (sort_topic_total _ _ _ _ _ _ Hx) as (record & -> & Hrec).
  rewrite dict_set_fresh.
  - apply Forall2_app; [done|]. by repeat constructor.
  - assert (s.1.*1 = done.*1) as ->.
    { clear -Hdone. induction Hdone as [|a b l1 l2 [Hab _] _ IH]; [done|].
      rewrite !fmap_cons. by f_equal. }
    rewrite Hwhole, fmap_app, fmap_cons in Hnodup.
    apply NoDup_app in Hnodup as (_ & Hnot & _).
    intros Hin. apply (Hnot _ Hin). by left.
Qed.

Lemma topic_counts_sum_totals_witness :
  exists full_sort_tree sorted_tree,
    sort_claims_tree
      (answering (dq "{'nesting': {'claimId0': [], 'claimId1': ['claimId0']}}"))
      "" "numClaims" cats_tree = Ok full_sort_tree /\
    full_sort_tree ≡ₚ sorted_tree /\
    Forall2 (fun topic x => topic.1 = x.1 /\ topic_counts_claims x.2 = sum_totals topic.2)
            cats_tree sorted_tree.
Proof.
  eexists.
  destruct (topic_counts_sum_totals
              (answering (dq "{'nesting': {'claimId0': [], 'claimId1': ['claimId0']}}"))
              "" "numClaims" cats_tree _
              ltac:(vm_compute; repeat constructor; by intros ?%elem_of_nil)
              ltac:(vm_compute; reflexivity)) as (sorted_tree & Hperm & Hall).
  exists sorted_tree. split; [vm_compute; reflexivity|]. by split.
Defined.

(** *** The unassigned [claim] *)
(** When the first subtopic visited declares at most one claim and its
    first claim has no [speaker], the warning reads the variable [claim]
    before any loop has assigned it. *)
Theorem unassigned_claim_is_read (llm : LLM) (user_prompt sort topic subtopic : string)
    (total : Z) (first : claim_dict) (more : list claim_dict)
    (other_subtopics : list (string * SubtopicData))
    (other_topics : list (string * list (string * SubtopicData))) :
  (total <= 1)%Z -> dict_get "speaker" first = None ->
  sort_claims_tree llm user_prompt sort
    ((topic, (subtopic, mkSubtopicData total (first :: more)) :: other_subtopics)
       :: other_topics)
  = Raise UnboundLocalError.
Proof.
  intros Htotal Hspeaker.
  assert (sort_subtopic llm user_prompt false (mkSubtopicData total (first :: more))
          = Raise UnboundLocalError) as Hsub.
  { unfold sort_subtopic. cbn [data_total data_claims].
    assert ((1 <? total)%Z = false) as -> by (apply Z.ltb_ge; lia).
    unfold dict_has. by rewrite Hspeaker. }
  assert (forall st,
            sort_topic llm user_prompt sort (st, false)
              (topic, (subtopic, mkSubtopicData total (first :: more)) :: other_subtopics)
            = Raise UnboundLocalError) as Htopic.
  { intros st. unfold sort_topic, for_each. cbn [for_enumerate snd fst].
    by rewrite Hsub. }
  unfold sort_claims_tree, for_each. cbn [for_enumerate]. by rewrite Htopic.
Qed.

Lemma unassigned_claim_is_read_witness :
  sort_claims_tree (answering "{}") "" "numPeople"
    [("Pets", [("Cats", mkSubtopicData 1 [[("claim", JStr "Cats purr.")]])])]
  = Raise UnboundLocalError.
Proof.
  apply (unassigned_claim_is_read _ _ _ _ _ 1 [("claim", JStr "Cats purr.")] [] [] []).
  - lia.
  - reflexivity.
Defined.

(** *** Subtopics that are not deduplicated *)
Lemma sort_subtopic_small llm1 llm2 user_prompt claim_bound subtopic_data :
  (data_total subtopic_data <= 1)%Z ->
  sort_subtopic llm1 user_prompt claim_bound subtopic_data =
  sort_subtopic llm2 user_prompt claim_bound subtopic_data.
Proof.
  intros Htotal. unfold sort_subtopic.
  by assert ((1 <? data_total subtopic_data)%Z = false) as -> by (apply Z.ltb_ge; lia).
Qed.

(** A tree in which every subtopic declares at most one claim is sorted
    without consulting the LLM: the result is the same for every LLM. *)
Theorem small_subtopics_need_no_llm (llm1 llm2 : LLM) (user_prompt sort : string)
    (claims_tree : list (string * list (string * SubtopicData))) :
  Forall (fun topic => Forall (fun subtopic => (data_total subtopic.2 <= 1)%Z) topic.2)
         claims_tree ->
  sort_claims_tree llm1 user_prompt sort claims_tree =
  sort_claims_tree llm2 user_prompt sort claims_tree.
Proof.
  intros Hsmall. unfold sort_claims_tree, for_each. f_equal.
  apply for_enumerate_ext. intros _ topic st Htopic. rewrite Forall_forall in Hsmall.
  specialize (Hsmall _ Htopic). unfold sort_topic, for_each. f_equal.
  apply for_enumerate_ext. intros _ subtopic [[tot lst] cb] Hsub.
  rewrite Forall_forall in Hsmall.
  by rewrite (sort_subtopic_small llm1 llm2) by (by apply Hsmall).
Qed.

Lemma small_subtopics_need_no_llm_witness :
  sort_claims_tree (answering "{}") "" "numPeople"
    [("Pets", [("Cats", mkSubtopicData 1 [cat_claim "I love cats."])])]
  = sort_claims_tree (fun _ => None) "" "numPeople"
    [("Pets", [("Cats", mkSubtopicData 1 [cat_claim "I love cats."])])].
Proof.
  apply small_subtopics_need_no_llm. repeat constructor. simpl. lia.
Defined.

(** ** Stage 4: speaker ids *)

Lemma compare_lt_trans a b c :
  String.compare a b = Lt -> String.compare b c = Lt -> String.compare a c = Lt.
Proof.
  intros Hab Hbc. apply OrderedTypeEx.String_as_OT.cmp_lt.
  eapply OrderedTypeEx.String_as_OT.lt_trans; by apply OrderedTypeEx.String_as_OT.cmp_lt.
Qed.

Lemma compare_lt_irrefl a : String.compare a a <> Lt.
Proof.
  intros H. pose proof (String.compare_antisym a a) as Ha. rewrite H in Ha. discriminate.
Qed.

Lemma compare_gt_lt a b : String.compare a b = Gt -> String.compare b a = Lt.
Proof. intros H. rewrite String.compare_antisym, H. done. Qed.

Lemma insert_speaker_elem s l x : x ∈ insert_speaker s l <-> x = s \/ x ∈ l.
Proof.
  induction l as [|t l IH]; simpl.
  - rewrite list_elem_of_singleton. split; [by left|]. by intros [?|?%elem_of_nil].
  - destruct (String.compare s t) eqn:Hc.
    + apply String.compare_eq_iff in Hc as ->. rewrite elem_of_cons. tauto.
    + rewrite !elem_of_cons. tauto.
    + rewrite !elem_of_cons, IH. tauto.
Qed.

Lemma sorted_speakers_elem speakers x : x ∈ sorted_speakers speakers <-> x ∈ speakers.
Proof.
  induction speakers as [|s l IH]; simpl; [done|].
  unfold sorted_speakers in *. simpl. rewrite insert_speaker_elem, IH, elem_of_cons. tauto.
Qed.

Lemma insert_speaker_increasing s l : increasing l -> increasing (insert_speaker s l).
Proof.
  unfold increasing. induction 1 as [|t l Hl IH Ht]; simpl; [by repeat constructor|].
  destruct (String.compare s t) eqn:Hc.
  - by constructor.
  - constructor; [by constructor|]. constructor; [done|].
    eapply Forall_impl; [exact Ht|]. intros x Hx. simpl in Hx.
    by eapply compare_lt_trans.
  - constructor; [done|]. apply Forall_forall. intros x [->|Hx]%insert_speaker_elem.
    + by apply compare_gt_lt.
    + rewrite Forall_forall in Ht. by apply Ht.
Qed.

Lemma sorted_speakers_increasing speakers : increasing (sorted_speakers speakers).
Proof.
  induction speakers as [|s l IH]; [constructor|]. by apply insert_speaker_increasing.
Qed.

Lemma increasing_NoDup l : increasing l -> NoDup l.
Proof.
  induction 1 as [|t l Hl IH Ht]; constructor; [|done].
  intros Hin. rewrite Forall_forall in Ht. by apply (compare_lt_irrefl t), Ht.
Qed.

Lemma increasing_ext l1 : forall l2,
  increasing l1 -> increasing l2 -> (forall x, x ∈ l1 <-> x ∈ l2) -> l1 = l2.
Proof.
  induction l1 as [|a l1 IH]; intros [|b l2] H1 H2 Hext.
  - done.
  - exfalso. eapply elem_of_nil. apply Hext. by left.
  - exfalso. eapply elem_of_nil. apply Hext. by left.
  - apply StronglySorted_inv in H1 as [H1 Ha]. apply StronglySorted_inv in H2 as [H2 Hb].
    rewrite Forall_forall in Ha, Hb.
    assert (a = b) as ->.
    { pose proof (proj1 (Hext a) ltac:(by left)) as Hab.
      apply elem_of_cons in Hab as [Hab|Hin]; [done|].
      pose proof (proj2 (Hext b) ltac:(by left)) as Hba.
      apply elem_of_cons in Hba as [Hba|Hin']; [done|].
      exfalso. apply (compare_lt_irrefl a). eapply compare_lt_trans; [by apply Ha|by apply Hb]. }
    f_equal. apply IH; [done..|]. intros x. split; intros Hx.
    + pose proof (proj1 (Hext x) ltac:(by right)) as Hx'.
      apply elem_of_cons in Hx' as [->|Hx']; [|done].
      exfalso. by apply (compare_lt_irrefl b), Ha.
    + pose proof (proj2 (Hext x) ltac:(by right)) as Hx'.
      apply elem_of_cons in Hx' as [->|Hx']; [|done].
      exfalso. by apply (compare_lt_irrefl b), Hb.
Qed.

(** The ids depend only on which speakers occur, not on the order or the
    number of their claims. *)
Theorem speaker_ids_depend_on_the_set (speakers1 speakers2 : list string) :
  (forall s, s ∈ speakers1 <-> s ∈ speakers2) ->
  full_speaker_map speakers1 = full_speaker_map speakers2.
Proof.
  intros Hext. unfold full_speaker_map. f_equal.
  apply increasing_ext; [apply sorted_speakers_increasing..|].
  intros x. by rewrite !sorted_speakers_elem.
Qed.

Lemma speaker_ids_depend_on_the_set_witness :
  full_speaker_map ["Bob"; "Alice"; "Bob"] = full_speaker_map ["Alice"; "Bob"].
Proof.
  apply speaker_ids_depend_on_the_set. intros s. rewrite !elem_of_cons. tauto.
Defined.

Lemma str_of_nat_inj i j : str_of_nat i = str_of_nat j -> i = j.
Proof.
  unfold str_of_nat. intros H.
  assert (forall n, NilZero.uint_of_string (NilZero.string_of_uint (Nat.to_uint n))
                    = Some (Nat.to_uint n)) as Husu.
  { intros n. apply NilZero.usu.
    rewrite <- (DecimalNat.Unsigned.of_to n), DecimalNat.Unsigned.to_of.
    apply DecimalFacts.unorm_nonnil. }
  pose proof (Husu i) as Hi. rewrite H, Husu in Hi. injection Hi as Hi.
  by rewrite <- (DecimalNat.Unsigned.of_to i), <- (DecimalNat.Unsigned.of_to j), Hi.
Qed.

Lemma full_speaker_map_keys speakers :
  (full_speaker_map speakers).*1 = sorted_speakers speakers.
Proof.
  unfold full_speaker_map. rewrite fmap_imap.
  induction (sorted_speakers speakers) as [|s l IH] using rev_ind; [done|].
  rewrite imap_app. simpl. by rewrite IH.
Qed.

Lemma full_speaker_map_ids speakers :
  (full_speaker_map speakers).*2 =
  str_of_nat <$> seq 0 (length (sorted_speakers speakers)).
Proof.
  unfold full_speaker_map. rewrite fmap_imap.
  exact (imap_seq_0 (sorted_speakers speakers) str_of_nat).
Qed.

Lemma dict_get_NoDup {V} (k : string) (v : V) (d : list (string * V)) :
  NoDup d.*1 -> (k, v) ∈ d -> dict_get k d = Some v.
Proof.
  induction d as [|[k' v'] d IH]; [by intros _ ?%elem_of_nil|].
  rewrite fmap_cons. intros [Hk Hd]%NoDup_cons [[= -> ->]|Hin]%elem_of_cons; simpl.
  - by rewrite decide_True.
  - rewrite decide_False; [by apply IH|]. intros ->. apply Hk.
    apply list_elem_of_fmap. by exists (k', v).
Qed.

Lemma ids_to_speakers_NoDup speaker_map name id :
  NoDup speaker_map.*2 -> (name, id) ∈ speaker_map ->
  ids_to_speakers speaker_map !! id = Some name.
Proof.
  unfold ids_to_speakers.
  assert (forall l (m : gmap string string),
            id ∉ l.*2 ->
            fold_left (fun m kv => <[kv.2 := kv.1]> m) l m !! id = m !! id) as Hother.
  { induction l as [|[k v] l IH]; intros m; simpl; [done|].
    rewrite not_elem_of_cons. intros [Hne Hl]. rewrite IH by done.
    by rewrite lookup_insert_ne. }
  generalize (∅ : gmap string string).
  induction speaker_map as [|[k v] l IH]; intros m; [by intros _ ?%elem_of_nil|].
  rewrite fmap_cons. intros [Hv Hl]%NoDup_cons [[= -> ->]|Hin]%elem_of_cons; simpl.
  - rewrite Hother by done. by rewrite lookup_insert_eq.
  - by apply IH.
Qed.

(** The speaker at position [i] of the sorted list has the id [str(i)],
    and the inverse map takes the id back to the speaker. *)
Lemma full_speaker_map_inverse speakers i s :
  sorted_speakers speakers !! i = Some s ->
  dict_get s (full_speaker_map speakers) = Some (str_of_nat i) /\
  ids_to_speakers (full_speaker_map speakers) !! str_of_nat i = Some s.
Proof.
  intros Hi.
  assert ((s, str_of_nat i) ∈ full_speaker_map speakers) as Hin.
  { unfold full_speaker_map. apply elem_of_lookup_imap. by exists i, s. }
  split.
  - apply dict_get_NoDup; [|done]. rewrite full_speaker_map_keys.
    apply increasing_NoDup, sorted_speakers_increasing.
  - apply ids_to_speakers_NoDup; [|done]. rewrite full_speaker_map_ids.
    apply NoDup_fmap_2; [intros ? ?; apply str_of_nat_inj|apply NoDup_seq].
Qed.

(** Every speaker of the tree gets an id, and the inverse map used to put
    the names back maps that id to the speaker. *)
Theorem speaker_ids_round_trip (speakers : list string) (s : string) :
  s ∈ speakers ->
  exists id,
    dict_get s (full_speaker_map speakers) = Some id /\
    ids_to_speakers (full_speaker_map speakers) !! id = Some s.
Proof.
  intros Hs. apply sorted_speakers_elem in Hs.
  apply list_elem_of_lookup in Hs as [i Hi].
  exists (str_of_nat i). by apply full_speaker_map_inverse.
Qed.

Lemma speaker_ids_round_trip_witness :
  exists id,
    dict_get "Bob" (full_speaker_map ["Bob"; "Alice"; "Bob"]) = Some id /\
    ids_to_speakers (full_speaker_map ["Bob"; "Alice"; "Bob"]) !! id = Some "Bob".
Proof.
  apply speaker_ids_round_trip. apply elem_of_cons. left. reflexivity.
Defined.

(** ** Stage 4: errors and answers of [cruxes_from_tree] *)

Lemma for_enumerate_step {A St} (body : nat -> A -> St -> result St) l :
  forall start s s' k x,
  for_enumerate body start l s = Ok s' -> l !! k = Some x ->
  exists s1 s2, body (start + k) x s1 = Ok s2.
Proof.
  induction l as [|y l IH]; intros start s s' k x; simpl; [done|].
  destruct (body start y s) as [s1|] eqn:Hy; [|discriminate]. simpl. intros Hrest.
  destruct k as [|k]; simpl.
  - intros [= <-]. rewrite Nat.add_0_r. by eexists _, _.
  - intros Hk. destruct (IH _ _ _ _ _ Hrest Hk) as (t1 & t2 & Ht).
    exists t1, t2. by rewrite <- Nat.add_succ_comm.
Qed.

Lemma for_enumerate_raise {A St} (body : nat -> A -> St -> result St) l :
  forall start s e,
  for_enumerate body start l s = Raise e ->
  exists i x s1, x ∈ l /\ body i x s1 = Raise e.
Proof.
  induction l as [|y l IH]; intros start s e; simpl; [discriminate|].
  destruct (body start y s) as [s1|e1] eqn:Hy; simpl.
  - intros Hrest. destruct (IH _ _ _ Hrest) as (i & x & t & Hx & Ht).
    exists i, x, t. split; [by right|done].
  - intros [= <-]. exists start, y, s. split; [by left|done].
Qed.

Lemma comprehension_raise_inv {A B} (f : A -> result B) l e :
  comprehension f l = Raise e -> exists x, x ∈ l /\ f x = Raise e.
Proof.
  induction l as [|y l IH]; simpl; [discriminate|].
  destruct (f y) as [b|e1] eqn:Hy; simpl.
  - destruct (comprehension f l); simpl; [discriminate|]. intros [= <-].
    destruct (IH eq_refl) as (x & Hx & Hfx). exists x. split; [by right|done].
  - intros [= <-]. exists y. split; [by left|done].
Qed.

Lemma add_at_raise v a b cm e : add_at v a b cm = Raise e -> e = IndexError.
Proof.
  unfold add_at. destruct (cm !! a) as [row|]; simpl; [|congruence].
  destruct (row !! b); simpl; [discriminate|congruence].
Qed.

Lemma controversy_matrix_raise cont_mat e :
  controversy_matrix cont_mat = Raise e -> e = IndexError.
Proof.
  unfold controversy_matrix. intros H.
  apply for_enumerate_raise in H as (ci & row & cm1 & _ & H).
  apply for_enumerate_raise in H as (si & sc & cm2 & _ & H).
  unfold compare_speaker in H.
  destruct (comprehension _ _) as [other_scores|e1] eqn:Hc; simpl in H.
  - apply for_enumerate_raise in H as (oi & other & cm3 & _ & H).
    unfold compare_scores in H.
    destruct (negb _); [|discriminate].
    destruct (_ || _).
    + destruct (add_at _ _ _ cm3) as [cm4|e4] eqn:H4; simpl in H.
      * by apply add_at_raise in H.
      * injection H as <-. by apply add_at_raise in H4.
    + destruct (add_at _ _ _ cm3) as [cm4|e4] eqn:H4; simpl in H.
      * by apply add_at_raise in H.
      * injection H as <-. by apply add_at_raise in H4.
  - injection H as <-. apply comprehension_raise_inv in Hc as (x & _ & Hx).
    destruct (per_speaker_scores x !! si); simpl in Hx; [discriminate|congruence].
Qed.

(** A score table in which a later row is shorter than an earlier one
    makes [controversy_matrix] raise [IndexError]. *)
Theorem ragged_scores_raise (cont_mat : list ScoreRow) (i j : nat) (ri rj : ScoreRow) :
  i < j -> cont_mat !! i = Some ri -> cont_mat !! j = Some rj ->
  length (per_speaker_scores rj) < length (per_speaker_scores ri) ->
  controversy_matrix cont_mat = Raise IndexError.
Proof.
  intros Hij Hi Hj Hlen.
  destruct (controversy_matrix cont_mat) as [cm|e] eqn:Hcm;
    [|by rewrite (controversy_matrix_raise _ _ Hcm)].
  exfalso. unfold controversy_matrix in Hcm.
  destruct (for_enumerate_step _ _ _ _ _ _ _ Hcm Hi) as (cm1 & cm2 & Hrow).
  simpl in Hrow.
  destruct (lookup_lt_is_Some_2 (per_speaker_scores ri) (length (per_speaker_scores rj)))
    as [sc Hsc]; [done|].
  destruct (for_enumerate_step _ _ _ _ _ _ _ Hrow Hsc) as (cm3 & cm4 & Hsp).
  simpl in Hsp. unfold compare_speaker in Hsp.
  destruct (comprehension _ _) as [other_scores|] eqn:Hc; [|discriminate].
  apply comprehension_inv in Hc.
  assert (drop (i + 1) cont_mat !! (j - (i + 1)) = Some rj) as Hdrop.
  { rewrite lookup_drop. rewrite <- Hj. f_equal. lia. }
  destruct (Forall2_lookup_l _ _ _ _ _ Hc Hdrop) as (y & _ & Hy).
  rewrite (lookup_ge_None_2 (per_speaker_scores rj)) in Hy by lia. discriminate.
Qed.

Lemma ragged_scores_raise_witness :
  controversy_matrix [ mkScoreRow "crux A" [1; 0]%Q; mkScoreRow "crux B" [1]%Q ]
  = Raise IndexError.
Proof.
  apply (ragged_scores_raise _ 0 1 (mkScoreRow "crux A" [1; 0]%Q) (mkScoreRow "crux B" [1]%Q)).
  - lia.
  - reflexivity.
  - reflexivity.
  - simpl. lia.
Defined.





(** The selection of [top_k_cruxes] on a square matrix: the cruxes of the
    first [K] scored cells. *)
Lemma top_k_cruxes_chosen n (cont_mat : matrix) (cruxes : list string) (top_k : Z) :
  square n cont_mat -> length cruxes = n ->
  exists scores top,
    upper_triangle_scores cont_mat = Ok scores /\
    top_k_cruxes cont_mat cruxes top_k = Ok top /\
    score <$> top =
    score_of <$> slice_to (if (top_k =? 0)%Z
                           then Z.min (Z.of_nat (ceil_sqrt (length cruxes))) 10
                           else top_k) (sorted_desc scores).
Proof.
  intros Hsq Hcr. assert (Hn : length cont_mat = n) by apply Hsq.
  unfold top_k_cruxes.
  destruct (triangle_scores n cont_mat Hsq) as (scores & Hscores & Hcells).
  exists scores. rewrite Hscores. simpl.
  set (K := if (top_k =? 0)%Z then Z.min (Z.of_nat (ceil_sqrt (length cruxes))) 10
            else top_k).
  set (chosen := slice_to K (sorted_desc scores)).
  assert (Hchosen : Forall (triangle_cell cont_mat) chosen).
  { unfold chosen, slice_to.
    destruct (0 <=? K)%Z; apply Forall_take; by rewrite sorted_desc_perm. }
  destruct (comprehension_Forall2
    (fun '(s, x, y) =>
       a ← (cruxes !! x) ?! IndexError;
       b ← (cruxes !! y) ?! IndexError;
       Ok (mkTopCrux s a b))
    (fun t c => score c = score_of t) chosen)
    as (top & E & HF).
  { intros [[s x] y] Ht. rewrite Forall_forall in Hchosen.
    destruct (Hchosen _ Ht) as [Hxy Hentry]. simpl in Hxy, Hentry.
    destruct (lookup_lt_is_Some_2 cruxes x) as [a Ha]; [lia|].
    destruct (lookup_lt_is_Some_2 cruxes y) as [b Hb]; [lia|].
    rewrite Ha, Hb. simpl. eexists. split; [reflexivity|]. done. }
  exists top. split; [done|]. split; [exact E|].
  clear -HF. induction HF as [|t c l k Hs _ IH]; [done|].
  rewrite !fmap_cons. by rewrite Hs, IH.
Qed.





(** ** Stage 4: the pairs left out *)

Lemma comprehension_length {A B} (f : A -> result B) l ys :
  comprehension f l = Ok ys -> length ys = length l.
Proof. intros H%comprehension_inv. symmetry. by eapply Forall2_length. Qed.

Lemma triangle_sum k : forall a (rows : list (list scored)),
  Forall2 (fun x row => length row = a + k - (x + 1)) (seq a k) rows ->
  2 * list_sum (map length rows) = k * (k - 1).
Proof.
  induction k as [|k IH]; intros a rows; cbn [seq].
  - intros ->%Forall2_nil_inv_l. done.
  - intros (row & rows' & Hrow & Hrows & ->)%Forall2_cons_inv_l. cbn [map list_sum].
    assert (2 * list_sum (map length rows') = k * (k - 1)) as Hrest.
    { apply (IH (S a)). eapply Forall2_impl; [exact Hrows|].
      intros x r Hr. simpl in Hr. rewrite Hr. lia. }
    assert (length row = k) as -> by lia.
    replace (S k - 1) with k by lia. destruct k as [|k']; [simpl in *; lia|].
    replace (S k' - 1) with k' in Hrest by lia.
    change (list_sum (S k' :: map length rows'))
      with (S k' + list_sum (map length rows')). nia.
Qed.

Lemma upper_triangle_count n (cont_mat : matrix) scores :
  length cont_mat = n -> upper_triangle_scores cont_mat = Ok scores ->
  2 * length scores = n * (n - 1).
Proof.
  intros Hn. unfold upper_triangle_scores. rewrite Hn.
  destruct (comprehension _ (seq 0 n)) as [rows|] eqn:Hrows; [|discriminate].
  simpl. intros [= <-]. rewrite length_concat. apply (triangle_sum n 0).
  apply comprehension_inv in Hrows.
  eapply Forall2_impl; [exact Hrows|]. intros x row Hrow. simpl in Hrow.
  apply comprehension_length in Hrow. rewrite length_seq in Hrow. simpl. exact Hrow.
Qed.

Lemma sorted_desc_split k (l : list scored) s d :
  s ∈ score_of <$> take k (sorted_desc l) ->
  d ∈ score_of <$> drop k (sorted_desc l) -> (d <= s)%Q.
Proof.
  pose proof (sorted_desc_sorted l) as Hs.
  apply Sorted_StronglySorted in Hs; [|intros a b c Hab Hbc; by eapply Qle_trans].
  revert k. induction Hs as [|t rest Hs IH Ht]; intros k.
  - rewrite take_nil. by intros ?%elem_of_nil.
  - destruct k as [|k]; [by intros ?%elem_of_nil|]. simpl.
    intros [->|Hin]%elem_of_cons Hd; [|by eapply IH].
    apply list_elem_of_fmap in Hd as (u & -> & Hu).
    rewrite Forall_forall in Ht. apply Ht. by eapply subseteq_drop.
Qed.

(** The pairs returned are the highest-scoring ones: the scores of the
    upper triangle are those returned together with the scores left out,
    none of which exceeds a returned score; and the number returned is
    [K], or all [n (n - 1) / 2] pairs when there are fewer, a negative
    [top_k] leaving out that many of the lowest instead. *)
Theorem top_k_cruxes_are_the_highest (cont_mat : matrix) (cruxes : list string)
    (top_k : Z) (n : nat) :
  square n cont_mat -> length cruxes = n ->
  exists scores top dropped,
    upper_triangle_scores cont_mat = Ok scores /\
    top_k_cruxes cont_mat cruxes top_k = Ok top /\
    (score <$> top) ++ dropped ≡ₚ score_of <$> scores /\
    (forall s d, s ∈ score <$> top -> d ∈ dropped -> (d <= s)%Q) /\
    2 * length scores = n * (n - 1) /\
    (top_k = 0%Z -> length top = Nat.min (Nat.min (ceil_sqrt n) 10) (length scores)) /\
    ((0 < top_k)%Z -> length top = Nat.min (Z.to_nat top_k) (length scores)) /\
    ((top_k < 0)%Z -> length top = length scores - Z.to_nat (- top_k)).
Proof.
  intros Hsq Hcr.
  destruct (top_k_cruxes_chosen n cont_mat cruxes top_k Hsq Hcr)
    as (scores & top & Hscores & Htop & Hchosen).
  set (K := if (top_k =? 0)%Z then Z.min (Z.of_nat (ceil_sqrt (length cruxes))) 10
            else top_k) in Hchosen.
  set (k := if (0 <=? K)%Z then Z.to_nat K
            else length (sorted_desc scores) - Z.to_nat (- K)).
  assert (slice_to K (sorted_desc scores) = take k (sorted_desc scores)) as Hslice.
  { unfold slice_to, k. by destruct (0 <=? K)%Z. }
  rewrite Hslice in Hchosen.
  assert (length (sorted_desc scores) = length scores) as Hlen
    by (by rewrite sorted_desc_perm).
  assert (length top = Nat.min k (length scores)) as Htoplen.
  { rewrite <- (length_fmap score), Hchosen, length_fmap, length_take. lia. }
  exists scores, top, (score_of <$> drop k (sorted_desc scores)).
  split; [done|]. split; [done|]. split; [|split; [|split; [|split; [|split]]]].
  - rewrite Hchosen, <- fmap_app, take_drop. by rewrite sorted_desc_perm.
  - rewrite Hchosen. apply sorted_desc_split.
  - apply (upper_triangle_count n cont_mat); [apply Hsq|done].
  - intros ->. rewrite Htoplen. unfold k, K. rewrite Z.eqb_refl, Hcr.
    rewrite (proj2 (Z.leb_le 0 _)) by lia. lia.
  - intros Hpos. rewrite Htoplen. unfold k, K.
    rewrite (proj2 (Z.eqb_neq top_k 0)) by lia.
    by rewrite (proj2 (Z.leb_le 0 top_k)) by lia.
  - intros Hneg. rewrite Htoplen. unfold k, K.
    rewrite (proj2 (Z.eqb_neq top_k 0)) by lia.
    rewrite (proj2 (Z.leb_gt 0 top_k)) by lia. lia.
Qed.

Lemma top_k_cruxes_are_the_highest_witness :
  exists scores top dropped,
    upper_triangle_scores [[0; 1; 3]; [1; 0; 2]; [3; 2; 0]]%Q = Ok scores /\
    top_k_cruxes [[0; 1; 3]; [1; 0; 2]; [3; 2; 0]]%Q ["a"; "b"; "c"] (-1) = Ok top /\
    (score <$> top) ++ dropped ≡ₚ score_of <$> scores /\
    length top = 2.
Proof.
  destruct (top_k_cruxes_are_the_highest
              [[0; 1; 3]; [1; 0; 2]; [3; 2; 0]]%Q ["a"; "b"; "c"] (-1) 3)
    as (scores & top & dropped & Hs & Ht & Hperm & _ & Hcount & _ & _ & Hneg).
  - split; [reflexivity | repeat constructor].
  - reflexivity.
  - exists scores, top, dropped. split; [exact Hs|]. split; [exact Ht|].
    split; [exact Hperm|]. rewrite Hneg by lia. simpl in Hcount. lia.
Defined.

(** ** utils.py: meaningful comments, descriptions, anonymized claims *)

Lemma split_char_length (c : ascii) (s : string) : forall acc,
  length (split_from (String c "") 0 acc s) = S (count_char c s).
Proof.
  induction s as [|d s IH]; intros acc; [done|].
  rewrite split_from_cons, startswith_cons. simpl count_char.
  destruct (Ascii.eqb c d); simpl.
  - by rewrite IH.
  - by rewrite IH.
Qed.

(** A comment is meaningful exactly when it is long enough or has enough
    spaces: the word count is the number of spaces plus one. *)
Theorem comment_is_meaningful_counts_spaces
    (MIN_CHAR_COUNT_FOR_MEANING MIN_WORD_COUNT_FOR_MEANING : Z) (raw_comment : string) :
  comment_is_meaningful MIN_CHAR_COUNT_FOR_MEANING MIN_WORD_COUNT_FOR_MEANING raw_comment
  = ((MIN_CHAR_COUNT_FOR_MEANING <=? Z.of_nat (String.length raw_comment))%Z
     || (MIN_WORD_COUNT_FOR_MEANING <=? 1 + Z.of_nat (count_char " " raw_comment))%Z).
Proof.
  unfold comment_is_meaningful, split. rewrite split_char_length.
  by rewrite Nat2Z.inj_succ, <- Z.add_1_l.
Qed.

(** *** topic_desc_map *)
Lemma topic_desc_map_described topics :
  topic_desc_map topics =
  fold_left (fun m (kv : string * string) => <[kv.1 := kv.2]> m) (described topics) ∅.
Proof.
  unfold topic_desc_map, described. generalize (∅ : gmap string string).
  induction topics as [|topic topics IH]; intros m; [done|].
  rewrite bind_cons, fold_left_app. simpl. rewrite IH. f_equal.
  destruct (subtopics topic) as [subs|]; simpl; [|done].
  generalize (<[topicName topic := topicShortDescription topic]> m).
  induction subs as [|sub subs IHs]; intros m'; simpl; [done|]. by rewrite IHs.
Qed.

Lemma fold_insert_lookup (l : list (string * string)) k v : forall m : gmap string string,
  NoDup l.*1 -> (k, v) ∈ l ->
  fold_left (fun m (kv : string * string) => <[kv.1 := kv.2]> m) l m !! k = Some v.
Proof.
  assert (forall l (m : gmap string string),
            k ∉ l.*1 ->
            fold_left (fun m (kv : string * string) => <[kv.1 := kv.2]> m) l m !! k = m !! k)
    as Hother.
  { clear. induction l as [|[k' v'] l IH]; intros m; simpl; [done|].
    rewrite not_elem_of_cons. intros [Hne Hl]. rewrite IH by done.
    by rewrite lookup_insert_ne. }
  induction l as [|[k' v'] l IH]; intros m; [by intros _ ?%elem_of_nil|].
  rewrite fmap_cons. intros [Hk Hl]%NoDup_cons [[= -> ->]|Hin]%elem_of_cons; simpl.
  - rewrite Hother by done. by rewrite lookup_insert_eq.
  - by apply IH.
Qed.

(** When no name is used twice, [topic_desc_map] gives every topic and
    every subtopic of the taxonomy its own description, so a subtopic of
    the taxonomy never gets the fallback text. *)
Theorem names_map_to_their_descriptions (topics : list Topic) (topic : Topic)
    (subtopic : Subtopic) :
  NoDup (described topics).*1 ->
  topic ∈ topics -> subtopic ∈ default [] (subtopics topic) ->
  topic_desc_map topics !! topicName topic = Some (topicShortDescription topic) /\
  subtopic_desc (topic_desc_map topics) (subtopicName subtopic)
  = subtopicShortDescription subtopic.
Proof.
  intros Hnodup Htopic Hsub. rewrite topic_desc_map_described. unfold subtopic_desc.
  split.
  - apply fold_insert_lookup; [done|].
    apply list_elem_of_bind. exists topic. split; [by left|done].
  - rewrite (fold_insert_lookup _ _ (subtopicShortDescription subtopic)); [done|done|].
    apply list_elem_of_bind. exists topic. split; [|done]. right.
    apply list_elem_of_fmap. by exists subtopic.
Qed.

Lemma names_map_to_their_descriptions_witness :
  topic_desc_map
    [mkTopic "Pets" "Household pets" (Some [mkSubtopic "Cats" "About cats"])] !! "Pets"
  = Some "Household pets" /\
  subtopic_desc
    (topic_desc_map [mkTopic "Pets" "Household pets" (Some [mkSubtopic "Cats" "About cats"])])
    "Cats" = "About cats".
Proof.
  apply (names_map_to_their_descriptions
           [mkTopic "Pets" "Household pets" (Some [mkSubtopic "Cats" "About cats"])]
           (mkTopic "Pets" "Household pets" (Some [mkSubtopic "Cats" "About cats"]))
           (mkSubtopic "Cats" "About cats")).
  - change (NoDup [("Pets" : string); ("Cats" : string)]).
    repeat constructor; rewrite ?not_elem_of_cons; repeat split; try discriminate;
      apply not_elem_of_nil.
  - apply elem_of_cons. left. reflexivity.
  - apply elem_of_cons. left. reflexivity.
Defined.

(** *** Anonymized claims *)
Lemma before_colon_prefix (x rest : string) :
  count_char ":" x = 0 -> before_colon (x +:+ ":" +:+ rest) = x.
Proof.
  unfold before_colon, split.
  assert (forall acc, count_char ":" x = 0 ->
            hd "" (split_from ":" 0 acc (x +:+ ":" +:+ rest)) = acc +:+ x) as H.
  { induction x as [|c x IH]; intros acc Hx.
    - change ("" +:+ ":" +:+ rest) with (String ":" rest).
      rewrite split_from_cons, startswith_cons. simpl. by rewrite append_nil_r.
    - rewrite append_cons, split_from_cons, startswith_cons. cbn [count_char] in Hx.
      destruct (Ascii.eqb ":" c) eqn:Hc; [simpl in Hx; discriminate|]. simpl.
      rewrite IH by done. by rewrite append_assoc. }
  intros Hx. by rewrite H.
Qed.

Lemma str_of_nat_no_colon i : count_char ":" (str_of_nat i) = 0.
Proof.
  unfold str_of_nat.
  assert (forall d, count_char ":" (NilEmpty.string_of_uint d) = 0) as H
    by (induction d; simpl; done).
  destruct (Nat.to_uint i); try apply H. done.
Qed.

(** The claims sent to the LLM carry the speaker's id in front; an entry
    the LLM hands back in [agree] or [disagree] is resolved, whatever
    follows the first colon, to that id and the name of the speaker who
    made the claim. *)
Theorem anonymized_claims_resolve (speakers : list string) (claims : list Claim) :
  Forall (fun c => speaker c ∈ speakers) claims ->
  exists anon names,
    claims_anon (full_speaker_map speakers) claims = Ok anon /\
    named (ids_to_speakers (full_speaker_map speakers)) anon = Ok names /\
    Forall2
      (fun c name =>
         exists id, dict_get (speaker c) (full_speaker_map speakers) = Some id /\
                    name = id +:+ ":" +:+ speaker c)
      claims names.
Proof.
  induction 1 as [|c claims Hc _ (anon & names & Ha & Hn & IH)].
  - by exists [], [].
  - apply sorted_speakers_elem in Hc. apply list_elem_of_lookup in Hc as [i Hi].
    destruct (full_speaker_map_inverse _ _ _ Hi) as [Hid Hinv].
    exists ((str_of_nat i +:+ ":" +:+ claim c) :: anon),
           ((str_of_nat i +:+ ":" +:+ speaker c) :: names).
    split; [|split].
    + unfold claims_anon in *. simpl. rewrite Hid. simpl. by rewrite Ha.
    + unfold named in *. rewrite fmap_cons. simpl.
      rewrite before_colon_prefix by apply str_of_nat_no_colon.
      rewrite Hinv. simpl. by rewrite Hn.
    + constructor; [|done]. by exists (str_of_nat i).
Qed.

Lemma anonymized_claims_resolve_witness :
  exists anon names,
    claims_anon (full_speaker_map ["Bob"; "Alice"])
      [mkClaim "Cats are the best pets." "I love cats" (Some "Pets") (Some "Cats") "c1" "Bob"]
    = Ok anon /\
    named (ids_to_speakers (full_speaker_map ["Bob"; "Alice"])) anon = Ok names /\
    Forall2
      (fun c name =>
         exists id, dict_get (speaker c) (full_speaker_map ["Bob"; "Alice"]) = Some id /\
                    name = id +:+ ":" +:+ speaker c)
      [mkClaim "Cats are the best pets." "I love cats" (Some "Pets") (Some "Cats") "c1" "Bob"]
      names.
Proof.
  apply anonymized_claims_resolve. constructor; [|constructor].
  apply elem_of_cons. left. reflexivity.
Defined.

(** ** Stage 4: the crux of one answer; falsy and blank responses *)

(** An answer that cannot be decoded does not skip the subtopic: the
    error text is taken for the crux and reading its [cruxClaim] raises
    [TypeError]. *)
Theorem unparsed_crux_is_TypeError (content : string) (e : exn) :
  extract_json_from_response content = Raise e ->
  crux_of_response (Some content) = Raise TypeError /\
  crux_of_response None = Raise TypeError.
Proof. intros H. unfold crux_of_response, crux_obj. simpl. by rewrite H. Qed.

Lemma unparsed_crux_is_TypeError_witness :
  crux_of_response (Some "I cannot answer that.") = Raise TypeError /\
  crux_of_response None = Raise TypeError.
Proof.
  apply (unparsed_crux_is_TypeError "I cannot answer that." ValueError).
  vm_compute. reflexivity.
Defined.

(** A decoded answer that is not a dictionary gives a row with an empty
    crux claim and nobody on either side. *)
Theorem non_dict_crux_is_empty_row (content : string) (v : json) :
  extract_json_from_response content = Ok v ->
  (forall fields, v <> JObj fields) ->
  crux_of_response (Some content) = Ok (Some (JStr "", JArr [], JArr [], JStr "")).
Proof.
  intros H Hv. unfold crux_of_response, crux_obj. simpl. rewrite H.
  destruct v; try done. by destruct (Hv fields).
Qed.

Lemma non_dict_crux_is_empty_row_witness :
  crux_of_response (Some "[1, 2]") = Ok (Some (JStr "", JArr [], JArr [], JStr "")).
Proof.
  apply (non_dict_crux_is_empty_row "[1, 2]" (JArr [JInt 1; JInt 2])).
  - vm_compute. reflexivity.
  - intros fields. discriminate.
Defined.




(** An empty or blank response raises [ValueError]. *)
Theorem blank_response_is_ValueError (content : string) :
  strip content = "" -> extract_json_from_response content = Raise ValueError.
Proof.
  intros H. unfold extract_json_from_response. rewrite H.
  destruct (String.eqb content ""); [done|]. vm_compute. reflexivity.
Qed.

Lemma blank_response_is_ValueError_witness :
  extract_json_from_response (String " " (String LF "")) = Raise ValueError.
Proof. apply blank_response_is_ValueError. vm_compute. reflexivity. Defined.

(** ** JSONExtractor: responses without a brace *)







Section Search.

Context {X : Type}.

Variable ignorecase : bool.






End Search.









(** ** JSON: decoding what the encoder writes *)

Lemma length_append (s t : string) :
  String.length (s +:+ t) = String.length s + String.length t.
Proof. induction s as [|c s IH]; [done|]. rewrite append_cons. simpl. by rewrite IH. Qed.

(** *** Strings *)
Lemma scan_escape_char (c : ascii) (fuel : nat) (rest : string) :
  scan_string (S fuel) (escape_char c +:+ rest) =
  '(tail, r) ← scan_string fuel rest; Some (String c tail, r).
Proof. destruct c as [[] [] [] [] [] [] [] []]; reflexivity. Qed.

Lemma scan_escape (s : string) : forall fuel rest,
  String.length s < fuel ->
  scan_string fuel (escape s +:+ String DQUOTE rest) = Some (s, rest).
Proof.
  induction s as [|c s IH]; intros [|fuel] rest Hfuel; simpl in Hfuel; try lia.
  - reflexivity.
  - cbn [escape]. rewrite append_assoc, scan_escape_char.
    rewrite IH by lia. reflexivity.
Qed.

Lemma length_escape_char c : 1 <= String.length (escape_char c).
Proof. destruct c as [[] [] [] [] [] [] [] []]; vm_compute; lia. Qed.

Lemma length_escape s : String.length s <= String.length (escape s).
Proof.
  induction s as [|c s IH]; [done|]. cbn [escape]. rewrite length_append.
  pose proof (length_escape_char c). simpl. lia.
Qed.

(** *** Integers *)
Lemma delimited_digit c rest : delimited (String c rest) = true -> is_digit c = false.
Proof.
  simpl. intros H.
  repeat (apply orb_true_iff in H as [H|H]); apply Ascii.eqb_eq in H as ->; reflexivity.
Qed.

Lemma span_digits_delimited rest : delimited rest = true -> span_digits rest = ("", rest).
Proof.
  destruct rest as [|c rest]; [done|]. intros H%delimited_digit.
  cbn [span_digits]. by rewrite H.
Qed.

Lemma span_digits_uint d rest :
  delimited rest = true ->
  span_digits (NilEmpty.string_of_uint d +:+ rest) = (NilEmpty.string_of_uint d, rest).
Proof.
  intros Hrest.
  induction d; cbn [NilEmpty.string_of_uint]; rewrite ?append_cons;
    [by apply span_digits_delimited|..];
    cbn [span_digits]; rewrite IHd; reflexivity.
Qed.

Lemma digits_value_uint d :
  digits_value (NilEmpty.string_of_uint d) = uint_value 0 d.
Proof.
  unfold digits_value. generalize 0%Z.
  induction d; intros acc; cbn [NilEmpty.string_of_uint list_ascii_of_string fold_left uint_value];
    [done|..]; by rewrite IHd.
Qed.

Lemma uint_value_acc d : forall p,
  uint_value (Z.pos p) d = Z.pos (Pos.of_uint_acc d p).
Proof.
  induction d; intros p; cbn [uint_value Pos.of_uint_acc]; [done|..];
    rewrite <- IHd; f_equal; lia.
Qed.

Lemma uint_value_of_uint d : uint_value 0 d = Z.of_N (Pos.of_uint d).
Proof.
  induction d; cbn [uint_value Pos.of_uint Z.of_N]; [done|done|..];
    exact (uint_value_acc d _).
Qed.

Lemma lex_frac_delimited rest : delimited rest = true -> lex_frac rest = ("", rest).
Proof.
  destruct rest as [|c rest]; [done|]. simpl. intros H.
  repeat (apply orb_true_iff in H as [H|H]); apply Ascii.eqb_eq in H as ->; reflexivity.
Qed.

Lemma lex_exp_delimited rest : delimited rest = true -> lex_exp rest = ("", rest).
Proof.
  destruct rest as [|c rest]; [done|]. simpl. intros H.
  repeat (apply orb_true_iff in H as [H|H]); apply Ascii.eqb_eq in H as ->; reflexivity.
Qed.

Lemma lex_int_uint d rest :
  d <> Decimal.Nil -> (forall d', d <> Decimal.D0 d') -> delimited rest = true ->
  lex_int (NilEmpty.string_of_uint d +:+ rest) = Some (NilEmpty.string_of_uint d, rest) /\
  lex_int (String "-" (NilEmpty.string_of_uint d +:+ rest))
  = Some (String "-" (NilEmpty.string_of_uint d), rest).
Proof.
  intros Hnil Hzero Hrest. pose proof (span_digits_uint d rest Hrest) as Hspan.
  destruct d; try done; try (by destruct (Hzero d));
    cbn [NilEmpty.string_of_uint] in *; rewrite append_cons in *;
    unfold lex_int; cbv beta iota; rewrite Hspan; split; reflexivity.
Qed.

Lemma to_uint_no_leading_zero p d' : Pos.to_uint p <> Decimal.D0 d'.
Proof.
  intros H. pose proof (DecimalPos.Unsigned.to_of (Pos.to_uint p)) as Hto.
  rewrite DecimalPos.Unsigned.of_to in Hto. simpl in Hto. rewrite H in Hto.
  rewrite DecimalFacts.unorm_D0 in Hto. unfold Decimal.unorm in Hto.
  destruct (Decimal.nzhead d') eqn:Hd; try discriminate.
  - injection Hto as ->. by apply (DecimalPos.Unsigned.to_uint_nonzero p).
  - by apply (DecimalFacts.nzhead_nonzero d' u).
Qed.

Lemma int_part_value d s :
  s = NilEmpty.string_of_uint d ->
  (match s with
   | String "-" ds => - digits_value ds
   | ds => digits_value ds
   end)%Z = digits_value s.
Proof. intros ->. by destruct d. Qed.

Lemma digits_value_to_uint p :
  digits_value (NilEmpty.string_of_uint (Pos.to_uint p)) = Z.pos p.
Proof.
  by rewrite digits_value_uint, uint_value_of_uint, DecimalPos.Unsigned.of_to.
Qed.

Lemma parse_number_int (z : Z) (rest : string) :
  delimited rest = true -> parse_number (str_of_Z z +:+ rest) = Some (JInt z, rest).
Proof.
  intros Hrest. unfold str_of_Z.
  destruct z as [|p|p]; cbn [Z.to_int NilZero.string_of_int].
  - change (NilZero.string_of_uint (Decimal.D0 Decimal.Nil) +:+ rest) with (String "0" rest).
    unfold parse_number. cbn [lex_int]. cbv beta iota.
    rewrite lex_frac_delimited, lex_exp_delimited by done. reflexivity.
  - assert (NilZero.string_of_uint (Pos.to_uint p) = NilEmpty.string_of_uint (Pos.to_uint p))
      as -> by (pose proof (DecimalPos.Unsigned.to_uint_nonnil p); by destruct (Pos.to_uint p)).
    unfold parse_number.
    rewrite (proj1 (lex_int_uint _ rest (DecimalPos.Unsigned.to_uint_nonnil p)
                      (to_uint_no_leading_zero p) Hrest)).
    rewrite lex_frac_delimited, lex_exp_delimited by done. cbv beta iota.
    change (String.eqb "" "" && String.eqb "" "") with true. cbv iota.
    by rewrite (int_part_value _ _ eq_refl), digits_value_to_uint.
  - assert (NilZero.string_of_uint (Pos.to_uint p) = NilEmpty.string_of_uint (Pos.to_uint p))
      as -> by (pose proof (DecimalPos.Unsigned.to_uint_nonnil p); by destruct (Pos.to_uint p)).
    rewrite append_cons. unfold parse_number.
    rewrite (proj2 (lex_int_uint _ rest (DecimalPos.Unsigned.to_uint_nonnil p)
                      (to_uint_no_leading_zero p) Hrest)).
    rewrite lex_frac_delimited, lex_exp_delimited by done. cbv beta iota.
    change (String.eqb "" "" && String.eqb "" "") with true. cbv iota.
    by rewrite digits_value_to_uint.
Qed.

Lemma json_induction (P : json -> Prop) :
  P JNull -> (forall b, P (JBool b)) -> (forall z, P (JInt z)) ->
  (forall lexeme, P (JFloat lexeme)) -> (forall s, P (JStr s)) ->
  (forall items, Forall P items -> P (JArr items)) ->
  (forall fields, Forall (fun kv => P kv.2) fields -> P (JObj fields)) ->
  forall v, P v.
Proof.
  intros Hnull Hbool Hint Hfloat Hstr Harr Hobj. fix IH 1.
  intros [|b|z|lexeme|s|items|fields];
    [apply Hnull|apply Hbool|apply Hint|apply Hfloat|apply Hstr| |].
  - apply Harr. induction items as [|x items IHitems]; constructor; [apply IH|done].
  - apply Hobj. induction fields as [|[k x] fields IHfields]; constructor; [apply IH|done].
Qed.

Lemma uint_head d :
  exists c s, NilZero.string_of_uint d = String c s /\ c ∈ value_heads.
Proof.
  destruct d; eexists _, _; (split; [reflexivity|]); unfold value_heads;
    rewrite !elem_of_cons; tauto.
Qed.

Lemma dumps_head v :
  well_formed v = true -> exists c s, dumps v = String c s /\ c ∈ value_heads.
Proof.
  destruct v as [|[]|z|lexeme|s|items|fields]; try discriminate; intros _;
    try (eexists _, _; (split; [reflexivity|]); unfold value_heads;
         rewrite !elem_of_cons; tauto).
  unfold dumps, str_of_Z. destruct z as [|p|p]; cbn [Z.to_int NilZero.string_of_int].
  - apply uint_head.
  - apply uint_head.
  - eexists _, _. split; [reflexivity|]. unfold value_heads. rewrite !elem_of_cons. tauto.
Qed.

Lemma value_heads_cases c (P : ascii -> Prop) :
  c ∈ value_heads ->
  P "n"%char -> P "t"%char -> P "f"%char -> P "-"%char -> P "0"%char -> P "1"%char ->
  P "2"%char -> P "3"%char -> P "4"%char -> P "5"%char -> P "6"%char -> P "7"%char ->
  P "8"%char -> P "9"%char -> P "["%char -> P "{"%char -> P DQUOTE -> P c.
Proof.
  unfold value_heads. rewrite !elem_of_cons.
  intros H; repeat (destruct H as [->|H]; [done|]). by apply elem_of_nil in H.
Qed.

(** The text of a value starts with a character that is neither white
    space nor a closing bracket or brace. *)
Lemma skip_ws_head c s : c ∈ value_heads -> skip_ws (String c s) = String c s.
Proof. intros Hc. pattern c. by apply (value_heads_cases c). Qed.

Lemma lstrip_head c s : c ∈ value_heads -> lstrip (String c s) = String c s.
Proof. intros Hc. pattern c. by apply (value_heads_cases c). Qed.

Lemma elements_head c s fuel :
  c ∈ value_heads -> c <> "]"%char ->
  match String c s with
  | String "]" r => Some (JArr [], r)
  | r => parse_elements fuel [] r
  end = parse_elements fuel [] (String c s).
Proof. intros Hc. pattern c. by apply (value_heads_cases c). Qed.

Lemma parse_value_string fuel rest :
  parse_value (S fuel) (String DQUOTE rest) =
  '(text, r) ← scan_string (String.length (String DQUOTE rest)) rest; Some (JStr text, r).
Proof. reflexivity. Qed.

Lemma parse_value_array fuel rest :
  parse_value (S fuel) (String "[" rest) =
  match skip_ws rest with
  | String "]" r => Some (JArr [], r)
  | r => parse_elements fuel [] r
  end.
Proof. reflexivity. Qed.

Lemma parse_value_object fuel rest :
  parse_value (S fuel) (String "{" rest) =
  match skip_ws rest with
  | String "}" r => Some (JObj [], r)
  | r => parse_members fuel [] r
  end.
Proof. reflexivity. Qed.

Lemma parse_elements_step fuel acc s :
  parse_elements (S fuel) acc s =
  '(v, r) ← parse_value fuel s;
  match skip_ws r with
  | String "," r' => parse_elements fuel (acc ++ [v]) (skip_ws r')
  | String "]" r' => Some (JArr (acc ++ [v]), r')
  | _ => None
  end.
Proof. reflexivity. Qed.

Lemma parse_members_step fuel acc rest :
  parse_members (S fuel) acc (String DQUOTE rest) =
  '(key, r) ← scan_string (String.length (String DQUOTE rest)) rest;
  match skip_ws r with
  | String ":" r' =>
      '(v, r'') ← parse_value fuel (skip_ws r');
      match skip_ws r'' with
      | String "," r3 => parse_members fuel (dict_set key v acc) (skip_ws r3)
      | String "}" r3 => Some (JObj (dict_set key v acc), r3)
      | _ => None
      end
  | _ => None
  end.
Proof. reflexivity. Qed.

Lemma parse_value_int fuel z rest :
  delimited rest = true ->
  parse_value (S fuel) (str_of_Z z +:+ rest) = Some (JInt z, rest).
Proof.
  intros Hrest. pose proof (parse_number_int z rest Hrest) as Hnum.
  assert (exists c s, str_of_Z z +:+ rest = String c s /\
            (c = "-" \/ c = "0" \/ c = "1" \/ c = "2" \/ c = "3" \/ c = "4" \/ c = "5" \/
             c = "6" \/ c = "7" \/ c = "8" \/ c = "9")%char) as (c & s & Heq & Hc).
  { unfold str_of_Z. destruct z as [|p|p]; cbn [Z.to_int NilZero.string_of_int].
    - eexists _, _. split; [reflexivity|]. tauto.
    - destruct (Pos.to_uint p); eexists _, _; (split; [reflexivity|]); tauto.
    - eexists _, _. split; [reflexivity|]. tauto. }
  rewrite Heq in *.
  repeat (destruct Hc as [->|Hc]; [cbn [parse_value]; cbv beta iota; by rewrite Hnum|]).
  subst c. cbn [parse_value]. cbv beta iota. by rewrite Hnum.
Qed.

Lemma skip_ws_dumps v rest :
  well_formed v = true -> skip_ws (dumps v +:+ rest) = dumps v +:+ rest.
Proof.
  intros (c & s & -> & Hc)%dumps_head. rewrite append_cons. by apply skip_ws_head.
Qed.

Lemma skip_ws_space s : skip_ws (String " " s) = skip_ws s.
Proof. reflexivity. Qed.

Lemma join_dumps_head x items rest :
  well_formed x = true ->
  exists c s, join ", " (List.map dumps (x :: items)) +:+ rest = String c s /\ c ∈ value_heads.
Proof.
  intros (c & s & Hx & Hc)%dumps_head. cbn [List.map join].
  destruct (List.map dumps items); rewrite Hx, ?append_cons; by eexists _, _.
Qed.

Lemma parse_elements_dumps items : forall acc fuel rest,
  items <> [] -> Forall decodes items -> forallb well_formed items = true ->
  list_sum (map (fun x => S (size x)) items) <= fuel ->
  parse_elements fuel acc (join ", " (List.map dumps items) +:+ String "]" rest)
  = Some (JArr (acc ++ items), rest).
Proof.
  induction items as [|x items IH]; intros acc fuel rest Hne Hdec Hwf Hfuel; [done|].
  apply Forall_cons in Hdec as [Hx Hdec].
  cbn [forallb] in Hwf. apply andb_true_iff in Hwf as [Hwx Hwf].
  change (S (size x) + list_sum (map (fun x => S (size x)) items) <= fuel) in Hfuel.
  destruct fuel as [|fuel]; [lia|].
  rewrite parse_elements_step. destruct items as [|y items].
  - cbn [List.map join]. rewrite (Hx Hwx); [reflexivity|lia|done].
  - change (join ", " (List.map dumps (x :: y :: items)))
      with (dumps x +:+ ", " +:+ join ", " (List.map dumps (y :: items))).
    rewrite !append_assoc. rewrite (Hx Hwx); [|lia|done].
    cbn [mbind option_bind]. change (", " +:+ ?t) with (String "," (String " " t)).
    change (skip_ws (String "," ?t)) with (String "," t). cbv beta iota.
    rewrite skip_ws_space.
    assert (well_formed y = true) as Hwy
      by (cbn [forallb] in Hwf; by apply andb_true_iff in Hwf as [? _]).
    destruct (join_dumps_head y items (String "]" rest) Hwy) as (c & s & Hhead & Hc).
    rewrite Hhead, (skip_ws_head c s Hc), <- Hhead.
    rewrite IH; [|done|done|done|lia]. by rewrite <- app_assoc.
Qed.

Lemma member_text k v tail :
  (encode_string k +:+ ": " +:+ dumps v) +:+ tail =
  String DQUOTE (escape k +:+ String DQUOTE (String ":" (String " " (dumps v +:+ tail)))).
Proof. unfold encode_string. rewrite !append_cons, !append_assoc. reflexivity. Qed.

Lemma scan_key k tail :
  scan_string (String.length (String DQUOTE (escape k +:+ String DQUOTE tail)))
              (escape k +:+ String DQUOTE tail) = Some (k, tail).
Proof.
  apply scan_escape. cbn [String.length]. rewrite length_append.
  pose proof (length_escape k). lia.
Qed.

Lemma parse_members_dumps fields : forall acc fuel rest,
  fields <> [] -> Forall (fun kv => decodes kv.2) fields ->
  forallb (fun kv => well_formed kv.2) fields = true ->
  NoDup (acc.*1 ++ fields.*1) ->
  list_sum (map (fun kv => S (size kv.2)) fields) <= fuel ->
  parse_members fuel acc
    (join ", " (List.map (fun kv => encode_string kv.1 +:+ ": " +:+ dumps kv.2) fields)
     +:+ String "}" rest)
  = Some (JObj (acc ++ fields), rest).
Proof.
  induction fields as [|[k x] fields IH]; intros acc fuel rest Hne Hdec Hwf Hnodup Hfuel;
    [done|].
  apply Forall_cons in Hdec as [Hx Hdec]. simpl in Hx.
  cbn [forallb snd] in Hwf. apply andb_true_iff in Hwf as [Hwx Hwf].
  change (S (size x) + list_sum (map (fun kv => S (size kv.2)) fields) <= fuel) in Hfuel.
  destruct fuel as [|fuel]; [lia|].
  assert (k ∉ acc.*1) as Hfresh.
  { rewrite fmap_cons in Hnodup. apply NoDup_app in Hnodup as (_ & Hnot & _).
    intros Hin. apply (Hnot _ Hin). by left. }
  assert (NoDup ((acc ++ [(k, x)]).*1 ++ fields.*1)) as Hnodup'.
  { rewrite fmap_app, <- app_assoc. by rewrite fmap_cons in Hnodup. }
  destruct fields as [|[k' y] fields].
  - cbn [List.map join fst snd]. rewrite member_text, parse_members_step, scan_key.
    cbn [mbind option_bind]. change (skip_ws (String ":" ?t)) with (String ":" t).
    cbv beta iota. rewrite skip_ws_space, skip_ws_dumps by done.
    rewrite (Hx Hwx); [|lia|done]. cbn [mbind option_bind].
    change (skip_ws (String "}" ?t)) with (String "}" t). cbv beta iota.
    by rewrite dict_set_fresh.
  - change (join ", " (List.map (fun kv => encode_string kv.1 +:+ ": " +:+ dumps kv.2)
                         ((k, x) :: (k', y) :: fields)))
      with ((encode_string k +:+ ": " +:+ dumps x) +:+ ", " +:+
            join ", " (List.map (fun kv => encode_string kv.1 +:+ ": " +:+ dumps kv.2)
                         ((k', y) :: fields))).
    rewrite (append_assoc (encode_string k +:+ ": " +:+ dumps x)).
    rewrite member_text, parse_members_step, scan_key.
    cbn [mbind option_bind]. change (skip_ws (String ":" ?t)) with (String ":" t).
    cbv beta iota. rewrite skip_ws_space, skip_ws_dumps by done.
    rewrite append_assoc. change (", " +:+ ?t) with (String "," (String " " t)).
    rewrite (Hx Hwx); [|lia|done]. cbn [mbind option_bind].
    change (skip_ws (String "," ?t)) with (String "," t). cbv beta iota.
    rewrite skip_ws_space.
    set (text := join ", " _ +:+ String "}" rest).
    assert (skip_ws text = text) as ->.
    { unfold text. cbn [List.map join fst snd]. unfold encode_string at 1.
      destruct (List.map _ fields); rewrite !append_cons; reflexivity. }
    unfold text. rewrite dict_set_fresh by done.
    rewrite IH; [|done|done|done|done|lia]. by rewrite <- app_assoc.
Qed.

Lemma bracket_text (l r : ascii) (inner rest : string) :
  (String l "" +:+ inner +:+ String r "") +:+ rest = String l (inner +:+ String r rest).
Proof.
  change (String l ((inner +:+ String r "") +:+ rest) = String l (inner +:+ String r rest)).
  by rewrite append_assoc.
Qed.

Lemma dumps_decodes v : decodes v.
Proof.
  induction v as [|b|z|lexeme|s|items IH|fields IH] using json_induction;
    intros Hwf fuel rest Hfuel Hrest; try discriminate;
    (destruct fuel as [|fuel]; [simpl in Hfuel; lia|]).
  - reflexivity.
  - by destruct b.
  - by apply parse_value_int.
  - cbn [dumps]. unfold encode_string. rewrite !append_cons, append_assoc.
    change (String DQUOTE "" +:+ rest) with (String DQUOTE rest).
    rewrite parse_value_string, scan_key. reflexivity.
  - cbn [dumps well_formed size] in *. rewrite bracket_text, parse_value_array.
    destruct items as [|x items]; [reflexivity|].
    assert (well_formed x = true) as Hwx
      by (cbn [forallb] in Hwf; by apply andb_true_iff in Hwf as [? _]).
    destruct (join_dumps_head x items (String "]" rest) Hwx) as (c & t & Hhead & Hc).
    rewrite Hhead, (skip_ws_head c t Hc).
    rewrite elements_head; [|done|].
    + rewrite <- Hhead. rewrite (parse_elements_dumps (x :: items) []); [done..|lia].
    + intros ->. unfold value_heads in Hc. rewrite !elem_of_cons in Hc.
      repeat (destruct Hc as [Hc|Hc]; [discriminate|]). by apply elem_of_nil in Hc.
  - cbn [dumps well_formed size] in *. rewrite bracket_text, parse_value_object.
    destruct fields as [|[k x] fields]; [reflexivity|].
    apply andb_true_iff in Hwf as [Hnodup%bool_decide_eq_true Hwf].
    set (text := join ", " _ +:+ String "}" rest).
    assert (exists t, text = String DQUOTE t) as [t Htext].
    { unfold text. cbn [List.map join fst snd]. unfold encode_string at 1.
      destruct (List.map _ fields); rewrite !append_cons; by eexists. }
    rewrite Htext.
    change (parse_members fuel [] (String DQUOTE t) = Some (JObj ((k, x) :: fields), rest)).
    rewrite <- Htext. unfold text.
    rewrite (parse_members_dumps ((k, x) :: fields) []); [done..|lia].
Qed.

(** *** Fuel *)
Lemma join_length_bound {A} (f : A -> string) (g : A -> nat) (items : list A) :
  Forall (fun a => g a <= 2 * String.length (f a)) items ->
  list_sum (map (fun a => S (g a)) items)
  <= 2 * String.length (join ", " (List.map f items)) + 1.
Proof.
  induction 1 as [|x items Hx Hitems IH]; [simpl; lia|].
  change (list_sum (map (fun a => S (g a)) (x :: items)))
    with (S (g x) + list_sum (map (fun a => S (g a)) items)).
  destruct items as [|y items].
  - cbn [List.map join]. simpl list_sum. lia.
  - change (join ", " (List.map f (x :: y :: items)))
      with (f x +:+ ", " +:+ join ", " (List.map f (y :: items))).
    rewrite !length_append. change (String.length ", ") with 2. lia.
Qed.

Lemma size_bound v : well_formed v = true -> size v <= 2 * String.length (dumps v).
Proof.
  induction v as [|b|z|lexeme|s|items IH|fields IH] using json_induction; intros Hwf;
    try (destruct (dumps_head _ Hwf) as (c & t & -> & _); simpl; lia).
  - cbn [dumps size well_formed] in *.
    rewrite !length_append. change (String.length "[") with 1.
    change (String.length "]") with 1.
    pose proof (join_length_bound dumps size items) as Hb.
    assert (Forall (fun a => size a <= 2 * String.length (dumps a)) items) as Hall.
    { clear Hb. induction IH as [|x items Hx _ IHitems]; [constructor|].
      cbn [forallb] in Hwf. apply andb_true_iff in Hwf as [Hwx Hwf].
      constructor; [by apply Hx|by apply IHitems]. }
    specialize (Hb Hall). lia.
  - cbn [dumps size well_formed] in *.
    rewrite !length_append. change (String.length "{") with 1.
    change (String.length "}") with 1.
    apply andb_true_iff in Hwf as [_ Hwf].
    pose proof (join_length_bound
                  (fun kv : string * json => encode_string kv.1 +:+ ": " +:+ dumps kv.2)
                  (fun kv => size kv.2) fields) as Hb.
    assert (Forall (fun kv : string * json =>
                      size kv.2 <= 2 * String.length
                                         (encode_string kv.1 +:+ ": " +:+ dumps kv.2))
                   fields) as Hall.
    { clear Hb. induction IH as [|x fields Hx _ IHfields]; [constructor|].
      cbn [forallb] in Hwf. apply andb_true_iff in Hwf as [Hwx Hwf].
      constructor; [|by apply IHfields]. rewrite !length_append.
      specialize (Hx Hwx). lia. }
    specialize (Hb Hall). lia.
Qed.

(** [json.loads(json.dumps(v)) == v] *)
Lemma loads_dumps v : well_formed v = true -> json_loads (dumps v) = Some v.
Proof.
  intros Hwf. unfold json_loads.
  pose proof (skip_ws_dumps v "" Hwf) as Hskip. rewrite append_nil_r in Hskip.
  rewrite Hskip.
  pose proof (dumps_decodes v Hwf (2 * String.length (dumps v) + 2) "") as Hparse.
  rewrite append_nil_r in Hparse. rewrite Hparse; [done| |done].
  pose proof (size_bound v Hwf). lia.
Qed.

(** *** Surrounding white space *)
Lemma rstrip_snoc s c : is_space c = false -> rstrip (s +:+ String c "") = s +:+ String c "".
Proof.
  intros Hc. induction s as [|d s IH].
  - change (rstrip (String c "") = String c ""). cbn [rstrip]. by rewrite Hc.
  - rewrite append_cons. cbn [rstrip]. rewrite IH.
    destruct s; [reflexivity|]. by rewrite append_cons.
Qed.

Lemma rstrip_uint d : rstrip (NilEmpty.string_of_uint d) = NilEmpty.string_of_uint d.
Proof.
  induction d; cbn [NilEmpty.string_of_uint rstrip]; [done|..];
    rewrite IHd; by destruct (NilEmpty.string_of_uint d).
Qed.

Lemma rstrip_nilzero d : rstrip (NilZero.string_of_uint d) = NilZero.string_of_uint d.
Proof. destruct d; try exact (rstrip_uint _). reflexivity. Qed.

Lemma nilzero_head d : exists c s, NilZero.string_of_uint d = String c s.
Proof. destruct d; cbn; eauto. Qed.

Lemma rstrip_dumps v : well_formed v = true -> rstrip (dumps v) = dumps v.
Proof.
  destruct v as [|[]|z|lexeme|s|items|fields]; try discriminate; intros _; try reflexivity.
  - unfold dumps, str_of_Z. destruct (BinInt.Z.to_int z) as [d|d]; cbn [NilZero.string_of_int].
    + apply rstrip_nilzero.
    + cbn [rstrip]. rewrite rstrip_nilzero.
      by destruct (nilzero_head d) as (c & s & ->).
  - cbn [dumps]. unfold encode_string. by apply rstrip_snoc.
  - cbn [dumps]. rewrite <- append_assoc. by apply rstrip_snoc.
  - cbn [dumps]. rewrite <- append_assoc. by apply rstrip_snoc.
Qed.

Lemma strip_dumps v : well_formed v = true -> strip (dumps v) = dumps v.
Proof.
  intros Hwf. unfold strip. destruct (dumps_head v Hwf) as (c & s & Heq & Hc).
  rewrite Heq, (lstrip_head c s Hc), <- Heq. by apply rstrip_dumps.
Qed.

(** A response that is the text [json.dumps] writes for a value without
    floating-point numbers is decoded to that value, by the direct
    decoding. *)
Theorem dumped_json_is_returned (v : json) :
  well_formed v = true -> extract_json_from_response (dumps v) = Ok v.
Proof.
  intros Hwf. unfold extract_json_from_response.
  destruct (dumps_head v Hwf) as (c & s & Heq & _).
  assert (String.eqb (dumps v) "" = false) as -> by (by rewrite Heq).
  rewrite strip_dumps by done. unfold loads_or_cleaned. by rewrite loads_dumps.
Qed.

Lemma dumped_json_is_returned_witness :
  extract_json_from_response
    (dumps (JObj [("claims", JArr [JObj [("claim", JStr (dq "say 'hi'")); ("n", JInt (-3))]])]))
  = Ok (JObj [("claims", JArr [JObj [("claim", JStr (dq "say 'hi'")); ("n", JInt (-3))]])]).
Proof. apply dumped_json_is_returned. vm_compute. reflexivity. Defined.
